(** * KZG commitments and accumulating-ratio polynomials of gnark-crypto

    A shallow embedding of
    - [ecc/bls12-377/fr/kzg/kzg.go]  (SRS, Commit, Open, Verify, batch opening,
      folding, multi-point batch verification), and
    - [ecc/bw6-756/fr/iop/ratios.go] (the two accumulating-ratio builders), and
    - the index conversion [convert] of [ecc/bn254/fr/fri/fri_test.go],
    followed by the properties of these programs.

    The scalar field, the curve groups, the pairing, the transcript and the
    FFT are packages the two files consume.  The field and the groups are
    interfaces here ([FieldOps], [FModule], [CurveOps]); what the consumed
    packages compute is written out as executable definitions over these
    interfaces.  A five-element field instantiates everything at the end of
    the definitions, so every statement can be run on concrete inputs. *)

From Stdlib Require Import ZArith Lia Field Bool.
From stdpp Require Import base list strings sets.

(* ===================================================================== *)
(** * Part I: definitions                                                 *)
(* ===================================================================== *)

(** ** Go results

    A Go function of result type [(T, error)] returns [Ok v] for [(v, nil)]
    and [Err e] for a non-nil error; a run-time panic (index out of range,
    slice bounds out of range, nil dereference) is [Abort]. *)

Inductive error : Type :=
  (* kzg.go *)
  | ErrInvalidNbDigests
  | ErrInvalidPolynomialSize
  | ErrVerifyOpeningProof
  | ErrVerifyBatchOpeningSinglePoint
  | ErrInvalidDomain
  | ErrMinSRSSize
  (* ratios.go *)
  | ErrMustBeRegular
  | ErrMustBeCanonical
  | ErrMustBeLagrangeCoset
  | ErrInconsistentFormat
  | ErrInconsistentSize
  | ErrNumberPolynomials
  | ErrSizeNotPowerOfTwo
  | ErrInconsistentSizeDomain
  | ErrIncorrectNumberOfVariables
  (* an error value created inside a consumed package *)
  | ErrPrimitive (msg : string).

Inductive outcome (A : Type) : Type :=
  | Ok (a : A)
  | Err (e : error)
  | Abort (why : string).
Arguments Ok {A} a.
Arguments Err {A} e.
Arguments Abort {A} why.

Definition obind {A B : Type} (m : outcome A) (k : A -> outcome B) : outcome B :=
  match m with
  | Ok a => k a
  | Err e => Err e
  | Abort w => Abort w
  end.

#[export] Instance outcome_bind : MBind outcome := fun A B k m => obind m k.
#[export] Instance outcome_ret : MRet outcome := fun A a => Ok a.

(** [l[i]] with Go's bounds check. *)
Definition index {A : Type} (l : list A) (i : nat) : outcome A :=
  match l !! i with
  | Some x => Ok x
  | None => Abort "index out of range"
  end.

(** [l[i] = v] with Go's bounds check. *)
Definition assign {A : Type} (l : list A) (i : nat) (v : A) : outcome (list A) :=
  if i <? length l then Ok (<[i := v]> l) else Abort "index out of range".

(** [l[i]] for a signed index. *)
Definition indexZ {A : Type} (l : list A) (i : Z) : outcome A :=
  if (i <? 0)%Z then Abort "index out of range" else index l (Z.to_nat i).

(** ** The scalar field ([fr.Element]) *)

Class FieldOps : Type := {
  F : Type;
  fzero : F;
  fone : F;
  fadd : F -> F -> F;
  fmul : F -> F -> F;
  fsub : F -> F -> F;
  fopp : F -> F;
  finv : F -> F;
  feqb : F -> F -> bool;
}.

Declare Scope fr_scope.
Delimit Scope fr_scope with fr.
Notation "a ⊕ b" := (fadd a b) (at level 50, left associativity) : fr_scope.
Notation "a ⊖ b" := (fsub a b) (at level 50, left associativity) : fr_scope.
Notation "a ⊗ b" := (fmul a b) (at level 40, left associativity) : fr_scope.
Local Open Scope fr_scope.

(** A module over the scalar field: what the code uses of a curve group
    (addition, negation, scalar multiplication), whatever the coordinates
    (affine or Jacobian) a point is held in. *)
Class FModule `{FieldOps} (G : Type) : Type := {
  gzero : G;
  gadd : G -> G -> G;
  gneg : G -> G;
  smul : F -> G -> G;
  geqb : G -> G -> bool;
}.

Notation "P ⊞ Q" := (gadd P Q) (at level 50, left associativity) : fr_scope.
Notation "k • P" := (smul k P) (at level 40, left associativity) : fr_scope.

Definition gsub `{FModule G} (P Q : G) : G := P ⊞ gneg Q.

(** The two source groups, the target group and the pairing. *)
Class CurveOps `{FieldOps} : Type := {
  G1 : Type;
  G2 : Type;
  GT : Type;
  G1_module :: FModule G1;
  G2_module :: FModule G2;
  GT_module :: FModule GT;
  gen1 : G1;
  gen2 : G2;
  pairing : G1 -> G2 -> GT;
}.

#[export] Instance F_inhabited `{FieldOps} : Inhabited F := populate fzero.

(** The heap of backing arrays of the slices of field elements (see
    [slice] below). *)
Abbreviation Heap := (list (list F)).

Section Model.
Context `{FO : FieldOps} `{CO : !CurveOps}.

Fixpoint fpow (x : F) (k : nat) : F :=
  match k with
  | O => fone
  | S k' => x ⊗ fpow x k'
  end.

(** Modelled from the spec: [Eval] of package [polynomial] is absent; it is
    the value of the polynomial at the point, by Horner's rule from the
    highest coefficient down. *)
Fixpoint Eval (p : list F) (x : F) : F :=
  match p with
  | [] => fzero
  | c :: p' => c ⊕ x ⊗ Eval p' x
  end.

(** Modelled from the spec: [MultiExp] of the curve package is absent; it is the
    multi-scalar product of the points by the scalars, and refuses lists
    of different lengths. *)
Fixpoint msm {G : Type} `{!FModule G} (points : list G) (scalars : list F) : G :=
  match points, scalars with
  | P :: points', s :: scalars' => (s • P) ⊞ msm points' scalars'
  | _, _ => gzero
  end.

Definition MultiExp {G : Type} `{!FModule G} (points : list G) (scalars : list F)
  : outcome G :=
  if Nat.eqb (length points) (length scalars) then Ok (msm points scalars)
  else Err (ErrPrimitive "len(points) != len(scalars)").

(** Modelled from the spec: [PairingCheck] of the curve package is absent; it
    tells whether the product of the pairings of the paired lists is the
    unit of the target group (written additively here). *)
Fixpoint pairing_sum (ps : list G1) (qs : list G2) : GT :=
  match ps, qs with
  | P :: ps', Q :: qs' => pairing P Q ⊞ pairing_sum ps' qs'
  | _, _ => gzero
  end.

Definition PairingCheck (ps : list G1) (qs : list G2) : outcome bool :=
  if Nat.eqb (length ps) (length qs) then Ok (geqb (pairing_sum ps qs) gzero)
  else Err (ErrPrimitive "invalid inputs sizes").

(** ** kzg.go *)

(** [fft.Domain], the fields the two files read. *)
Record Domain : Type := {
  Cardinality : nat;
  CardinalityInv : F;
  Generator : F;
  GeneratorInv : F;
  FrMultiplicativeGen : F;
  FrMultiplicativeGenInv : F;
  Twiddles : list (list F);
  CosetTable : list F;
}.

Record SRS : Type := {
  srsG1 : list G1;       (* [gen, [alpha]gen, [alpha**2]gen, ...] *)
  srsG2 : G2 * G2;       (* [gen, [alpha]gen] *)
}.

Record OpeningProof : Type := {
  H : G1;
  Point : F;
  ClaimedValue : F;
}.

Record BatchOpeningProof : Type := {
  bH : G1;
  bPoint : F;
  ClaimedValues : list F;
}.

(** The loop [v[i].Mul(&v[i-1], &x)] that fills [alphas] in [NewSRS] and
    [gammai] in [FoldProof]: [k] entries are still to be written after
    [prev]. *)
Fixpoint mul_chain (x prev : F) (k : nat) : list F :=
  match k with
  | O => []
  | S k' => let next := prev ⊗ x in next :: mul_chain x next k'
  end.

(** [for i := start; i < start + count; i++ { s = body(i, s) }]. *)
Fixpoint for_range {S : Type} (start count : nat) (body : nat -> S -> outcome S) (s : S)
  : outcome S :=
  match count with
  | O => Ok s
  | Datatypes.S c => s' ← body start s; for_range (Datatypes.S start) c body s'
  end.

(** [NewSRS]; the secret is given as the scalar it is reduced to. *)
Definition NewSRS (size : nat) (alpha : F) : outcome SRS :=
  if size <? 2 then Err ErrMinSRSSize
  else
    let alphas := alpha :: mul_chain alpha alpha (size - 2) in
    let g1s := map (fun a => a • gen1) alphas in
    Ok {| srsG1 := gen1 :: g1s; srsG2 := (gen2, alpha • gen2) |}.

(** An SRS for the secret [alpha]: the powers of [alpha] times the
    generator of the first group, and the generator and [alpha] times the
    generator of the second. *)
Definition SRS_for (alpha : F) (srs : SRS) : Prop :=
  (forall i, i < length (srsG1 srs) -> srsG1 srs !! i = Some (fpow alpha i • gen1)) /\
  srsG2 srs = (gen2, alpha • gen2) /\
  2 <= length (srsG1 srs).

(** [Commit].  [opt] is the variadic semaphore argument and [numCpus] the
    value [runtime.NumCPU()] has in the call. *)
Definition Commit (numCpus : nat) (p : list F) (srs : SRS) (opt : list unit)
  : outcome G1 :=
  if (length p =? 0) || (length (srsG1 srs) <? length p) then
    Err ErrInvalidPolynomialSize
  else
    match opt with
    | _ :: _ => MultiExp (take (length p) (srsG1 srs)) p
    | [] =>
      if 16 <? numCpus then
        let m := length p / 2 in
        p2 ← MultiExp (drop m (take (length p) (srsG1 srs))) (drop m p);
        p1 ← MultiExp (take m (srsG1 srs)) (take m p);
        Ok (p1 ⊞ p2 : G1)
      else MultiExp (take (length p) (srsG1 srs)) p
    end.

(** [Verify]; [Ok tt] is the nil error. *)
Definition Verify (commitment : G1) (proof : OpeningProof) (srs : SRS)
  : outcome unit :=
  g0 ← index (srsG1 srs) 0;
  let claimedValueG1Aff := ClaimedValue proof • g0 in
  let fminusfaG1 := gsub commitment claimedValueG1Aff in
  let negH := gneg (H proof) in
  let alphaMinusaG2 := gneg (Point proof • fst (srsG2 srs)) ⊞ snd (srsG2 srs) in
  check ← PairingCheck [fminusfaG1; negH] [fst (srsG2 srs); alphaMinusaG2];
  if check : bool then Ok tt else Err ErrVerifyOpeningProof.

(** *** Slices and their backing arrays

    A [polynomial.Polynomial] is a Go slice of field elements.  The heap
    holds the backing arrays; a slice names its array, the offset of its
    first element and its length.  Its capacity is what is left of the
    array after the offset. *)


Record slice : Type := {
  s_arr : nat;
  s_off : nat;
  s_len : nat;
}.

Definition backing (h : Heap) (s : slice) : list F := default [] (h !! s_arr s).

Definition cap (h : Heap) (s : slice) : nat := length (backing h s) - s_off s.

(** The elements of a slice, as a list. *)
Definition load (h : Heap) (s : slice) : list F :=
  take (s_len s) (drop (s_off s) (backing h s)).

(** A slice header the heap supports. *)
Definition slice_ok (h : Heap) (s : slice) : Prop :=
  s_arr s < length h /\ s_off s + s_len s <= length (backing h s).

(** Computations on the heap. *)
Definition M (A : Type) : Type := Heap -> outcome A * Heap.

Definition hbind {A B : Type} (m : M A) (k : A -> M B) : M B :=
  fun h =>
    match m h with
    | (Ok a, h') => k a h'
    | (Err e, h') => (Err e, h')
    | (Abort w, h') => (Abort w, h')
    end.

Definition hret {A : Type} (a : A) : M A := fun h => (Ok a, h).

Definition hlift {A : Type} (o : outcome A) : M A := fun h => (o, h).

(** [make(polynomial.Polynomial, len, cap)]: a fresh zeroed array. *)
Definition make_slice (len capacity : nat) : M slice :=
  fun h =>
    if capacity <? len then (Abort "makeslice: cap out of range", h)
    else (Ok {| s_arr := length h; s_off := 0; s_len := len |},
          h ++ [replicate capacity fzero]).

(** [copy(dst, src)]: as many elements as both slices hold. *)
Definition copy_slice (dst src : slice) : M unit :=
  fun h =>
    let n := Nat.min (s_len dst) (s_len src) in
    (Ok tt,
     <[s_arr dst := list_inserts (s_off dst) (take n (load h src)) (backing h dst)]> h).

(** The synthetic division loop of [dividePolyByXminusA] on the backing
    array, [k] iterations left ([i = k - 1] is the next index):
    [t.Mul(&c, &a); f[i].Add(&f[i], &t); c, f[i] = f[i], c]. *)
Fixpoint divide_loop (a : F) (off k : nat) (c : F) (arr : list F) : list F :=
  match k with
  | O => arr
  | S i =>
    let fi := (arr !!! (off + i)%nat) ⊕ (c ⊗ a) in
    divide_loop a off i fi (<[(off + i)%nat := c]> arr)
  end.

(** What the loop computes, by recursion on the coefficients: the carry
    that leaves the lowest index, and the coefficients left behind.  [c]
    is the carry that enters at the highest index. *)
Fixpoint synthetic (a c : F) (f : list F) : F * list F :=
  match f with
  | [] => (c, [])
  | x :: f' => let '(c1, q) := synthetic a c f' in (x ⊕ c1 ⊗ a, c1 :: q)
  end.

(** [dividePolyByXminusA] on the backing array of [f], whose first element
    is at [off] and whose length is [len]: the array it leaves, and the
    length of the slice it returns. *)
Definition divide_array (card off len : nat) (fa a : F) (arr : list F)
  : outcome nat * list F :=
  let degree : Z := (Z.of_nat len - 1)%Z in
  (* f = f[:d.Cardinality] *)
  if length arr - off <? card then (Abort "slice bounds out of range", arr)
  else
    (* f[0].Sub(&f[0], &fa) *)
    match drop off (take (off + card) arr) with
    | [] => (Abort "index out of range", arr)
    | f0 :: _ =>
      let arr1 := <[off := f0 ⊖ fa]> arr in
      let arr2 := divide_loop a off card fzero arr1 in
      (* return f[:degree] *)
      if (degree <? 0)%Z || (Z.of_nat (length arr - off) <? degree)%Z then
        (Abort "slice bounds out of range", arr2)
      else (Ok (Z.to_nat degree), arr2)
    end.

(** [dividePolyByXminusA]: the quotient is written over [f]'s array. *)
Definition dividePolyByXminusA (d : Domain) (f : slice) (fa a : F) : M slice :=
  fun h =>
    let '(r, arr) :=
      divide_array (Cardinality d) (s_off f) (s_len f) fa a (backing h f) in
    (len ← r; Ok {| s_arr := s_arr f; s_off := s_off f; s_len := len |},
     <[s_arr f := arr]> h).

(** [Open]. *)
Definition Open (numCpus : nat) (p : slice) (point : F) (domain : Domain) (srs : SRS)
  : M OpeningProof :=
  fun h =>
    if (s_len p =? 0) || (length (srsG1 srs) <? s_len p) then
      (Err ErrInvalidPolynomialSize, h)
    else if Cardinality domain <? s_len p then (Err ErrInvalidDomain, h)
    else
      let claimed := Eval (load h p) point in
      hbind (make_slice (s_len p) (Cardinality domain)) (fun _p =>
      hbind (copy_slice _p p) (fun _ =>
      hbind (dividePolyByXminusA domain _p claimed point) (fun hq h' =>
      hbind (hlift (Commit numCpus (load h' hq) srs [])) (fun hCommit =>
      hret {| H := hCommit; Point := point; ClaimedValue := claimed |}) h'))) h.

(** *** The Fiat-Shamir challenge *)

(** Modelled from the spec: package [fiat-shamir], the hash and the encodings of
    field elements and points are absent.  A transcript is created over a
    hash (given with its internal state), binds byte strings to a
    challenge name, and squeezes the challenge; binding and squeezing can
    fail with an error of the package. *)
Class TranscriptOps : Type := {
  Hash : Type;
  Transcript : Type;
  NewTranscript : Hash -> string -> Transcript;
  Bind : Transcript -> string -> list Byte.byte -> outcome Transcript;
  ComputeChallenge : Transcript -> string -> outcome (list Byte.byte);
  MarshalFr : F -> list Byte.byte;
  MarshalG1 : G1 -> list Byte.byte;
  SetBytes : list Byte.byte -> F;
}.
Context `{TO : !TranscriptOps}.

Fixpoint bind_digests (fs : Transcript) (digests : list G1) : outcome Transcript :=
  match digests with
  | [] => Ok fs
  | dg :: rest => fs' ← Bind fs "gamma" (MarshalG1 dg); bind_digests fs' rest
  end.

(** [deriveGamma].  The hash is reset before returning; the state it is
    left in is not part of the result. *)
Definition deriveGamma (point : F) (digests : list G1) (hf : Hash) : outcome F :=
  let fs := NewTranscript hf "gamma" in
  fs1 ← Bind fs "gamma" (MarshalFr point);
  fs2 ← bind_digests fs1 digests;
  gammaByte ← ComputeChallenge fs2 "gamma";
  Ok (SetBytes gammaByte).

(** [fold].  The error of [MultiExp] is dropped by the code: the folded
    digest is then left at its zero value. *)
Definition fold (digests : list G1) (evaluations factors : list F) : outcome (G1 * F) :=
  foldedEvaluations ←
    for_range 0 (length digests)
      (fun i acc => e ← index evaluations i; f ← index factors i; Ok (acc ⊕ e ⊗ f))
      fzero;
  let foldedDigests :=
    match MultiExp digests factors with Ok g => g | _ => gzero end in
  Ok (foldedDigests, foldedEvaluations).

(** [FoldProof]. *)
Definition FoldProof (digests : list G1) (batchOpeningProof : BatchOpeningProof) (hf : Hash)
  : outcome (OpeningProof * G1) :=
  let nbDigests := length digests in
  if negb (nbDigests =? length (ClaimedValues batchOpeningProof)) then
    Err ErrInvalidNbDigests
  else
    match deriveGamma (bPoint batchOpeningProof) digests hf with
    | Err _ => Err ErrInvalidNbDigests
    | Abort w => Abort w
    | Ok gamma =>
      match nbDigests with
      | O => Abort "index out of range"          (* gammai[0].SetOne() *)
      | Datatypes.S k =>
        let gammai := fone :: mul_chain gamma fone k in
        '(foldedDigests, foldedEvaluations) ←
          fold digests (ClaimedValues batchOpeningProof) gammai;
        Ok ({| H := bH batchOpeningProof;
               Point := bPoint batchOpeningProof;
               ClaimedValue := foldedEvaluations |}, foldedDigests)
      end
    end.

(** [BatchVerifySinglePoint]. *)
Definition BatchVerifySinglePoint (digests : list G1) (batchOpeningProof : BatchOpeningProof)
    (hf : Hash) (srs : SRS) : outcome unit :=
  '(foldedProof, foldedDigest) ← FoldProof digests batchOpeningProof hf;
  Verify foldedDigest foldedProof srs.

(** [BatchVerifyMultiPoints].  [rnd i] is the element [SetRandom] draws
    for slot [i]. *)
Definition BatchVerifyMultiPoints (rnd : nat -> F) (digests : list G1)
    (proofs : list OpeningProof) (srs : SRS) : outcome unit :=
  if negb (length digests =? length proofs) then Err ErrInvalidNbDigests
  else if length digests =? 1 then
    d0 ← index digests 0; p0 ← index proofs 0; Verify d0 p0 srs
  else
    match length digests with
    | O => Abort "index out of range"            (* randomNumbers[0].SetOne() *)
    | Datatypes.S k =>
      let randomNumbers := fone :: map rnd (seq 1 k) in
      quotients ←
        for_range 0 (length randomNumbers)
          (fun i q => p ← index proofs i; Ok (q ++ [H p])) [];
      let foldedQuotients :=
        match MultiExp quotients randomNumbers with Ok g => g | _ => gzero end in
      evals ←
        for_range 0 (length randomNumbers)
          (fun i ev => p ← index proofs i; Ok (ev ++ [ClaimedValue p])) [];
      '(foldedDigests, foldedEvals) ← fold digests evals randomNumbers;
      g0 ← index (srsG1 srs) 0;
      let foldedEvalsCommit := foldedEvals • g0 in
      let foldedDigests := gsub foldedDigests foldedEvalsCommit in
      randomNumbers ←
        for_range 0 (length randomNumbers)
          (fun i rs => r ← index randomNumbers i; p ← index proofs i;
                       Ok (rs ++ [r ⊗ Point p])) [];
      let foldedPointsQuotients :=
        match MultiExp quotients randomNumbers with Ok g => g | _ => gzero end in
      let foldedDigests := foldedDigests ⊞ foldedPointsQuotients in
      let foldedQuotients := gneg foldedQuotients in
      check ← PairingCheck [foldedDigests; foldedQuotients]
                           [fst (srsG2 srs); snd (srsG2 srs)];
      if check : bool then Ok tt else Err ErrVerifyOpeningProof
    end.

(** *** Batch opening at a single point *)

(** The first loop of [BatchOpenSinglePoint]: the size checks and the
    largest length, an [int] that starts at [-1]. *)
Fixpoint check_polynomials (lens : list nat) (srsLen card : nat) (largestPoly : Z)
  : outcome Z :=
  match lens with
  | [] => Ok largestPoly
  | l :: rest =>
    if (l =? 0) || (srsLen <? l) then Err ErrInvalidPolynomialSize
    else if card <? l then Err ErrInvalidDomain
    else check_polynomials rest srsLen card
           (if (largestPoly <? Z.of_nat l)%Z then Z.of_nat l else largestPoly)
  end.

(** The Horner loop [sum.Mul(&sum, &gamma).Add(&sum, &claimed[i])] from
    [i = k - 1] down to [0]. *)
Fixpoint horner_down (claimed : list F) (gamma : F) (k : nat) (sum : F) : outcome F :=
  match k with
  | O => Ok sum
  | Datatypes.S i => c ← index claimed i; horner_down claimed gamma i (sum ⊗ gamma ⊕ c)
  end.

(** [for j < len(poly) { pj.Mul(&poly[j], &gammaN); sum[j].Add(&sum[j], &pj) }]. *)
Fixpoint add_scaled (sum poly : list F) (gammaN : F) : outcome (list F) :=
  match poly, sum with
  | [], _ => Ok sum
  | c :: poly', s :: sum' => r ← add_scaled sum' poly' gammaN; Ok ((s ⊕ c ⊗ gammaN) :: r)
  | _ :: _, [] => Abort "index out of range"
  end.

(** The loop over [polynomials[1:]], with [gammaN] multiplied by [gamma]
    after each polynomial. *)
Fixpoint sum_gamma_pols (sum : list F) (pols : list (list F)) (gamma gammaN : F)
  : outcome (list F) :=
  match pols with
  | [] => Ok sum
  | p :: rest => sum' ← add_scaled sum p gammaN;
                 sum_gamma_pols sum' rest gamma (gammaN ⊗ gamma)
  end.

(** [BatchOpenSinglePoint].  The goroutines evaluate the polynomials and
    fold the evaluations; they are joined before their results are read,
    and are run here in the order of the joins. *)
Definition BatchOpenSinglePoint (numCpus : nat) (polynomials : list slice)
    (digests : list G1) (point : F) (hf : Hash) (domain : Domain) (srs : SRS)
  : M BatchOpeningProof :=
  fun h =>
    let nbDigests := length digests in
    if negb (nbDigests =? length polynomials) then (Err ErrInvalidNbDigests, h)
    else
      match check_polynomials (map s_len polynomials) (length (srsG1 srs))
              (Cardinality domain) (-1) with
      | Err e => (Err e, h)
      | Abort w => (Abort w, h)
      | Ok largestPoly =>
        let claimedValues := map (fun p => Eval (load h p) point) polynomials in
        match deriveGamma point digests hf with
        | Err e => (Err e, h)
        | Abort w => (Abort w, h)
        | Ok gamma =>
          match polynomials with
          | [] => (Abort "index out of range", h)
          | p0 :: others =>
            hbind (hlift (last_ ← index claimedValues (nbDigests - 1);
                          horner_down claimedValues gamma (nbDigests - 1) last_))
              (fun sumGammaiTimesEval =>
            hbind (make_slice (Z.to_nat largestPoly) (Cardinality domain))
              (fun sumGammaiTimesPol =>
            hbind (copy_slice sumGammaiTimesPol p0) (fun _ h1 =>
            hbind (hlift (sum_gamma_pols (load h1 sumGammaiTimesPol)
                            (map (load h1) others) gamma gamma)) (fun sum h2 =>
            let h3 := <[s_arr sumGammaiTimesPol := list_inserts 0 sum
                          (backing h2 sumGammaiTimesPol)]> h2 in
            hbind (dividePolyByXminusA domain sumGammaiTimesPol sumGammaiTimesEval point)
              (fun hq h4 =>
            hbind (hlift (Commit numCpus (load h4 hq) srs [])) (fun hCommit =>
            hret {| bH := hCommit; bPoint := point; ClaimedValues := claimedValues |})
              h4) h3) h1))) h
          end
        end
      end.

(** ** ratios.go *)

(** *** Index bit reversal ([math/bits]) *)

(** [bits.Reverse64] on a [w]-bit word. *)
Fixpoint reverse_bits (w : nat) (x : Z) : Z :=
  match w with
  | O => 0
  | Datatypes.S w' => (x mod 2) * 2 ^ Z.of_nat w' + reverse_bits w' (x / 2)
  end%Z.

Definition Reverse64 (x : Z) : Z := reverse_bits 64 (x mod 2 ^ 64).

Fixpoint trailing_zeros (w : nat) (x : Z) : Z :=
  match w with
  | O => 0
  | Datatypes.S w' => if Z.odd x then 0 else 1 + trailing_zeros w' (x / 2)
  end%Z.

(** [bits.TrailingZeros(uint(n))]; 64 for 0. *)
Definition TrailingZeros (x : Z) : Z := trailing_zeros 64 (x mod 2 ^ 64).

(** [bits.Reverse64(uint64(i)) >> nn] with [nn = 64 - bits.TrailingZeros(uint(n))];
    a shift by 64 or more leaves 0, in Go as with [Z.shiftr] on a 64-bit
    value. *)
Definition iRev_of (n i : nat) : nat :=
  let nn := (64 - TrailingZeros (Z.of_nat n))%Z in
  Z.to_nat (Z.shiftr (Reverse64 (Z.of_nat i)) nn).

(** *** Polynomials with a basis and a layout, and the FFT *)

Inductive Basis : Type := Canonical | Lagrange | LagrangeCoset.
Inductive Layout : Type := Regular | BitReverse.

Record Form : Type := {
  fBasis : Basis;
  fLayout : Layout;
}.

(** Modelled from the spec: the type [Polynomial] of package [iop] is absent; it
    is an ordered sequence of coefficients tagged with a basis and a
    layout. *)
Record Polynomial : Type := {
  coefficients : list F;
  form : Form;
}.

Definition NewPolynomial (coeffs : list F) (f : Form) : Polynomial :=
  {| coefficients := coeffs; form := f |}.

Fixpoint fsum (f : nat -> F) (n : nat) : F :=
  match n with
  | O => fzero
  | Datatypes.S n' => fsum f n' ⊕ f n'
  end.

(** Modelled from the spec: [fft.BitReverse] is absent; it permutes a vector of
    power-of-two length by reversing the bits of the indices. *)
Definition bit_reverse (v : list F) : list F :=
  map (fun i => v !!! iRev_of (length v) i) (seq 0 (length v)).

(** Modelled from the spec: the transforms of [fft.Domain] are absent.  The
    forward transform evaluates the polynomial of the given coefficients
    on the domain (shifted by the coset generator when asked), the
    inverse transform interpolates.  A decimation in frequency ([DIF])
    reads its input in regular order and leaves its output bit-reversed;
    a decimation in time ([DIT]) reads a bit-reversed input and leaves a
    regular output. *)
Inductive Decimation : Type := DIT | DIF.

Definition evaluate_on (shift w : F) (n : nat) (c : list F) : list F :=
  map (fun j => Eval c (shift ⊗ fpow w j)) (seq 0 n).

Definition interpolate_on (shiftInv wInv nInv : F) (n : nat) (v : list F) : list F :=
  map (fun i =>
         fpow shiftInv i ⊗ (nInv ⊗ fsum (fun j => (v !!! j) ⊗ fpow wInv (i * j)) n))
      (seq 0 n).

Definition FFT (d : Domain) (a : list F) (dec : Decimation) (coset : bool) : list F :=
  let shift := if coset then FrMultiplicativeGen d else fone in
  match dec with
  | DIF => bit_reverse (evaluate_on shift (Generator d) (Cardinality d) a)
  | DIT => evaluate_on shift (Generator d) (Cardinality d) (bit_reverse a)
  end.

Definition FFTInverse (d : Domain) (a : list F) (dec : Decimation) (coset : bool) : list F :=
  let shiftInv := if coset then FrMultiplicativeGenInv d else fone in
  match dec with
  | DIF => bit_reverse
             (interpolate_on shiftInv (GeneratorInv d) (CardinalityInv d) (Cardinality d) a)
  | DIT => interpolate_on shiftInv (GeneratorInv d) (CardinalityInv d) (Cardinality d)
             (bit_reverse a)
  end.

(** Modelled from the spec: [ToLagrange] of package [iop] is absent; it converts
    a polynomial to the Lagrange basis over the domain, whatever form it
    is in, and leaves a polynomial in Lagrange form as it is. *)
Definition ToLagrange (d : Domain) (p : Polynomial) : Polynomial :=
  let c := coefficients p in
  match fBasis (form p), fLayout (form p) with
  | Canonical, Regular =>
    {| coefficients := FFT d c DIF false;
       form := {| fBasis := Lagrange; fLayout := BitReverse |} |}
  | Canonical, BitReverse =>
    {| coefficients := FFT d c DIT false;
       form := {| fBasis := Lagrange; fLayout := Regular |} |}
  | Lagrange, _ => p
  | LagrangeCoset, Regular =>
    {| coefficients := FFT d (FFTInverse d c DIF true) DIT false;
       form := {| fBasis := Lagrange; fLayout := Regular |} |}
  | LagrangeCoset, BitReverse =>
    {| coefficients := FFT d (FFTInverse d c DIT true) DIF false;
       form := {| fBasis := Lagrange; fLayout := BitReverse |} |}
  end.

(** The values of a polynomial on the domain, [p(ω^0), ..., p(ω^(n-1))],
    read off its coefficients according to its form. *)
Definition canonical_of (d : Domain) (p : Polynomial) : list F :=
  let c := match fLayout (form p) with
           | Regular => coefficients p
           | BitReverse => bit_reverse (coefficients p)
           end in
  match fBasis (form p) with
  | Canonical => c
  | Lagrange =>
    interpolate_on fone (GeneratorInv d) (CardinalityInv d) (Cardinality d) c
  | LagrangeCoset =>
    interpolate_on (FrMultiplicativeGenInv d) (GeneratorInv d) (CardinalityInv d)
      (Cardinality d) c
  end.

Definition values_on (d : Domain) (p : Polynomial) : list F :=
  match fBasis (form p), fLayout (form p) with
  | Lagrange, Regular => coefficients p
  | Lagrange, BitReverse => bit_reverse (coefficients p)
  | _, _ => evaluate_on fone (Generator d) (Cardinality d) (canonical_of d p)
  end.

(** A well-formed domain: [2^k] points, the powers of a primitive root of
    unity, with the inverses the domain stores. *)
Definition Domain_ok (d : Domain) : Prop :=
  (exists k, k <= 63 /\ Cardinality d = 2 ^ k) /\
  fpow (Generator d) (Cardinality d) = fone /\
  (forall j, 0 < j < Cardinality d -> fpow (Generator d) j <> fone) /\
  Generator d ⊗ GeneratorInv d = fone /\
  CardinalityInv d ⊗ fsum (fun _ => fone) (Cardinality d) = fone /\
  FrMultiplicativeGen d ⊗ FrMultiplicativeGenInv d = fone.
(** Products, for the statements about the builders: the product of a
    list, the product of the first [i] terms of a sequence, and the value
    at [ω^i] of the polynomial a pointer names. *)
Definition fprod (xs : list F) : F := fold_right fmul fone xs.

Fixpoint prefix_prod (f : nat -> F) (i : nat) : F :=
  match i with
  | O => fone
  | Datatypes.S i' => prefix_prod f i' ⊗ f i'
  end.

Definition value_at (d : Domain) (st : list Polynomial) (ptr i : nat) : F :=
  match st !! ptr with
  | Some P => values_on d P !!! i
  | None => fzero
  end.

(** What the conversion loops of the builders keep: every polynomial of
    the store is the one that was there, or its conversion to Lagrange
    form. *)
Definition lagranged (d : Domain) (st st' : list Polynomial) : Prop :=
  length st' = length st /\
  forall q P, st !! q = Some P ->
    st' !! q = Some P \/ st' !! q = Some (ToLagrange d P).

(** What a builder leaves in the store: the polynomials the pointers
    [ptrs] name are converted to Lagrange form, the others are as they
    were. *)
Definition converted_at (d : Domain) (ptrs : list nat) (st st' : list Polynomial) : Prop :=
  length st' = length st /\
  (forall q, q ∉ ptrs -> st' !! q = st !! q) /\
  (forall q P, q ∈ ptrs -> st !! q = Some P -> st' !! q = Some (ToLagrange d P)).

(** *** The polynomials the builders are given

    The builders take pointers to polynomials and convert the polynomials
    in place; the store holds the polynomials the pointers name. *)

Abbreviation PStore := (list Polynomial).

Definition deref (st : PStore) (ptr : nat) : outcome Polynomial :=
  match st !! ptr with
  | Some p => Ok p
  | None => Abort "nil pointer dereference"
  end.

(** [checkSize]. *)
Definition checkSize (st : PStore) (pols : list (list nat)) : outcome unit :=
  let m := length pols in
  l0 ← index pols 0;
  p00 ← index l0 0;
  P00 ← deref st p00;
  let n := length (coefficients P00) in
  for_range 0 m
    (fun i _ =>
       for_range 0 (length pols)
         (fun j _ =>
            li ← index pols i;
            pij ← index li j;
            Pij ← deref st pij;
            if negb (length (coefficients Pij) =? n) then Err ErrInconsistentSize
            else Ok tt)
         tt)
    tt.

(** [buildDomain]; [newDomain] is [fft.NewDomain]. *)
Definition buildDomain (newDomain : nat -> Domain) (n : nat) (domain : option Domain)
  : outcome Domain :=
  if negb (Z.land (Z.of_nat n) (Z.of_nat n - 1) =? 0)%Z then Err ErrSizeNotPowerOfTwo
  else
    let domain := match domain with Some d => d | None => newDomain n end in
    if negb (Cardinality domain =? n) then Err ErrInconsistentSizeDomain
    else Ok domain.

(** Modelled from the spec: [fr.BatchInvert] is absent; it inverts every
    element, and leaves a zero where there is one. *)
Definition BatchInvert (a : list F) : list F :=
  map (fun x => if feqb x fzero then fzero else finv x) a.

(** [putInExpectedFormFromLagrangeRegular]. *)
Definition putInExpectedFormFromLagrangeRegular (p : Polynomial) (domain : Domain)
    (expectedForm : Form) : Polynomial :=
  let c := coefficients p in
  match fBasis expectedForm with
  | Canonical =>
    let c1 := FFTInverse domain c DIF false in
    {| coefficients := match fLayout expectedForm with
                       | Regular => bit_reverse c1
                       | BitReverse => c1
                       end;
       form := expectedForm |}
  | LagrangeCoset =>
    let c1 := FFTInverse domain c DIF false in
    let c2 := FFT domain c1 DIT true in
    {| coefficients := match fLayout expectedForm with
                       | BitReverse => bit_reverse c2
                       | Regular => c2
                       end;
       form := expectedForm |}
  | Lagrange =>
    {| coefficients := match fLayout expectedForm with
                       | BitReverse => bit_reverse c
                       | Regular => c
                       end;
       form := expectedForm |}
  end.

(** [p.ToLagrange(domain)] on each of the polynomials pointed to, in
    order. *)
Fixpoint to_lagrange_all (d : Domain) (ptrs : list nat) (st : PStore) : outcome PStore :=
  match ptrs with
  | [] => Ok st
  | ptr :: rest =>
    p ← deref st ptr;
    to_lagrange_all d rest (<[ptr := ToLagrange d p]> st)
  end.

(** The coefficient of [p] that holds its value at [ω^i]. *)
Definition coeff_at (p : Polynomial) (n i : nat) : outcome F :=
  match fLayout (form p) with
  | BitReverse => index (coefficients p) (iRev_of n i)
  | Regular => index (coefficients p) i
  end.

(** The inner loop of [BuildRatioShuffledVectors] over [j], at step [i]:
    [(b, d)] runs through the two products. *)
Definition shuffled_step (st : PStore) (numerator denominator : list nat) (beta : F)
    (n i : nat) : outcome (F * F) :=
  for_range 0 (length numerator)
    (fun j '(b, d) =>
       pn ← index numerator j;
       Pn ← deref st pn;
       cn ← coeff_at Pn n i;
       let a := beta ⊖ cn in
       let b := b ⊗ a in
       pd ← index denominator j;
       Pd ← deref st pd;
       cd ← coeff_at Pd n i;
       let c := beta ⊖ cd in
       let d := d ⊗ c in
       Ok (b, d))
    (fone, fone).

(** [for i := 1; i < n; i++ { coeffs[i].Mul(&coeffs[i], &t[i]) }] *)
Definition mul_pointwise_from1 (coeffs t : list F) : outcome (list F) :=
  for_range 1 (length coeffs - 1)
    (fun i cs => c ← index cs i; ti ← index t i; assign cs i (c ⊗ ti))
    coeffs.

(** [make([]fr.Element, n)] followed by [v[0].SetOne()]. *)
Definition one_then_zeros (n : nat) : outcome (list F) :=
  match n with
  | O => Abort "index out of range"
  | Datatypes.S k => Ok (fone :: replicate k fzero)
  end.

(** [BuildRatioShuffledVectors]. *)
Definition BuildRatioShuffledVectors (newDomain : nat -> Domain)
    (numerator denominator : list nat) (beta : F) (expectedForm : Form)
    (domain : option Domain) (st : PStore) : outcome (Polynomial * PStore) :=
  if negb (length numerator =? length denominator) then Err ErrNumberPolynomials
  else
    let nbPolynomials := length numerator in
    _ ← checkSize st [numerator; denominator];
    p0 ← index numerator 0;
    P0 ← deref st p0;
    let n := length (coefficients P0) in
    domain ← buildDomain newDomain n domain;
    st ← for_range 0 nbPolynomials
           (fun i st =>
              pn ← index numerator i;
              Pn ← deref st pn;
              let st := <[pn := ToLagrange domain Pn]> st in
              pd ← index denominator i;
              Pd ← deref st pd;
              Ok (<[pd := ToLagrange domain Pd]> st))
           st;
    coeffs ← one_then_zeros n;
    t ← one_then_zeros n;
    '(coeffs, t) ←
      for_range 0 (n - 1)
        (fun i '(coeffs, t) =>
           '(b, d) ← shuffled_step st numerator denominator beta n i;
           ci ← index coeffs i;
           coeffs ← assign coeffs (Datatypes.S i) (ci ⊗ b);
           ti ← index t i;
           t ← assign t (Datatypes.S i) (ti ⊗ d);
           Ok (coeffs, t))
        (coeffs, t);
    let t := BatchInvert t in
    coeffs ← mul_pointwise_from1 coeffs t;
    let res := NewPolynomial coeffs expectedForm in
    Ok (putInExpectedFormFromLagrangeRegular res domain expectedForm, st).

(** [getSupportIdentityPermutation]: the identity support
    [1, ω, .., ω^(s-1), g, gω, .., gω^(s-1), g², ..] over [nbCopies]
    cosets.  The cosets are filled by goroutines that write disjoint
    ranges and read the first one only; they are run in order here. *)
Definition getSupportIdentityPermutation (nbCopies : nat) (domain : Domain)
  : outcome (list F) :=
  let sizePoly := Cardinality domain in
  let res := replicate (nbCopies * sizePoly) fzero in
  tw0 ← index (Twiddles domain) 0;
  let res := list_inserts 0 (take (length res) tw0) res in
  let start := (Z.of_nat sizePoly / 2 - 1)%Z in
  let stop := (Z.of_nat sizePoly - 1)%Z in
  res ←
    (if (start <? 0)%Z && (start <? stop)%Z then Abort "index out of range"
     else for_range (Z.to_nat start) (Z.to_nat (stop - start))
            (fun i res => ri ← index res i; assign res (Datatypes.S i) (ri ⊗ Generator domain))
            res);
  if nbCopies <=? 1 then Ok res
  else
    for_range 1 (nbCopies - 1)
      (fun i res =>
         coset ←
           (if i =? 1 then Ok (FrMultiplicativeGen domain)
            else if i <? length (CosetTable domain) then index (CosetTable domain) i
            else Ok (fpow (FrMultiplicativeGen domain) i));
         for_range 0 sizePoly
           (fun j res => rj ← index res j; assign res (i * sizePoly + j)%nat (rj ⊗ coset))
           res)
      res.

(** The loop over the entries at step [i] of [BuildRatioCopyConstraint]:
    [(b, d)] runs through the two products. *)
Definition copy_step (st : PStore) (entries : list nat) (permutation : list Z)
    (beta gamma : F) (evaluationIDSmallDomain : list F) (n i : nat) : outcome (F * F) :=
  for_range 0 (length entries)
    (fun j '(b, d) =>
       pj ← index entries j;
       P ← deref st pj;
       e1 ← index evaluationIDSmallDomain (i + j * n)%nat;
       cf ← coeff_at P n i;
       let a := beta ⊗ e1 ⊕ gamma ⊕ cf in
       let b := b ⊗ a in
       s ← index permutation (i + j * n)%nat;
       e2 ← indexZ evaluationIDSmallDomain s;
       let c := beta ⊗ e2 ⊕ gamma ⊕ cf in
       let d := d ⊗ c in
       Ok (b, d))
    (fone, fone).

(** [for i := 2; i < n; i++ { v[i].Mul(&v[i], &v[i-1]) }] *)
Definition prefix_products (v : list F) : outcome (list F) :=
  for_range 2 (length v - 2)
    (fun i v => x ← index v i; y ← index v (i - 1); assign v i (x ⊗ y))
    v.

(** [BuildRatioCopyConstraint].

    Modelled from the spec: [parallel.Execute] is absent; it runs the work over
    the index range in shards whose order does not matter.  The two uses
    write, at each index, a slot no other index reads or writes, and the
    batch inversion is elementwise; one shard over the whole range is run
    here. *)
Definition BuildRatioCopyConstraint (newDomain : nat -> Domain)
    (entries : list nat) (permutation : list Z) (beta gamma : F) (expectedForm : Form)
    (domain : option Domain) (st : PStore) : outcome (Polynomial * PStore) :=
  let nbPolynomials := length entries in
  _ ← checkSize st [entries];
  p0 ← index entries 0;
  P0 ← deref st p0;
  let n := length (coefficients P0) in
  domain ← buildDomain newDomain n domain;
  st ← to_lagrange_all domain entries st;
  evaluationIDSmallDomain ← getSupportIdentityPermutation nbPolynomials domain;
  coeffs ← one_then_zeros n;
  t ← one_then_zeros n;
  '(coeffs, t) ←
    for_range 0 (n - 1)
      (fun i '(coeffs, t) =>
         '(b, d) ← copy_step st entries permutation beta gamma evaluationIDSmallDomain n i;
         coeffs ← assign coeffs (Datatypes.S i) b;
         t ← assign t (Datatypes.S i) d;
         Ok (coeffs, t))
      (coeffs, t);
  coeffs ← prefix_products coeffs;
  t ← prefix_products t;
  let tInv := BatchInvert (drop 1 t) in
  coeffs ←
    for_range 1 (n - 1)
      (fun i cs => c ← index cs i; ti ← index tInv (i - 1); assign cs i (c ⊗ ti))
      coeffs;
  let res := NewPolynomial coeffs expectedForm in
  Ok (putInExpectedFormFromLagrangeRegular res domain expectedForm, st).

End Model.

Abbreviation PStore := (list Polynomial).

(** ** fri_test.go

    The index conversion of the FRI tests (package [fri] of bn254). *)

(** Go's [int] on a 64-bit target: the value a result wraps to. *)
Definition wrap_int (z : Z) : Z := ((z + 2 ^ 63) mod 2 ^ 64 - 2 ^ 63)%Z.

(** [convert]; [%] and [/] truncate toward zero. *)
Definition convert (_p _n : Z) : Z * Z :=
  if (Z.rem _p 2 =? 0)%Z then
    (Z.quot _p 2, wrap_int (Z.quot _p 2 + Z.quot _n 2))
  else
    let l := Z.quot (wrap_int (wrap_int (_n - 1) - _p)) 2 in
    (wrap_int (wrap_int (_n - 1) - l),
     wrap_int (wrap_int (wrap_int (_n - 1) - l) - Z.quot _n 2)).

(** ** What the interfaces are assumed to satisfy *)

(** The scalars form a field, and [feqb] decides equality. *)
Class FieldLaws `{FieldOps} : Prop := {
  F_field : field_theory fzero fone fadd fmul fsub fopp
              (fun x y => x ⊗ finv y) finv eq;
  feqb_eq : forall x y : F, feqb x y = true <-> x = y;
}.

(** A group is a module over the scalars, with a decidable equality. *)
Class ModuleLaws `{FieldOps} (G : Type) `{!FModule G} : Prop := {
  gadd_assoc : forall P Q R : G, P ⊞ (Q ⊞ R) = (P ⊞ Q) ⊞ R;
  gadd_comm : forall P Q : G, P ⊞ Q = Q ⊞ P;
  gadd_zero_l : forall P : G, gzero ⊞ P = P;
  gadd_neg : forall P : G, P ⊞ gneg P = gzero;
  smul_add_l : forall (a b : F) (P : G), (a ⊕ b) • P = a • P ⊞ b • P;
  smul_add_r : forall (a : F) (P Q : G), a • (P ⊞ Q) = a • P ⊞ a • Q;
  smul_mul : forall (a b : F) (P : G), (a ⊗ b) • P = a • (b • P);
  smul_one : forall P : G, fone • P = P;
  geqb_eq : forall P Q : G, geqb P Q = true <-> P = Q;
}.

(** The pairing is bilinear. *)
Class CurveLaws `{FieldOps} `{!CurveOps} : Prop := {
  G1_laws :: ModuleLaws G1;
  G2_laws :: ModuleLaws G2;
  GT_laws :: ModuleLaws GT;
  pairing_add_l : forall P P' Q, pairing (P ⊞ P') Q = pairing P Q ⊞ pairing P' Q;
  pairing_add_r : forall P Q Q', pairing P (Q ⊞ Q') = pairing P Q ⊞ pairing P Q';
  pairing_smul_l : forall a P Q, pairing (a • P) Q = a • pairing P Q;
  pairing_smul_r : forall a P Q, pairing P (a • Q) = a • pairing P Q;
}.

(** ** A small instance: the field of five elements

    The curve groups are instantiated by the additive group of the field
    itself (a point is its discrete logarithm), and the pairing by the
    product. *)

Inductive F5 : Type := f5_0 | f5_1 | f5_2 | f5_3 | f5_4.

Definition F5_to_Z (x : F5) : Z :=
  match x with f5_0 => 0 | f5_1 => 1 | f5_2 => 2 | f5_3 => 3 | f5_4 => 4 end.

Definition F5_of_Z (z : Z) : F5 :=
  match (z mod 5)%Z with
  | 0%Z => f5_0 | 1%Z => f5_1 | 2%Z => f5_2 | 3%Z => f5_3 | _ => f5_4
  end.

Definition F5_add (x y : F5) : F5 := F5_of_Z (F5_to_Z x + F5_to_Z y).
Definition F5_mul (x y : F5) : F5 := F5_of_Z (F5_to_Z x * F5_to_Z y).
Definition F5_opp (x : F5) : F5 := F5_of_Z (- F5_to_Z x).
Definition F5_sub (x y : F5) : F5 := F5_add x (F5_opp y).
Definition F5_inv (x : F5) : F5 := F5_mul x (F5_mul x x).
Definition F5_eqb (x y : F5) : bool := (F5_to_Z x =? F5_to_Z y)%Z.

Definition F5_ops : FieldOps :=
  {| F := F5; fzero := f5_0; fone := f5_1; fadd := F5_add; fmul := F5_mul;
     fsub := F5_sub; fopp := F5_opp; finv := F5_inv; feqb := F5_eqb |}.

Definition F5_module : @FModule F5_ops F5 :=
  @Build_FModule F5_ops F5 f5_0 F5_add F5_opp F5_mul F5_eqb.

Definition F5_curve : @CurveOps F5_ops :=
  @Build_CurveOps F5_ops F5 F5 F5 F5_module F5_module F5_module f5_1 f5_1 F5_mul.

(** A transcript over a toy hash: the hash is either sound or one whose
    [Write] fails; the challenge is the sum of the bytes bound. *)
Definition F5_byte (x : F5) : Byte.byte :=
  match x with
  | f5_0 => Byte.x00 | f5_1 => Byte.x01 | f5_2 => Byte.x02
  | f5_3 => Byte.x03 | f5_4 => Byte.x04
  end.

Definition F5_of_bytes (bs : list Byte.byte) : F5 :=
  F5_of_Z (fold_right (fun b acc => Z.of_N (Byte.to_N b) + acc)%Z 0%Z bs).

Inductive toy_hash : Type := SoundHash | BrokenHash.

Definition F5_transcript : @TranscriptOps F5_ops F5_curve :=
  @Build_TranscriptOps F5_ops F5_curve
    toy_hash
    (toy_hash * list Byte.byte)
    (fun hf _ => (hf, []))
    (fun t _ bs => Ok (fst t, snd t ++ bs))
    (fun t _ => match fst t with
                | SoundHash => Ok (snd t)
                | BrokenHash => Err (ErrPrimitive "hash: write failed")
                end)
    (fun x => [F5_byte x])
    (fun x => [F5_byte x])
    F5_of_bytes.

(** ** Concrete inputs over the five-element field *)

(** The domain of two points ([ω = 4 = -1]) and the domain of four points
    ([ω = 2]); the coset generator is [2]. *)
Definition F5_domain2 : @Domain F5_ops :=
  @Build_Domain F5_ops 2 f5_3 f5_4 f5_4 f5_2 f5_3 [[f5_1]] [].

Definition F5_domain4 : @Domain F5_ops :=
  @Build_Domain F5_ops 4 f5_4 f5_2 f5_3 f5_2 f5_3 [[f5_1; f5_2]] [].

(** The SRS of four points for the secret [3]. *)
Definition F5_srs : @SRS F5_ops F5_curve :=
  @Build_SRS F5_ops F5_curve [f5_1; f5_3; f5_4; f5_2] (f5_1, f5_3).

(** A heap with one array, [1 + 2x + 3x^2] and a slice over all of it, a
    slice over its middle coefficient only, and a slice over its last two
    coefficients. *)
Definition F5_heap : list (list F5) := [[f5_1; f5_2; f5_3]].
Definition F5_poly : slice := {| s_arr := 0; s_off := 0; s_len := 3 |}.
Definition F5_const : slice := {| s_arr := 0; s_off := 1; s_len := 1 |}.
Definition F5_tail : slice := {| s_arr := 0; s_off := 1; s_len := 2 |}.

Definition F5_form (b : Basis) (l : Layout) : Form := {| fBasis := b; fLayout := l |}.

Definition F5_polynomial (c : list F5) (f : Form) : @Polynomial F5_ops :=
  @Build_Polynomial F5_ops c f.

(** A store for the ratio builders on the domain of four points: two
    numerators (pointers 0 and 1) and two denominators (pointers 2 and 3),
    in four different forms; with [β = 4] no factor [β - denominator] is
    zero. *)
Definition F5_store4 : list (@Polynomial F5_ops) :=
  [ F5_polynomial [f5_0; f5_1; f5_2; f5_3] (F5_form Lagrange Regular);
    F5_polynomial [f5_1; f5_1; f5_2; f5_0] (F5_form Canonical Regular);
    F5_polynomial [f5_0; f5_2; f5_1; f5_3] (F5_form Lagrange BitReverse);
    F5_polynomial [f5_2; f5_1; f5_2; f5_0] (F5_form LagrangeCoset BitReverse) ].

(** Stores on the domain of two points: one entry whose factor at the
    first step is [1 + 1 + 1] (with [β = γ = 1]), one whose factor is
    [1 + 1 + 3 = 0], and polynomials of different lengths. *)
Definition F5_store_nonzero : list (@Polynomial F5_ops) :=
  [ F5_polynomial [f5_1; f5_0] (F5_form Lagrange Regular) ].

Definition F5_store_zero : list (@Polynomial F5_ops) :=
  [ F5_polynomial [f5_3; f5_0] (F5_form Lagrange Regular) ].

Definition F5_store_sizes : list (@Polynomial F5_ops) :=
  [ F5_polynomial [f5_1; f5_2] (F5_form Lagrange Regular);
    F5_polynomial [f5_2; f5_1] (F5_form Lagrange Regular);
    F5_polynomial [f5_1; f5_2; f5_3; f5_0] (F5_form Lagrange Regular) ].

(** The domain of one point. *)
Definition F5_domain1 : @Domain F5_ops :=
  @Build_Domain F5_ops 1 f5_1 f5_1 f5_1 f5_2 f5_3 [] [].

(** A heap whose array has room for the four points of the domain: the
    polynomial [1 + 2x + 3x^2] and a zero. *)
Definition F5_heap_padded : list (list F5) := [[f5_1; f5_2; f5_3; f5_0]].

(** Stores of polynomials of one and of three coefficients. *)
Definition F5_store_one : list (@Polynomial F5_ops) :=
  [ F5_polynomial [f5_2] (F5_form Lagrange Regular) ].


(** A batch opening proof of two claimed values, to be folded. *)
Definition F5_batch2 : @BatchOpeningProof F5_ops F5_curve :=
  @Build_BatchOpeningProof F5_ops F5_curve f5_1 f5_2 [f5_2; f5_3].

(** The opening proofs of [1 + 2x + 3x^2] at [2] and of [2 + 3x] at [4],
    for the SRS above. *)
Definition F5_proof_poly : @OpeningProof F5_ops F5_curve :=
  @Build_OpeningProof F5_ops F5_curve f5_2 f5_2 f5_2.

Definition F5_proof_tail : @OpeningProof F5_ops F5_curve :=
  @Build_OpeningProof F5_ops F5_curve f5_3 f5_4 f5_4.

(* ===================================================================== *)
(** * Part II: properties                                                 *)
(* ===================================================================== *)

(** ** The five-element instance satisfies the laws *)

Lemma F5_field_laws : @FieldLaws F5_ops.
Proof.
  split.
  - constructor; [constructor | | | ]; simpl;
      try (intros [] [] []; reflexivity);
      try (intros [] []; reflexivity);
      try (intros []; reflexivity).
    + discriminate.
    + intros [] Hp; try reflexivity. now destruct Hp.
  - intros [] []; simpl; split; intros Hxy; try reflexivity; discriminate.
Qed.

Lemma F5_module_laws : @ModuleLaws F5_ops F5 F5_module.
Proof.
  split; simpl;
    try (intros [] [] []; reflexivity);
    try (intros [] []; reflexivity);
    try (intros []; reflexivity).
  intros [] []; simpl; split; intros Hxy; try reflexivity; discriminate.
Qed.

Lemma F5_curve_laws : @CurveLaws F5_ops F5_curve.
Proof.
  split; try exact F5_module_laws; simpl;
    intros [] [] []; reflexivity.
Qed.

(** ** Scalars, polynomials and sums *)

Section FieldFacts.
Context `{FO : FieldOps} {FL : FieldLaws}.
Local Open Scope fr_scope.

Add Field Ffield : F_field.

Lemma fpow_add (x : F) (a b : nat) : fpow x (a + b) = fpow x a ⊗ fpow x b.
Proof. induction a as [|a IH]; simpl; [ring | rewrite IH; ring]. Qed.

Lemma fpow_mul (x : F) (a b : nat) : fpow x (a * b) = fpow (fpow x a) b.
Proof.
  induction b as [|b IH]; simpl.
  - now rewrite Nat.mul_0_r.
  - rewrite Nat.mul_succ_r, Nat.add_comm, fpow_add, IH. reflexivity.
Qed.

Lemma fpow_one (k : nat) : fpow fone k = fone.
Proof. induction k as [|k IH]; simpl; [reflexivity | rewrite IH; ring]. Qed.

Lemma fpow_mul_base (x y : F) (k : nat) : fpow (x ⊗ y) k = fpow x k ⊗ fpow y k.
Proof. induction k as [|k IH]; simpl; [ring | rewrite IH; ring]. Qed.

Lemma Eval_app (p q : list F) (x : F) :
  Eval (p ++ q) x = Eval p x ⊕ fpow x (length p) ⊗ Eval q x.
Proof. induction p as [|c p IH]; simpl; [ring | rewrite IH; ring]. Qed.

End FieldFacts.

(** ** Modules and multi-scalar products *)

Section ModuleFacts.
Context `{FO : FieldOps} {FL : FieldLaws}.
Context {G : Type} `{!FModule G} {ML : ModuleLaws G}.
Local Open Scope fr_scope.

Add Field Ffield_m : F_field.

Lemma gadd_zero_r (P : G) : P ⊞ gzero = P.
Proof. rewrite gadd_comm. apply gadd_zero_l. Qed.

Lemma gadd_cancel_l (P Q R : G) : P ⊞ Q = P ⊞ R -> Q = R.
Proof.
  intros Heq.
  rewrite <- (gadd_zero_l Q), <- (gadd_zero_l R), <- (gadd_neg P).
  rewrite (gadd_comm P (gneg P)), <- !gadd_assoc. now rewrite Heq.
Qed.

Lemma smul_zero_l (P : G) : fzero • P = gzero.
Proof.
  apply (gadd_cancel_l (fzero • P)).
  rewrite <- smul_add_l, gadd_zero_r. f_equal. ring.
Qed.

Lemma smul_opp (a : F) (P : G) : fopp a • P = gneg (a • P).
Proof.
  apply (gadd_cancel_l (a • P)).
  rewrite <- smul_add_l, gadd_neg.
  replace (a ⊕ fopp a) with fzero by ring. apply smul_zero_l.
Qed.

Lemma msm_nil_r (points : list G) : msm points [] = gzero.
Proof. now destruct points. Qed.

Lemma msm_take_drop (m : nat) (points : list G) (scalars : list F) :
  msm points scalars =
  msm (take m points) (take m scalars) ⊞ msm (drop m points) (drop m scalars).
Proof.
  revert m scalars.
  induction points as [|P points IH]; intros m scalars.
  - rewrite take_nil, drop_nil. simpl. now rewrite gadd_zero_l.
  - destruct scalars as [|s scalars].
    + rewrite take_nil, drop_nil, !msm_nil_r. now rewrite gadd_zero_l.
    + destruct m as [|m]; simpl.
      * now rewrite gadd_zero_l.
      * rewrite (IH m scalars) at 1. now rewrite gadd_assoc.
Qed.

(** The product of the points [x^i • g] by the coefficients of a
    polynomial is the value of the polynomial at [x], times [g]. *)
Lemma msm_powers (g : G) (x : F) (c : list F) (k : nat) (pts : list G) :
  (forall i, i < length c -> pts !! i = Some (fpow x (k + i) • g)) ->
  msm pts c = (fpow x k ⊗ Eval c x) • g.
Proof.
  revert k pts.
  induction c as [|a c IH]; intros k pts Hpts; simpl.
  - destruct pts; simpl; replace (fpow x k ⊗ fzero) with fzero by ring;
      now rewrite smul_zero_l.
  - destruct pts as [|P pts].
    + specialize (Hpts 0 ltac:(simpl; lia)). discriminate.
    + pose proof (Hpts 0 ltac:(simpl; lia)) as H0. simpl in H0.
      injection H0 as ->. rewrite Nat.add_0_r. simpl.
      rewrite (IH (S k) pts).
      * rewrite <- smul_mul, <- smul_add_l. f_equal. simpl. ring.
      * intros i Hi. specialize (Hpts (S i) ltac:(simpl; lia)). simpl in Hpts.
        rewrite Hpts. do 2 f_equal. simpl. now rewrite Nat.add_succ_r.
Qed.

End ModuleFacts.

(** ** Commit *)

Section CommitFacts.
Context `{FO : FieldOps} {FL : FieldLaws} `{CO : !CurveOps} {CL : CurveLaws}.
Local Open Scope fr_scope.

Lemma MultiExp_same_length {G : Type} `{!FModule G} (points : list G) (scalars : list F) :
  length points = length scalars -> MultiExp points scalars = Ok (msm points scalars).
Proof. intros Hlen. unfold MultiExp. now rewrite Hlen, Nat.eqb_refl. Qed.

(** Whatever the semaphore argument and the number of CPUs, an accepted
    polynomial is committed to the multi-scalar product of the first
    [len(p)] points of the SRS by its coefficients. *)
Lemma Commit_msm (numCpus : nat) (p : list F) (srs : SRS) (opt : list unit) :
  1 <= length p <= length (srsG1 srs) ->
  Commit numCpus p srs opt = Ok (msm (take (length p) (srsG1 srs)) p).
Proof.
  intros [Hlo Hhi]. unfold Commit.
  replace (length p =? 0) with false by (symmetry; apply Nat.eqb_neq; lia).
  replace (length (srsG1 srs) <? length p) with false
    by (symmetry; apply Nat.ltb_ge; lia).
  simpl.
  assert (Hfull : MultiExp (take (length p) (srsG1 srs)) p
                  = Ok (msm (take (length p) (srsG1 srs)) p)).
  { apply MultiExp_same_length. rewrite length_take. lia. }
  destruct opt as [|o opt]; [|exact Hfull].
  destruct (16 <? numCpus); [|exact Hfull].
  set (m := length p / 2).
  assert (Hm : m <= length p) by (apply Nat.Div0.div_le_upper_bound; lia).
  rewrite (MultiExp_same_length (drop m _) (drop m p))
    by (rewrite !length_drop, length_take; lia).
  rewrite (MultiExp_same_length (take m _) (take m p))
    by (rewrite !length_take; lia).
  simpl. f_equal.
  rewrite (msm_take_drop m (take (length p) (srsG1 srs)) p).
  rewrite take_take. now replace (m `min` length p) with m by lia.
Qed.

(** C3: for a polynomial [Commit] accepts, the split path of [Commit]
    (no semaphore, more than 16 CPUs) adds the multi-scalar products
    [c1] and [c2] of the two halves, and what it returns is the group
    element [c] of the single multi-scalar product, which the unsplit
    path returns. *)
Theorem Commit_split_eq_unsplit (nSplit nSingle : nat) (p : list F) (srs : SRS) :
  1 <= length p <= length (srsG1 srs) ->
  16 < nSplit ->
  nSingle <= 16 ->
  exists c1 c2 c : G1,
    MultiExp (take (length p / 2) (srsG1 srs)) (take (length p / 2) p) = Ok c1 /\
    MultiExp (drop (length p / 2) (take (length p) (srsG1 srs))) (drop (length p / 2) p)
      = Ok c2 /\
    Commit nSplit p srs [] = Ok (c1 ⊞ c2) /\
    MultiExp (take (length p) (srsG1 srs)) p = Ok c /\
    Commit nSingle p srs [] = Ok c /\
    c1 ⊞ c2 = c.
Proof.
  intros Hlen Hsplit Hsingle.
  set (m := length p / 2).
  assert (Hm : m <= length p) by (apply Nat.Div0.div_le_upper_bound; lia).
  exists (msm (take m (srsG1 srs)) (take m p)),
         (msm (drop m (take (length p) (srsG1 srs))) (drop m p)),
         (msm (take (length p) (srsG1 srs)) p).
  assert (H1 : MultiExp (take m (srsG1 srs)) (take m p)
               = Ok (msm (take m (srsG1 srs)) (take m p))).
  { apply MultiExp_same_length. rewrite !length_take. lia. }
  assert (H2 : MultiExp (drop m (take (length p) (srsG1 srs))) (drop m p)
               = Ok (msm (drop m (take (length p) (srsG1 srs))) (drop m p))).
  { apply MultiExp_same_length. rewrite !length_drop, length_take. lia. }
  assert (Hsum : msm (take m (srsG1 srs)) (take m p)
                 ⊞ msm (drop m (take (length p) (srsG1 srs))) (drop m p)
                 = msm (take (length p) (srsG1 srs)) p).
  { rewrite (msm_take_drop m (take (length p) (srsG1 srs)) p).
    rewrite take_take. now replace (m `min` length p) with m by lia. }
  split; [exact H1|]. split; [exact H2|]. split; [|split; [|split]].
  - unfold Commit.
    replace (length p =? 0) with false by (symmetry; apply Nat.eqb_neq; lia).
    replace (length (srsG1 srs) <? length p) with false
      by (symmetry; apply Nat.ltb_ge; lia).
    replace (16 <? nSplit) with true by (symmetry; apply Nat.ltb_lt; lia).
    cbn [orb]. fold m. rewrite H2. cbn [mbind outcome_bind obind].
    rewrite H1. reflexivity.
  - apply MultiExp_same_length. rewrite length_take. lia.
  - unfold Commit.
    replace (length p =? 0) with false by (symmetry; apply Nat.eqb_neq; lia).
    replace (length (srsG1 srs) <? length p) with false
      by (symmetry; apply Nat.ltb_ge; lia).
    replace (16 <? nSingle) with false by (symmetry; apply Nat.ltb_ge; lia).
    cbn [orb]. apply MultiExp_same_length. rewrite length_take. lia.
  - exact Hsum.
Qed.

End CommitFacts.

(** ** Synthetic division *)

Section DivisionFacts.
Context `{FO : FieldOps} {FL : FieldLaws}.
Local Open Scope fr_scope.

Add Field Ffield_d : F_field.

Lemma synthetic_snoc (a c x : F) (f : list F) :
  synthetic a c (f ++ [x]) =
  let '(c1, q) := synthetic a (x ⊕ c ⊗ a) f in (c1, q ++ [c]).
Proof.
  induction f as [|y f IH]; simpl; [reflexivity|].
  rewrite IH. now destruct (synthetic a (x ⊕ c ⊗ a) f).
Qed.

Lemma synthetic_app (a c : F) (f1 f2 : list F) :
  synthetic a c (f1 ++ f2) =
  let '(c2, q2) := synthetic a c f2 in
  let '(c1, q1) := synthetic a c2 f1 in (c1, q1 ++ q2).
Proof.
  induction f1 as [|y f1 IH]; simpl.
  - now destruct (synthetic a c f2).
  - rewrite IH. destruct (synthetic a c f2) as [c2 q2].
    now destruct (synthetic a c2 f1).
Qed.

Lemma synthetic_length (a c : F) (f : list F) :
  length (snd (synthetic a c f)) = length f.
Proof.
  induction f as [|y f IH]; simpl; [reflexivity|].
  destruct (synthetic a c f); simpl in *. now rewrite IH.
Qed.

Lemma synthetic_zeros (a : F) (k : nat) :
  synthetic a fzero (replicate k fzero) = (fzero, replicate k fzero).
Proof.
  induction k as [|k IH]; simpl; [reflexivity|].
  rewrite IH. f_equal. ring.
Qed.

(** The division identity: with carry [c] entering at the top,
    [f(x) + c x^n = q(x) (x - a) + r]. *)
Lemma synthetic_eval (a c x : F) (f : list F) :
  Eval f x ⊕ c ⊗ fpow x (length f) =
  Eval (snd (synthetic a c f)) x ⊗ (x ⊖ a) ⊕ fst (synthetic a c f).
Proof.
  induction f as [|y f IH]; simpl.
  - ring.
  - destruct (synthetic a c f) as [c1 q]; simpl in *.
    transitivity (y ⊕ x ⊗ (Eval f x ⊕ c ⊗ fpow x (length f))); [ring|].
    rewrite IH. ring.
Qed.

Lemma synthetic_remainder (a c : F) (f : list F) :
  fst (synthetic a c f) = Eval f a ⊕ c ⊗ fpow a (length f).
Proof. rewrite (synthetic_eval a c a f). ring. Qed.

(** The loop of [dividePolyByXminusA] computes [synthetic] on the part of
    the array it runs over, and leaves the rest of the array alone. *)
Lemma divide_loop_synthetic (a c : F) (pre f post : list F) :
  divide_loop a (length pre) (length f) c (pre ++ f ++ post) =
  pre ++ snd (synthetic a c f) ++ post.
Proof.
  revert c post.
  induction f as [|x f IH] using rev_ind; intros c post; simpl; [reflexivity|].
  rewrite length_app. simpl. rewrite Nat.add_1_r. simpl.
  rewrite <- (assoc_L (++) f [x] post). simpl.
  assert (Hat : (pre ++ f ++ x :: post) !!! (length pre + length f)%nat = x).
  { rewrite (assoc_L (++) pre f). rewrite <- length_app.
    apply list_lookup_total_middle. reflexivity. }
  rewrite Hat.
  assert (Hins : <[(length pre + length f)%nat := c]> (pre ++ f ++ x :: post)
                 = pre ++ f ++ c :: post).
  { rewrite insert_app_r. f_equal.
    rewrite <- (Nat.add_0_r (length f)). now rewrite insert_app_r. }
  rewrite Hins, IH, synthetic_snoc.
  destruct (synthetic a (x ⊕ c ⊗ a) f) as [c1 q]; simpl.
  now rewrite <- (assoc_L (++) q [c] post).
Qed.

(** On a fresh array (the coefficients, then zeros up to the capacity)
    from whose constant coefficient [f(a)] has been subtracted, the loop
    leaves the quotient of [f - f(a)] by [x - a] in the first [len(f) - 1]
    slots and zeros after it. *)
Lemma divide_loop_quotient (a f0 : F) (f' : list F) (k : nat) :
  let f := f0 :: f' in
  exists hq : list F,
    divide_loop a 0 (length f + k) fzero ((f0 ⊖ Eval f a) :: f' ++ replicate k fzero)
      = hq ++ replicate (S k) fzero /\
    length hq = length f' /\
    forall x : F, Eval f x ⊖ Eval f a = Eval hq x ⊗ (x ⊖ a).
Proof.
  intros f.
  set (g := (f0 ⊖ Eval f a) :: f').
  destruct (exists_last (l := g)) as (ini & lst & Hg); [discriminate|].
  destruct (synthetic a (lst ⊕ fzero ⊗ a) ini) as [c1 q] eqn:Hsyn.
  assert (Hsg : synthetic a fzero g = (c1, q ++ [fzero])).
  { rewrite Hg, synthetic_snoc, Hsyn. reflexivity. }
  assert (Hq : length q = length f').
  { pose proof (synthetic_length a fzero g) as Hl. rewrite Hsg in Hl.
    simpl in Hl. rewrite length_app in Hl. simpl in Hl. lia. }
  assert (Hc1 : c1 = fzero).
  { pose proof (synthetic_remainder a fzero g) as Hr. rewrite Hsg in Hr.
    simpl in Hr. rewrite Hr. unfold f. simpl. ring. }
  exists q. split; [|split].
  - pose proof (divide_loop_synthetic a fzero [] (g ++ replicate k fzero) []) as Hloop.
    rewrite synthetic_app, synthetic_zeros, Hsg in Hloop.
    rewrite !app_nil_r in Hloop.
    rewrite length_app, length_replicate in Hloop.
    rewrite <- (assoc_L (++) q [fzero]) in Hloop. exact Hloop.
  - exact Hq.
  - intros x. pose proof (synthetic_eval a fzero x g) as He. rewrite Hsg in He.
    cbn [fst snd] in He. rewrite Hc1, Eval_app in He.
    unfold g, f in *. simpl in He |- *.
    transitivity (f0 ⊖ (f0 ⊕ a ⊗ Eval f' a) ⊕ x ⊗ Eval f' x
                  ⊕ fzero ⊗ (x ⊗ fpow x (length f'))); [ring|].
    rewrite He. ring.
Qed.

End DivisionFacts.

(** ** Open: the heap and the quotient *)

Section OpenFacts.
Context `{FO : FieldOps} {FL : FieldLaws} `{CO : !CurveOps} {CL : CurveLaws}.
Local Open Scope fr_scope.

Add Field Ffield_o : F_field.

Lemma insert_last_array (h : Heap) (x y : list F) :
  <[length h := y]> (h ++ [x]) = h ++ [y].
Proof. rewrite <- (Nat.add_0_r (length h)). now rewrite insert_app_r. Qed.

Lemma backing_old (h : Heap) (ext : list (list F)) (s : slice) :
  s_arr s < length h -> backing (h ++ ext) s = backing h s.
Proof. intros Hs. unfold backing. now rewrite lookup_app_l. Qed.

Lemma load_old (h : Heap) (ext : list (list F)) (s : slice) :
  s_arr s < length h -> load (h ++ ext) s = load h s.
Proof. intros Hs. unfold load. now rewrite backing_old. Qed.

Lemma backing_last (h : Heap) (x : list F) (s : slice) :
  s_arr s = length h -> backing (h ++ [x]) s = x.
Proof.
  intros Hs. unfold backing. rewrite Hs.
  now rewrite list_lookup_middle.
Qed.

Lemma load_length (h : Heap) (s : slice) :
  slice_ok h s -> length (load h s) = s_len s.
Proof.
  intros [_ Hb]. unfold load. rewrite length_take, length_drop. lia.
Qed.

Lemma inserts_fresh (v : list F) (k : nat) :
  length v <= k ->
  list_inserts 0 v (replicate k fzero) = v ++ replicate (k - length v) fzero.
Proof.
  intros Hk.
  replace (replicate k fzero) with
    (replicate (length v) fzero ++ replicate (k - length v) (fzero : F)).
  - apply list_inserts_0_r. now rewrite length_replicate.
  - rewrite <- replicate_add. f_equal. lia.
Qed.

(** What [dividePolyByXminusA] leaves in the heap is the heap it was
    given with the array of [f] replaced. *)
Lemma dividePolyByXminusA_last (d : Domain) (f : slice) (fa a : F) (h : Heap) (x : list F) :
  s_arr f = length h ->
  dividePolyByXminusA d f fa a (h ++ [x]) =
  (len ← fst (divide_array (Cardinality d) (s_off f) (s_len f) fa a x);
   Ok {| s_arr := length h; s_off := s_off f; s_len := len |},
   h ++ [snd (divide_array (Cardinality d) (s_off f) (s_len f) fa a x)]).
Proof.
  intros Hf. unfold dividePolyByXminusA.
  rewrite backing_last by exact Hf.
  destruct (divide_array _ _ _ _ _ x) as [r arr]. cbn [fst snd].
  now rewrite Hf, insert_last_array.
Qed.

Lemma Open_heap (numCpus : nat) (p : slice) (z : F) (d : Domain) (srs : SRS) (h : Heap) :
  exists ext, snd (Open numCpus p z d srs h) = h ++ ext.
Proof.
  unfold Open.
  destruct (_ || _); [exists []; now rewrite app_nil_r|].
  destruct (_ <? _); [exists []; now rewrite app_nil_r|].
  unfold hbind at 1. unfold make_slice.
  destruct (_ <? _); [exists []; now rewrite app_nil_r|].
  unfold hbind at 1. unfold copy_slice. cbn [s_arr].
  rewrite insert_last_array.
  unfold hbind at 1.
  rewrite dividePolyByXminusA_last by reflexivity.
  destruct (fst (divide_array _ _ _ _ _ _)); cbn; [|eauto|eauto].
  unfold hbind, hlift, hret. destruct (Commit _ _ _ _); eauto.
Qed.


Lemma make_slice_ok (n c : nat) (h : Heap) :
  n <= c ->
  make_slice n c h =
  (Ok {| s_arr := length h; s_off := 0; s_len := n |}, h ++ [replicate c fzero]).
Proof.
  intros Hn. unfold make_slice.
  now replace (c <? n) with false by (symmetry; apply Nat.ltb_ge; lia).
Qed.

Lemma copy_slice_fresh (p : slice) (c : nat) (h : Heap) :
  slice_ok h p -> s_len p <= c ->
  copy_slice {| s_arr := length h; s_off := 0; s_len := s_len p |} p
    (h ++ [replicate c fzero]) =
  (Ok tt, h ++ [load h p ++ replicate (c - s_len p) fzero]).
Proof.
  intros Hok Hc. pose proof (load_length h p Hok) as Hlen. destruct Hok as [Harr _].
  unfold copy_slice. cbn [s_arr s_len s_off].
  rewrite insert_last_array, Nat.min_id, backing_last by reflexivity.
  rewrite load_old by exact Harr.
  rewrite take_ge by lia. rewrite inserts_fresh by lia. now rewrite Hlen.
Qed.

Lemma dividePolyByXminusA_fresh (d : Domain) (f0 z : F) (f' : list F) (k : nat) (h : Heap) :
  Cardinality d = S (length f') + k ->
  exists hq : list F,
    length hq = length f' /\
    (forall x : F, Eval (f0 :: f') x ⊖ Eval (f0 :: f') z = Eval hq x ⊗ (x ⊖ z)) /\
    dividePolyByXminusA d {| s_arr := length h; s_off := 0; s_len := S (length f') |}
      (Eval (f0 :: f') z) z (h ++ [(f0 :: f') ++ replicate k fzero]) =
    (Ok {| s_arr := length h; s_off := 0; s_len := length f' |},
     h ++ [hq ++ replicate (S k) fzero]).
Proof.
  intros Hcard.
  destruct (divide_loop_quotient z f0 f' k) as (hq & Hloop & Hhq & Heval).
  exists hq. split; [exact Hhq|]. split; [exact Heval|].
  rewrite dividePolyByXminusA_last by reflexivity.
  unfold divide_array. cbn [s_arr s_len s_off].
  rewrite Hcard. rewrite Nat.sub_0_r, length_app, length_replicate.
  cbn [length].
  replace (S (length f') + k <? S (length f') + k) with false
    by (symmetry; apply Nat.ltb_ge; lia).
  rewrite Nat.add_0_l, drop_0.
  rewrite take_ge by (rewrite length_app, length_replicate; simpl; lia).
  cbn [app].
  change (<[0:=f0 ⊖ Eval (f0 :: f') z]> (f0 :: f' ++ replicate k fzero))
    with ((f0 ⊖ Eval (f0 :: f') z) :: f' ++ replicate k fzero).
  cbn [length] in Hloop. rewrite Hloop.
  replace ((Z.of_nat (S (length f')) - 1 <? 0)%Z) with false
    by (symmetry; apply Z.ltb_ge; lia).
  replace ((Z.of_nat (S (length f') + k) <? Z.of_nat (S (length f')) - 1)%Z)
    with false by (symmetry; apply Z.ltb_ge; lia).
  cbn. do 3 f_equal. lia.
Qed.


End OpenFacts.

(** ** The SRS, commitments and the pairing check *)

Section VerifyFacts.
Context `{FO : FieldOps} {FL : FieldLaws} `{CO : !CurveOps} {CL : CurveLaws}.
Local Open Scope fr_scope.

Add Field Ffield_v : F_field.

Lemma mul_chain_lookup (x prev : F) (k i : nat) :
  i < k -> mul_chain x prev k !! i = Some (prev ⊗ fpow x (S i)).
Proof.
  revert prev i. induction k as [|k IH]; intros prev i Hi; [lia|].
  destruct i as [|i]; simpl.
  - f_equal. ring.
  - rewrite IH by lia. f_equal. simpl. ring.
Qed.

Lemma mul_chain_length (x prev : F) (k : nat) : length (mul_chain x prev k) = k.
Proof. revert prev. induction k as [|k IH]; intros prev; simpl; [|rewrite IH]; reflexivity. Qed.

Lemma NewSRS_for (size : nat) (alpha : F) (srs : SRS) :
  NewSRS size alpha = Ok srs -> SRS_for alpha srs /\ length (srsG1 srs) = size.
Proof.
  unfold NewSRS. destruct (size <? 2) eqn:Hsz; [discriminate|].
  apply Nat.ltb_ge in Hsz. intros [= <-].
  unfold SRS_for. cbn [srsG1 srsG2].
  assert (Hlen : length (gen1 :: map (fun a => a • gen1)
                   (alpha :: mul_chain alpha alpha (size - 2))) = size).
  { simpl. rewrite length_map, mul_chain_length. lia. }
  simpl map in Hlen. rewrite Hlen. repeat split; [|lia].
  intros i Hi.
  destruct i as [|[|i]]; simpl.
  - now rewrite smul_one.
  - do 2 f_equal. ring.
  - rewrite list_lookup_fmap, mul_chain_lookup by lia.
    simpl. do 2 f_equal; ring.
Qed.

Lemma Commit_eval (numCpus : nat) (alpha : F) (p : list F) (srs : SRS) (opt : list unit) :
  SRS_for alpha srs ->
  1 <= length p <= length (srsG1 srs) ->
  Commit numCpus p srs opt = Ok (Eval p alpha • gen1).
Proof.
  intros (Hg1 & _ & _) Hlen.
  rewrite Commit_msm by exact Hlen. f_equal.
  rewrite (msm_powers gen1 alpha p 0).
  - f_equal. simpl. ring.
  - intros i Hi. rewrite lookup_take_lt by lia. apply Hg1. lia.
Qed.




(** C1 (at the input where the code fails): [Open] returns
    [ErrInvalidPolynomialSize] for every polynomial of one coefficient,
    although the polynomial is not empty and fits the SRS and the domain:
    the quotient has no coefficient and [Commit] refuses it. *)
Theorem Open_constant_polynomial_fails
    (numCpus : nat) (z : F) (srs : SRS) (p : slice) (d : Domain) (h : Heap) :
  slice_ok h p ->
  s_len p = 1 ->
  1 <= length (srsG1 srs) ->
  1 <= Cardinality d ->
  fst (Open numCpus p z d srs h) = Err ErrInvalidPolynomialSize.
Proof.
  intros Hok Hp Hsrs Hcard.
  pose proof (load_length h p Hok) as Hlen.
  pose proof (copy_slice_fresh p (Cardinality d) h Hok ltac:(lia)) as Hcopy.
  destruct (load h p) as [|f0 [|f1 f']] eqn:Hload; simpl in Hlen; try lia.
  destruct (dividePolyByXminusA_fresh d f0 z [] (Cardinality d - s_len p) h)
    as (hq & Hhq & _ & Hdiv); [simpl; lia|].
  rewrite Hp in Hcopy, Hdiv. cbn [length] in Hdiv.
  unfold Open. rewrite Hload, Hp.
  replace (length (srsG1 srs) <? 1) with false by (symmetry; apply Nat.ltb_ge; lia).
  replace (Cardinality d <? 1) with false by (symmetry; apply Nat.ltb_ge; lia).
  cbn [orb Nat.eqb].
  unfold hbind at 1. rewrite make_slice_ok by lia.
  unfold hbind at 1. rewrite Hcopy.
  unfold hbind at 1. rewrite Hdiv.
  unfold hbind, hlift, load. cbn [s_arr s_len s_off take]. reflexivity.
Qed.

(** C10: [Open] leaves every array of the heap it is called in as it
    was, and so the coefficients of its input polynomial: what it writes,
    it writes to the array it allocates. *)
Theorem Open_preserves_input
    (numCpus : nat) (z : F) (srs : SRS) (p : slice) (d : Domain) (h : Heap) :
  s_arr p < length h ->
  take (length h) (snd (Open numCpus p z d srs h)) = h /\
  load (snd (Open numCpus p z d srs h)) p = load h p.
Proof.
  intros Hp. destruct (Open_heap numCpus p z d srs h) as [ext ->].
  split; [apply take_app_length | now apply load_old].
Qed.

End VerifyFacts.

(** ** Folding and batch verification: the error paths *)

Section FoldFacts.
Context `{FO : FieldOps} `{CO : !CurveOps} `{TO : !TranscriptOps}.
Local Open Scope fr_scope.

(** C6 (what the code does): when the challenge derivation fails with an
    error [e] of the transcript, [FoldProof] returns
    [ErrInvalidNbDigests], whatever [e] is. *)
Theorem FoldProof_replaces_transcript_error
    (digests : list G1) (batchOpeningProof : BatchOpeningProof) (hf : Hash) (e : error) :
  length digests = length (ClaimedValues batchOpeningProof) ->
  deriveGamma (bPoint batchOpeningProof) digests hf = Err e ->
  FoldProof digests batchOpeningProof hf = Err ErrInvalidNbDigests.
Proof.
  intros Hlen Hgamma. unfold FoldProof.
  now rewrite Hlen, Nat.eqb_refl, Hgamma.
Qed.

(** C9 (what the code does): on an empty batch [BatchVerifyMultiPoints]
    does not return; it indexes the empty slice [randomNumbers]. *)
Theorem BatchVerifyMultiPoints_empty_aborts (rnd : nat -> F) (srs : SRS) :
  BatchVerifyMultiPoints rnd [] [] srs = Abort "index out of range".
Proof. reflexivity. Qed.

End FoldFacts.

(** ** Batch opening: the proof depends on the contents only *)

Section BatchOpenFacts.
Context `{FO : FieldOps} {FL : FieldLaws} `{CO : !CurveOps} {CL : CurveLaws}.
Context `{TO : !TranscriptOps}.
Local Open Scope fr_scope.

Lemma Commit_numCpus (n1 n2 : nat) (p : list F) (srs : SRS) (opt : list unit) :
  Commit n1 p srs opt = Commit n2 p srs opt.
Proof.
  destruct (decide (1 <= length p <= length (srsG1 srs))) as [Hlen|Hlen].
  - now rewrite !Commit_msm.
  - unfold Commit.
    destruct (length p =? 0) eqn:H0; [reflexivity|].
    destruct (length (srsG1 srs) <? length p) eqn:H1; [reflexivity|].
    apply Nat.eqb_neq in H0. apply Nat.ltb_ge in H1. lia.
Qed.

Lemma copy_slice_last (dst src : slice) (h : Heap) (x : list F) :
  s_arr dst = length h -> s_arr src < length h ->
  copy_slice dst src (h ++ [x]) =
  (Ok tt, h ++ [list_inserts (s_off dst)
                  (take (Nat.min (s_len dst) (s_len src)) (load h src)) x]).
Proof.
  intros Hd Hs. unfold copy_slice.
  rewrite backing_last by exact Hd. rewrite load_old by exact Hs.
  now rewrite Hd, insert_last_array.
Qed.

Lemma map_load_old (h : Heap) (ext : list (list F)) (ps : list slice) :
  Forall (fun p => s_arr p < length h) ps ->
  map (load (h ++ ext)) ps = map (load h) ps.
Proof.
  induction 1 as [|p ps Hp _ IH]; simpl; [reflexivity|].
  now rewrite IH, load_old.
Qed.

Lemma make_slice_eq (n c : nat) (h : Heap) :
  make_slice n c h =
  if c <? n then (Abort "makeslice: cap out of range", h)
  else (Ok {| s_arr := length h; s_off := 0; s_len := n |}, h ++ [replicate c fzero]).
Proof. reflexivity. Qed.

Lemma load_last (h : Heap) (x : list F) (s : slice) :
  s_arr s = length h -> load (h ++ [x]) s = take (s_len s) (drop (s_off s) x).
Proof. intros Hs. unfold load. now rewrite backing_last. Qed.

Lemma BatchOpenSinglePoint_contents
    (n1 n2 : nat) (polynomials : list slice) (digests : list G1) (point : F) (hf : Hash)
    (domain : Domain) (srs : SRS) (h1 h2 : Heap) :
  Forall (fun p => s_arr p < length h1) polynomials ->
  Forall (fun p => s_arr p < length h2) polynomials ->
  map (load h1) polynomials = map (load h2) polynomials ->
  fst (BatchOpenSinglePoint n1 polynomials digests point hf domain srs h1) =
  fst (BatchOpenSinglePoint n2 polynomials digests point hf domain srs h2).
Proof.
  intros Hps1 Hps2 Hload.
  unfold BatchOpenSinglePoint.
  rewrite <- !(map_map (load _) (fun l => Eval l point)), <- Hload.
  destruct (negb _); [reflexivity|].
  destruct (check_polynomials _ _ _ _) as [largestPoly| |]; [|reflexivity|reflexivity].
  destruct (deriveGamma point digests hf) as [gamma| |]; [|reflexivity|reflexivity].
  destruct polynomials as [|p0 others]; [reflexivity|].
  inversion Hps1 as [|? ? Hp1 Ho1]; subst.
  inversion Hps2 as [|? ? Hp2 Ho2]; subst.
  cbn [map] in Hload. injection Hload as Hl0 Hls.
  unfold hbind, hlift, hret.
  destruct (_ ← index _ _; horner_down _ _ _ _) as [sumEval| |];
    [|reflexivity|reflexivity].
  rewrite !make_slice_eq.
  destruct (_ <? _); [reflexivity|].
  rewrite !copy_slice_last by (try reflexivity; assumption).
  cbn [s_arr s_off s_len].
  rewrite !map_load_old by assumption.
  rewrite (load_last h1), (load_last h2) by reflexivity.
  rewrite <- Hl0, <- Hls.
  destruct (sum_gamma_pols _ _ _ _) as [sum| |]; [|reflexivity|reflexivity].
  rewrite !backing_last by reflexivity.
  cbn [s_arr].
  rewrite !insert_last_array.
  rewrite !dividePolyByXminusA_last by reflexivity.
  cbn [s_off s_len].
  destruct (fst (divide_array _ _ _ _ _ _)) as [len| |]; cbn; [|reflexivity|reflexivity].
  rewrite !backing_last by reflexivity.
  rewrite (Commit_numCpus n1 n2).
  now destruct (Commit _ _ _ _).
Qed.

Lemma BatchOpenSinglePoint_heap
    (numCpus : nat) (polynomials : list slice) (digests : list G1) (point : F) (hf : Hash)
    (domain : Domain) (srs : SRS) (h : Heap) :
  Forall (fun p => s_arr p < length h) polynomials ->
  exists ext,
    snd (BatchOpenSinglePoint numCpus polynomials digests point hf domain srs h) = h ++ ext.
Proof.
  intros Hps.
  assert (Hnil : exists ext : list (list F), h = h ++ ext)
    by (exists []; now rewrite app_nil_r).
  unfold BatchOpenSinglePoint.
  destruct (negb _); [exact Hnil|].
  destruct (check_polynomials _ _ _ _) as [largestPoly| |]; [|exact Hnil|exact Hnil].
  destruct (deriveGamma point digests hf) as [gamma| |]; [|exact Hnil|exact Hnil].
  destruct polynomials as [|p0 others]; [exact Hnil|].
  inversion Hps as [|? ? Hp Ho]; subst.
  unfold hbind, hlift, hret.
  destruct (_ ← index _ _; horner_down _ _ _ _) as [sumEval| |];
    [|exact Hnil|exact Hnil].
  rewrite make_slice_eq.
  destruct (_ <? _); [exact Hnil|].
  rewrite copy_slice_last by (try reflexivity; assumption).
  destruct (sum_gamma_pols _ _ _ _) as [sum| |]; [|cbn; eauto|cbn; eauto].
  rewrite !backing_last by reflexivity.
  cbn [s_arr].
  rewrite insert_last_array.
  rewrite dividePolyByXminusA_last by reflexivity.
  destruct (fst (divide_array _ _ _ _ _ _)) as [len| |]; cbn; [|eauto|eauto].
  destruct (Commit _ _ _ _); cbn; eauto.
Qed.

(** C7: a call of [BatchOpenSinglePoint] and a second call with the same
    arguments, made in the heap the first call has left and under any
    number of CPUs, return the same proof (or the same error); so does a
    call in any heap in which the polynomials have the same coefficients.
    When a proof is returned, the challenge is the one [deriveGamma]
    derives from the point, the digests and the hash. *)
Theorem BatchOpenSinglePoint_deterministic
    (n1 n2 : nat) (polynomials : list slice) (digests : list G1) (point : F) (hf : Hash)
    (domain : Domain) (srs : SRS) (h : Heap) :
  Forall (fun p => s_arr p < length h) polynomials ->
  let first := BatchOpenSinglePoint n1 polynomials digests point hf domain srs h in
  fst (BatchOpenSinglePoint n2 polynomials digests point hf domain srs (snd first))
    = fst first /\
  (forall h2 : Heap,
     Forall (fun p => s_arr p < length h2) polynomials ->
     map (load h2) polynomials = map (load h) polynomials ->
     fst (BatchOpenSinglePoint n2 polynomials digests point hf domain srs h2) = fst first) /\
  (forall proof : BatchOpeningProof,
     fst first = Ok proof -> exists gamma : F, deriveGamma point digests hf = Ok gamma).
Proof.
  intros Hps first.
  assert (Hany : forall h2 : Heap,
     Forall (fun p => s_arr p < length h2) polynomials ->
     map (load h2) polynomials = map (load h) polynomials ->
     fst (BatchOpenSinglePoint n2 polynomials digests point hf domain srs h2) = fst first).
  { intros h2 Hps2 Hload. now apply BatchOpenSinglePoint_contents. }
  split; [|split; [exact Hany|]].
  - destruct (BatchOpenSinglePoint_heap n1 polynomials digests point hf domain srs h Hps)
      as [ext Hext].
    fold first in Hext. rewrite Hext. apply Hany.
    + eapply Forall_impl; [exact Hps|]. intros p Hp. rewrite length_app. simpl in *. lia.
    + now apply map_load_old.
  - intros proof. subst first. unfold BatchOpenSinglePoint.
    destruct (negb _); [discriminate|].
    destruct (check_polynomials _ _ _ _); [|discriminate|discriminate].
    destruct (deriveGamma point digests hf) as [gamma| |]; [|discriminate|discriminate].
    eauto.
Qed.

End BatchOpenFacts.

(** ** Index bit reversal *)

Section Bits.
Local Open Scope Z_scope.

Lemma reverse_bits_range (w : nat) (x : Z) : 0 <= reverse_bits w x < 2 ^ Z.of_nat w.
Proof.
  revert x. induction w as [|w IH]; intros x.
  - simpl. lia.
  - change (reverse_bits (S w) x)
      with ((x mod 2) * 2 ^ Z.of_nat w + reverse_bits w (x / 2)).
    specialize (IH (x / 2)).
    rewrite Nat2Z.inj_succ, Z.pow_succ_r by lia.
    pose proof (Z.mod_pos_bound x 2 ltac:(lia)).
    nia.
Qed.

Lemma reverse_bits_0 (w : nat) : reverse_bits w 0 = 0.
Proof. induction w as [|w IH]; [reflexivity|]. cbn [reverse_bits]. rewrite Zdiv_0_l, IH. reflexivity. Qed.

(** Reversal from the other end: the top bit comes out at the bottom. *)
Lemma reverse_bits_top (w : nat) (b r : Z) :
  0 <= b <= 1 -> 0 <= r < 2 ^ Z.of_nat w ->
  reverse_bits (S w) (b * 2 ^ Z.of_nat w + r) = b + 2 * reverse_bits w r.
Proof.
  revert r. induction w as [|w IH]; intros r Hb Hr.
  - simpl in Hr. assert (r = 0) by lia. subst r.
    cbn [reverse_bits]. rewrite Z.pow_0_r, Z.mul_1_r, Z.add_0_r.
    rewrite Z.mod_small by lia. lia.
  - change (reverse_bits (S (S w)) (b * 2 ^ Z.of_nat (S w) + r))
      with (((b * 2 ^ Z.of_nat (S w) + r) mod 2) * 2 ^ Z.of_nat (S w)
            + reverse_bits (S w) ((b * 2 ^ Z.of_nat (S w) + r) / 2)).
    change (reverse_bits (S w) r)
      with ((r mod 2) * 2 ^ Z.of_nat w + reverse_bits w (r / 2)).
    rewrite Nat2Z.inj_succ, Z.pow_succ_r in * by lia.
    replace (b * (2 * 2 ^ Z.of_nat w) + r) with (r + (b * 2 ^ Z.of_nat w) * 2) by ring.
    rewrite Z_mod_plus_full, Z_div_plus_full by lia.
    rewrite (Z.add_comm (r / 2)).
    rewrite IH.
    + ring.
    + lia.
    + split; [apply Z.div_pos; lia|]. apply Z.div_lt_upper_bound; lia.
Qed.

Lemma reverse_bits_involutive (w : nat) (x : Z) :
  0 <= x < 2 ^ Z.of_nat w -> reverse_bits w (reverse_bits w x) = x.
Proof.
  revert x. induction w as [|w IH]; intros x Hx.
  - simpl in *. lia.
  - change (reverse_bits (S w) x)
      with ((x mod 2) * 2 ^ Z.of_nat w + reverse_bits w (x / 2)).
    rewrite Nat2Z.inj_succ, Z.pow_succ_r in Hx by lia.
    pose proof (Z.mod_pos_bound x 2 ltac:(lia)).
    rewrite reverse_bits_top by (try apply reverse_bits_range; lia).
    rewrite IH.
    + pose proof (Z.div_mod x 2 ltac:(lia)). lia.
    + split; [apply Z.div_pos; lia|]. apply Z.div_lt_upper_bound; lia.
Qed.

(** Reversing on a wider word shifts the reversal left. *)
Lemma reverse_bits_wider (k m : nat) (x : Z) :
  0 <= x < 2 ^ Z.of_nat k ->
  reverse_bits (k + m) x = reverse_bits k x * 2 ^ Z.of_nat m.
Proof.
  revert x. induction k as [|k IH]; intros x Hx.
  - simpl in Hx. assert (x = 0) by lia. subst x.
    now rewrite !reverse_bits_0.
  - cbn [Nat.add].
    change (reverse_bits (S (k + m)) x)
      with ((x mod 2) * 2 ^ Z.of_nat (k + m) + reverse_bits (k + m) (x / 2)).
    change (reverse_bits (S k) x)
      with ((x mod 2) * 2 ^ Z.of_nat k + reverse_bits k (x / 2)).
    rewrite Nat2Z.inj_succ, Z.pow_succ_r in Hx by lia.
    rewrite IH.
    + rewrite Nat2Z.inj_add, Z.pow_add_r by lia. ring.
    + split; [apply Z.div_pos; lia|]. apply Z.div_lt_upper_bound; lia.
Qed.

Lemma trailing_zeros_pow2 (w k : nat) :
  (k < w)%nat -> trailing_zeros w (2 ^ Z.of_nat k) = Z.of_nat k.
Proof.
  revert k. induction w as [|w IH]; intros k Hk; [lia|].
  destruct k as [|k].
  - reflexivity.
  - cbn [trailing_zeros].
    rewrite Nat2Z.inj_succ, Z.pow_succ_r by lia.
    rewrite Z.odd_mul. cbn [Z.odd andb].
    rewrite (Z.mul_comm 2), Z.div_mul by lia.
    rewrite IH by lia. lia.
Qed.

(** On a domain of [2^k] points the index computed by the builders is the
    [k]-bit reversal. *)
Lemma iRev_of_pow2 (k i : nat) :
  (k <= 63)%nat -> (i < 2 ^ k)%nat ->
  iRev_of (2 ^ k) i = Z.to_nat (reverse_bits k (Z.of_nat i)).
Proof.
  intros Hk Hi. unfold iRev_of, TrailingZeros, Reverse64.
  assert (Hpow : Z.of_nat (2 ^ k) = 2 ^ Z.of_nat k).
  { rewrite Nat2Z.inj_pow. reflexivity. }
  assert (Hlt : 2 ^ Z.of_nat k < 2 ^ 64).
  { apply Z.pow_lt_mono_r; lia. }
  assert (Hi' : 0 <= Z.of_nat i < 2 ^ Z.of_nat k) by lia.
  rewrite Hpow, (Z.mod_small (2 ^ Z.of_nat k)) by lia.
  rewrite trailing_zeros_pow2 by lia.
  rewrite ?(Z.mod_small (Z.of_nat i)) by lia.
  replace 64%nat with (k + (64 - k))%nat by lia.
  rewrite reverse_bits_wider by exact Hi'.
  rewrite Z.shiftr_div_pow2 by lia.
  replace (64 - Z.of_nat k) with (Z.of_nat (64 - k)) by lia.
  rewrite Z.div_mul; [reflexivity|].
  apply Z.pow_nonzero; lia.
Qed.

End Bits.

Section BitReverseFacts.
Context `{FO : FieldOps}.

Lemma iRev_of_lt (k i : nat) :
  k <= 63 -> i < 2 ^ k -> iRev_of (2 ^ k) i < 2 ^ k.
Proof.
  intros Hk Hi. rewrite iRev_of_pow2 by assumption.
  pose proof (reverse_bits_range k (Z.of_nat i)) as Hr.
  apply Nat2Z.inj_lt. rewrite Z2Nat.id by lia.
  rewrite Nat2Z.inj_pow. exact (proj2 Hr).
Qed.

Lemma iRev_of_involutive (k i : nat) :
  k <= 63 -> i < 2 ^ k -> iRev_of (2 ^ k) (iRev_of (2 ^ k) i) = i.
Proof.
  intros Hk Hi.
  pose proof (iRev_of_lt k i Hk Hi) as Hlt.
  rewrite (iRev_of_pow2 k (iRev_of (2 ^ k) i)) by assumption.
  rewrite iRev_of_pow2 by assumption.
  pose proof (reverse_bits_range k (Z.of_nat i)) as Hr.
  rewrite Z2Nat.id by lia.
  rewrite reverse_bits_involutive.
  - apply Nat2Z.id.
  - split; [lia|]. change 2%Z with (Z.of_nat 2). rewrite <- Nat2Z.inj_pow. lia.
Qed.

Lemma bit_reverse_length (v : list F) : length (bit_reverse v) = length v.
Proof. unfold bit_reverse. now rewrite length_map, length_seq. Qed.

Lemma bit_reverse_lookup (v : list F) (i : nat) :
  i < length v -> bit_reverse v !! i = Some (v !!! iRev_of (length v) i).
Proof.
  intros Hi. unfold bit_reverse.
  rewrite list_lookup_fmap, lookup_seq_lt by exact Hi. reflexivity.
Qed.

Lemma bit_reverse_lookup_total (v : list F) (i : nat) :
  i < length v -> bit_reverse v !!! i = v !!! iRev_of (length v) i.
Proof.
  intros Hi. apply list_lookup_total_correct. now apply bit_reverse_lookup.
Qed.

Lemma bit_reverse_involutive (k : nat) (v : list F) :
  k <= 63 -> length v = 2 ^ k -> bit_reverse (bit_reverse v) = v.
Proof.
  intros Hk Hv. apply list_eq. intros i.
  destruct (decide (i < length v)) as [Hi|Hi].
  - rewrite bit_reverse_lookup by (now rewrite bit_reverse_length).
    rewrite bit_reverse_length.
    rewrite bit_reverse_lookup_total by (rewrite Hv; apply iRev_of_lt; lia).
    rewrite Hv, iRev_of_involutive by lia.
    symmetry. apply list_lookup_lookup_total_lt. lia.
  - rewrite !lookup_ge_None_2; [reflexivity|lia|].
    rewrite !bit_reverse_length. lia.
Qed.

End BitReverseFacts.

(** ** Finite sums and the transforms *)

Section SumFacts.
Context `{FO : FieldOps} {FL : FieldLaws}.
Local Open Scope fr_scope.
Add Field Ffield_s : F_field.

Lemma fsum_ext (f g : nat -> F) (n : nat) :
  (forall i, i < n -> f i = g i) -> fsum f n = fsum g n.
Proof.
  induction n as [|n IH]; intros Hfg; simpl; [reflexivity|].
  rewrite IH, Hfg by (intros; try apply Hfg; lia). reflexivity.
Qed.

Lemma fsum_zero (n : nat) : fsum (fun _ => fzero) n = fzero.
Proof. induction n as [|n IH]; simpl; [reflexivity | rewrite IH; ring]. Qed.

Lemma fsum_scale (c : F) (f : nat -> F) (n : nat) :
  fsum (fun i => c ⊗ f i) n = c ⊗ fsum f n.
Proof. induction n as [|n IH]; simpl; [ring | rewrite IH; ring]. Qed.

Lemma fsum_add (f g : nat -> F) (n : nat) :
  fsum (fun i => f i ⊕ g i) n = fsum f n ⊕ fsum g n.
Proof. induction n as [|n IH]; simpl; [ring | rewrite IH; ring]. Qed.

Lemma fsum_swap (f : nat -> nat -> F) (n m : nat) :
  fsum (fun i => fsum (fun j => f i j) m) n = fsum (fun j => fsum (fun i => f i j) n) m.
Proof.
  induction n as [|n IH]; simpl.
  - now rewrite fsum_zero.
  - now rewrite IH, <- fsum_add.
Qed.

(** A sum with a single term that is not zero. *)
Lemma fsum_single (f : nat -> F) (n k : nat) :
  k < n -> (forall j, j < n -> j <> k -> f j = fzero) -> fsum f n = f k.
Proof.
  induction n as [|n IH]; intros Hk Hz; [lia|]. simpl.
  destruct (decide (k = n)) as [->|Hne].
  - rewrite (fsum_ext f (fun _ => fzero)), fsum_zero by (intros; apply Hz; lia). ring.
  - rewrite IH, (Hz n) by (intros; try apply Hz; lia). ring.
Qed.

Lemma fsum_geometric (x : F) (n : nat) :
  (x ⊖ fone) ⊗ fsum (fun i => fpow x i) n = fpow x n ⊖ fone.
Proof.
  induction n as [|n IH]; simpl; [ring|].
  transitivity ((x ⊖ fone) ⊗ fsum (fun i => fpow x i) n ⊕ (x ⊖ fone) ⊗ fpow x n); [ring|].
  rewrite IH. ring.
Qed.

Lemma fmul_eq_zero (a b : F) : a ⊗ b = fzero -> a <> fzero -> b = fzero.
Proof.
  intros Hab Ha.
  transitivity (finv a ⊗ (a ⊗ b)); [field; exact Ha | rewrite Hab; ring].
Qed.

Lemma fsum_geometric_root (x : F) (n : nat) :
  fpow x n = fone -> x <> fone -> fsum (fun i => fpow x i) n = fzero.
Proof.
  intros Hn Hx. apply (fmul_eq_zero (x ⊖ fone)).
  - rewrite fsum_geometric, Hn. ring.
  - intros H0. apply Hx. transitivity (x ⊖ fone ⊕ fone); [ring | rewrite H0; ring].
Qed.

Lemma Eval_fsum (c : list F) (x : F) :
  Eval c x = fsum (fun i => (c !!! i) ⊗ fpow x i) (length c).
Proof.
  induction c as [|a c IH] using rev_ind; [reflexivity|].
  rewrite Eval_app, length_app, Nat.add_1_r. simpl.
  rewrite list_lookup_total_middle by reflexivity.
  rewrite IH. rewrite (fsum_ext _ (fun i => ((c ++ [a]) !!! i) ⊗ fpow x i)).
  - ring.
  - intros i Hi. now rewrite lookup_total_app_l.
Qed.

End SumFacts.

Section DomainFacts.
Context `{FO : FieldOps} {FL : FieldLaws}.
Local Open Scope fr_scope.
Add Field Ffield_f : F_field.

Variable d : Domain.
Hypothesis Hd : Domain_ok d.

Let n := Cardinality d.
Let w := Generator d.
Let wInv := GeneratorInv d.

Lemma root_inv_pow (j : nat) : fpow w j ⊗ fpow wInv j = fone.
Proof.
  destruct Hd as (_ & _ & _ & Hinv & _).
  rewrite <- fpow_mul_base. fold w wInv in Hinv. rewrite Hinv. apply fpow_one.
Qed.

Lemma root_inv_order : fpow wInv n = fone.
Proof.
  destruct Hd as (_ & Hn & _).
  transitivity (fpow w n ⊗ fpow wInv n); [|apply root_inv_pow].
  fold w n in Hn. rewrite Hn. ring.
Qed.

(** Two powers of the root below the order are equal only if the
    exponents are. *)
Lemma root_ratio_one (a b : nat) :
  a < n -> b < n -> fpow w a ⊗ fpow wInv b = fone -> a = b.
Proof.
  intros Ha Hb Hone.
  destruct Hd as (_ & _ & Hprim & _). fold w n in Hprim.
  destruct (Nat.lt_trichotomy a b) as [Hlt|[Heq|Hgt]]; [|exact Heq|]; exfalso.
  - apply (Hprim (b - a)); [lia|].
    transitivity (fpow w (b - a) ⊗ (fpow w a ⊗ fpow wInv b)); [rewrite Hone; ring|].
    transitivity (fpow w (b - a + a) ⊗ fpow wInv b); [rewrite fpow_add; ring|].
    replace (b - a + a) with b by lia. apply root_inv_pow.
  - apply (Hprim (a - b)); [lia|].
    transitivity (fpow w (a - b) ⊗ (fpow w b ⊗ fpow wInv b)); [rewrite root_inv_pow; ring|].
    transitivity (fpow w (a - b + b) ⊗ fpow wInv b); [rewrite fpow_add; ring|].
    replace (a - b + b) with a by lia. exact Hone.
Qed.

(** Orthogonality of the powers of the root. *)
Lemma root_orthogonal (a b : nat) :
  a < n -> b < n ->
  fsum (fun i => fpow (fpow w a ⊗ fpow wInv b) i) n =
  if decide (a = b) then fsum (fun _ => fone) n else fzero.
Proof.
  intros Ha Hb. destruct (decide (a = b)) as [->|Hne].
  - apply fsum_ext. intros i _. rewrite root_inv_pow. apply fpow_one.
  - apply fsum_geometric_root.
    + rewrite fpow_mul_base, <- !fpow_mul, !(Nat.mul_comm _ n), !fpow_mul.
      destruct Hd as (_ & Hn & _). fold w n in Hn.
      rewrite Hn, root_inv_order, !fpow_one. ring.
    + intros Hone. apply Hne. now apply root_ratio_one.
Qed.

Lemma evaluate_on_length (shift : F) (c : list F) :
  length (evaluate_on shift w n c) = n.
Proof. unfold evaluate_on. now rewrite length_map, length_seq. Qed.

Lemma interpolate_on_length (shiftInv nInv : F) (v : list F) :
  length (interpolate_on shiftInv wInv nInv n v) = n.
Proof. unfold interpolate_on. now rewrite length_map, length_seq. Qed.

(** Evaluating the interpolation gives the values back. *)
Lemma evaluate_interpolate (v : list F) :
  length v = n ->
  evaluate_on fone w n (interpolate_on fone wInv (CardinalityInv d) n v) = v.
Proof.
  intros Hv. apply list_eq_same_length with n;
    [exact Hv | apply evaluate_on_length |].
  intros k x y Hk Hx Hy.
  unfold evaluate_on in Hx.
  rewrite list_lookup_fmap, lookup_seq_lt in Hx by exact Hk.
  cbn in Hx. injection Hx as <-.
  apply list_lookup_total_correct in Hy. subst y.
  rewrite Eval_fsum, interpolate_on_length.
  set (G := fun i j => CardinalityInv d ⊗ ((v !!! j) ⊗ fpow (fpow w k ⊗ fpow wInv j) i)).
  transitivity (fsum (fun i => fsum (fun j => G i j) n) n).
  { apply fsum_ext. intros i Hi. unfold interpolate_on.
    rewrite (list_lookup_total_correct _ i
      (fpow fone i ⊗ (CardinalityInv d ⊗ fsum (fun j => (v !!! j) ⊗ fpow wInv (i * j)) n)))
      by (rewrite list_lookup_fmap, lookup_seq_lt by exact Hi; reflexivity).
    rewrite fpow_one.
    transitivity (fsum (fun j => (CardinalityInv d ⊗ fpow (fone ⊗ fpow w k) i)
                                 ⊗ ((v !!! j) ⊗ fpow wInv (i * j))) n).
    { rewrite fsum_scale. ring. }
    apply fsum_ext. intros j Hj. unfold G.
    rewrite !fpow_mul_base, fpow_one, <- !fpow_mul.
    rewrite (Nat.mul_comm i j). ring. }
  rewrite (fsum_swap G n n).
  transitivity (fsum (fun j => CardinalityInv d ⊗ ((v !!! j) ⊗
                  (if decide (k = j) then fsum (fun _ => fone) n else fzero))) n).
  { apply fsum_ext. intros j Hj. unfold G.
    rewrite !fsum_scale, root_orthogonal by lia. reflexivity. }
  rewrite (fsum_single _ n k Hk).
  - rewrite decide_True by reflexivity.
    destruct Hd as (_ & _ & _ & _ & HnInv & _). fold n in HnInv.
    transitivity ((v !!! k) ⊗ (CardinalityInv d ⊗ fsum (fun _ => fone) n)); [ring|].
    rewrite HnInv. ring.
  - intros j Hj Hne. rewrite decide_False by congruence. ring.
Qed.

(** Interpolating the evaluations on a coset gives the coefficients back. *)
Lemma interpolate_evaluate (shift shiftInv : F) (c : list F) :
  shift ⊗ shiftInv = fone ->
  length c = n ->
  interpolate_on shiftInv wInv (CardinalityInv d) n (evaluate_on shift w n c) = c.
Proof.
  intros Hshift Hc. apply list_eq_same_length with n;
    [exact Hc | apply interpolate_on_length |].
  intros k x y Hk Hx Hy.
  unfold interpolate_on in Hx.
  rewrite list_lookup_fmap, lookup_seq_lt in Hx by exact Hk.
  cbn in Hx. injection Hx as <-.
  apply list_lookup_total_correct in Hy. subst y.
  set (G := fun j l => ((c !!! l) ⊗ fpow shift l) ⊗ fpow (fpow w l ⊗ fpow wInv k) j).
  transitivity (fpow shiftInv k ⊗ (CardinalityInv d ⊗
                  fsum (fun j => fsum (fun l => G j l) n) n)).
  { do 2 f_equal. apply fsum_ext. intros j Hj. unfold evaluate_on.
    rewrite (list_lookup_total_correct _ j (Eval c (shift ⊗ fpow w j)))
      by (rewrite list_lookup_fmap, lookup_seq_lt by exact Hj; reflexivity).
    rewrite Eval_fsum, Hc.
    transitivity (fsum (fun l => fpow wInv (k * j)
                                 ⊗ ((c !!! l) ⊗ fpow (shift ⊗ fpow w j) l)) n).
    { rewrite fsum_scale. ring. }
    apply fsum_ext. intros l Hl. unfold G.
    rewrite !fpow_mul_base, <- !fpow_mul.
    rewrite (Nat.mul_comm j l). ring. }
  rewrite (fsum_swap G n n).
  transitivity (fpow shiftInv k ⊗ (CardinalityInv d ⊗
                  fsum (fun l => ((c !!! l) ⊗ fpow shift l) ⊗
                     (if decide (l = k) then fsum (fun _ => fone) n else fzero)) n)).
  { do 2 f_equal. apply fsum_ext. intros l Hl. unfold G.
    rewrite fsum_scale, root_orthogonal by lia. reflexivity. }
  rewrite (fsum_single _ n k Hk).
  - rewrite decide_True by reflexivity.
    destruct Hd as (_ & _ & _ & _ & HnInv & _). fold n in HnInv.
    transitivity ((c !!! k) ⊗ fpow (shift ⊗ shiftInv) k
                  ⊗ (CardinalityInv d ⊗ fsum (fun _ => fone) n)).
    { rewrite fpow_mul_base. ring. }
    rewrite HnInv, Hshift, fpow_one. ring.
  - intros l Hl Hne. rewrite decide_False by congruence. ring.
Qed.

End DomainFacts.

(** ** The size check of the ratio builders *)

Section CheckSizeFacts.
Context `{FO : FieldOps}.
Local Open Scope fr_scope.

(** [checkSize] on the two lists of [BuildRatioShuffledVectors], one
    polynomial in each: the inner loop runs [j] up to the number of lists,
    and indexes the one-element list at 1. *)
Lemma checkSize_single_aborts (st : PStore) (p q : nat) (P : Polynomial) :
  st !! p = Some P ->
  checkSize st [[p]; [q]] = Abort "index out of range".
Proof.
  intros Hp. unfold checkSize, deref, index. cbn. rewrite Hp. cbn.
  now rewrite Nat.eqb_refl.
Qed.

(** C2 (at the input where the code fails): with one polynomial in the
    numerator and one in the denominator, [BuildRatioShuffledVectors]
    does not return a polynomial; [checkSize] indexes out of range. *)
Theorem BuildRatioShuffledVectors_single_aborts
    (newDomain : nat -> Domain) (st : PStore) (p q : nat) (P : Polynomial)
    (beta : F) (expectedForm : Form) (domain : option Domain) :
  st !! p = Some P ->
  BuildRatioShuffledVectors newDomain [p] [q] beta expectedForm domain st
  = Abort "index out of range".
Proof.
  intros Hp. unfold BuildRatioShuffledVectors. cbn [length Nat.eqb negb].
  now rewrite (checkSize_single_aborts st p q P Hp).
Qed.

(** [checkSize] on the one list of [BuildRatioCopyConstraint] compares
    the first polynomial with itself and nothing else. *)
Lemma checkSize_entries (st : PStore) (p0 : nat) (rest : list nat) (P0 : Polynomial) :
  st !! p0 = Some P0 ->
  checkSize st [p0 :: rest] = Ok tt.
Proof.
  intros Hp. unfold checkSize, deref, index. cbn. rewrite Hp. cbn.
  now rewrite Nat.eqb_refl.
Qed.

(** C5 (at the inputs where the code fails): the ratio builders abort on
    lists of one polynomial and on empty lists. *)
Theorem ratio_builders_abort
    (newDomain : nat -> Domain) (st : PStore) (p q : nat) (P : Polynomial)
    (permutation : list Z) (beta gamma : F) (expectedForm : Form) (domain : option Domain) :
  st !! p = Some P ->
  BuildRatioShuffledVectors newDomain [p] [q] beta expectedForm domain st
    = Abort "index out of range" /\
  BuildRatioShuffledVectors newDomain [] [] beta expectedForm domain st
    = Abort "index out of range" /\
  BuildRatioCopyConstraint newDomain [] permutation beta gamma expectedForm domain st
    = Abort "index out of range".
Proof.
  intros Hp. split; [|split; reflexivity].
  unfold BuildRatioShuffledVectors. cbn [length Nat.eqb negb].
  now rewrite (checkSize_single_aborts st p q P Hp).
Qed.

End CheckSizeFacts.

(** ** Bases and layouts *)

Section FormFacts.
Context `{FO : FieldOps} {FL : FieldLaws}.
Local Open Scope fr_scope.

Variable d : Domain.
Hypothesis Hd : Domain_ok d.

Lemma domain_bit_reverse (v : list F) :
  length v = Cardinality d -> bit_reverse (bit_reverse v) = v.
Proof.
  intros Hv. destruct Hd as ((k & Hk & Hn) & _).
  apply (bit_reverse_involutive k); [exact Hk | congruence].
Qed.

Lemma ToLagrange_basis (p : Polynomial) : fBasis (form (ToLagrange d p)) = Lagrange.
Proof.
  unfold ToLagrange.
  destruct (fBasis (form p)) eqn:Hb, (fLayout (form p)); simpl; congruence.
Qed.

Lemma ToLagrange_length (p : Polynomial) :
  length (coefficients p) = Cardinality d ->
  length (coefficients (ToLagrange d p)) = Cardinality d.
Proof.
  intros Hp. unfold ToLagrange, FFT, FFTInverse.
  destruct (fBasis (form p)), (fLayout (form p)); simpl;
    rewrite ?bit_reverse_length, ?evaluate_on_length; assumption || reflexivity.
Qed.

Lemma ToLagrange_idempotent (p : Polynomial) :
  ToLagrange d (ToLagrange d p) = ToLagrange d p.
Proof.
  pose proof (ToLagrange_basis p) as Hb.
  unfold ToLagrange at 1. now rewrite Hb.
Qed.

(** [ToLagrange] does not change the values of the polynomial on the
    domain. *)
Lemma ToLagrange_values (p : Polynomial) :
  length (coefficients p) = Cardinality d ->
  values_on d (ToLagrange d p) = values_on d p.
Proof.
  intros Hp. destruct p as [c [b l]]. simpl in Hp.
  unfold ToLagrange, values_on, canonical_of, FFT, FFTInverse.
  destruct b, l; cbn [form coefficients fBasis fLayout]; try reflexivity.
  - apply domain_bit_reverse, evaluate_on_length.
  - rewrite domain_bit_reverse by apply interpolate_on_length. reflexivity.
  - apply domain_bit_reverse, evaluate_on_length.
Qed.

(** In Lagrange form, the coefficient the builders read at step [i] is
    the value of the polynomial at [ω^i]. *)
Lemma coeff_at_value (p : Polynomial) (i : nat) :
  fBasis (form p) = Lagrange ->
  length (coefficients p) = Cardinality d ->
  i < Cardinality d ->
  coeff_at p (Cardinality d) i = Ok (values_on d p !!! i).
Proof.
  intros Hb Hp Hi. unfold coeff_at, values_on, index. rewrite Hb.
  destruct (fLayout (form p)).
  - rewrite list_lookup_lookup_total_lt by lia. reflexivity.
  - rewrite bit_reverse_lookup_total by lia. rewrite Hp.
    rewrite list_lookup_lookup_total_lt; [reflexivity|].
    destruct Hd as ((k & Hk & Hn) & _). rewrite Hp, Hn.
    apply iRev_of_lt; [exact Hk | lia].
Qed.

(** The polynomial the builders return has, on the domain, the values
    they computed, whatever the form it was asked in. *)
Lemma putInExpectedForm_values (v : list F) (f : Form) :
  length v = Cardinality d ->
  values_on d (putInExpectedFormFromLagrangeRegular (NewPolynomial v f) d f) = v.
Proof.
  intros Hv. pose proof Hd as (_ & _ & _ & _ & _ & Hg).
  destruct f as [b l].
  unfold putInExpectedFormFromLagrangeRegular, values_on, canonical_of, FFT, FFTInverse,
    NewPolynomial.
  destruct b, l; cbn [form coefficients fBasis fLayout].
  - rewrite domain_bit_reverse by apply interpolate_on_length.
    now apply evaluate_interpolate.
  - rewrite domain_bit_reverse by apply interpolate_on_length.
    now apply evaluate_interpolate.
  - reflexivity.
  - now apply domain_bit_reverse.
  - rewrite domain_bit_reverse by apply interpolate_on_length.
    rewrite interpolate_evaluate by (try apply interpolate_on_length; assumption).
    now apply evaluate_interpolate.
  - rewrite domain_bit_reverse by apply evaluate_on_length.
    rewrite domain_bit_reverse by apply interpolate_on_length.
    rewrite interpolate_evaluate by (try apply interpolate_on_length; assumption).
    now apply evaluate_interpolate.
Qed.

End FormFacts.

(** ** Loops *)

Section LoopFacts.
Context `{FO : FieldOps} {FL : FieldLaws}.
Local Open Scope fr_scope.
Add Field Ffield_l : F_field.

(** A loop that keeps an invariant and whose body returns, returns. *)
Lemma for_range_inv {S : Type} (Inv : nat -> S -> Prop)
    (start count : nat) (body : nat -> S -> outcome S) (s : S) :
  Inv start s ->
  (forall i s, start <= i < start + count -> Inv i s ->
     exists s', body i s = Ok s' /\ Inv (Datatypes.S i) s') ->
  exists s', for_range start count body s = Ok s' /\ Inv (start + count) s'.
Proof.
  revert start s. induction count as [|count IH]; intros start s Hs Hbody.
  - exists s. rewrite Nat.add_0_r. split; [reflexivity | exact Hs].
  - destruct (Hbody start s ltac:(lia) Hs) as (s1 & Hb & Hs1).
    destruct (IH (Datatypes.S start) s1 Hs1) as (s' & Hrun & Hs').
    { intros i s2 Hi. apply Hbody. lia. }
    exists s'. cbn [for_range]. rewrite Hb. cbn.
    split; [exact Hrun|]. now replace (start + Datatypes.S count) with (Datatypes.S start + count) by lia.
Qed.

Lemma fprod_snoc (xs : list F) (x : F) : fprod (xs ++ [x]) = fprod xs ⊗ x.
Proof. induction xs as [|y xs IH]; simpl; [ring | unfold fprod in *; simpl; rewrite IH; ring]. Qed.

Lemma fmul_nonzero (a b : F) : a <> fzero -> b <> fzero -> a ⊗ b <> fzero.
Proof. intros Ha Hb Hab. apply Hb. now apply (fmul_eq_zero a). Qed.

Lemma fone_nonzero : fone <> (fzero : F).
Proof. apply (F_1_neq_0 F_field). Qed.

Lemma prefix_prod_nonzero (f : nat -> F) (i : nat) :
  (forall l, l < i -> f l <> fzero) -> prefix_prod f i <> fzero.
Proof.
  induction i as [|i IH]; intros Hf; simpl; [apply fone_nonzero|].
  apply fmul_nonzero; [apply IH; intros; apply Hf; lia | apply Hf; lia].
Qed.

Lemma BatchInvert_lookup (a : list F) (i : nat) (x : F) :
  a !! i = Some x -> x <> fzero -> BatchInvert a !! i = Some (finv x).
Proof.
  intros Hi Hx. unfold BatchInvert. rewrite list_lookup_fmap, Hi. cbn.
  destruct (feqb x fzero) eqn:Hz; [|reflexivity].
  apply feqb_eq in Hz. contradiction.
Qed.

Lemma index_Some {A : Type} (l : list A) (i : nat) (x : A) :
  l !! i = Some x -> index l i = Ok x.
Proof. intros Hi. unfold index. now rewrite Hi. Qed.

Lemma deref_Some (st : PStore) (ptr : nat) (P : Polynomial) :
  st !! ptr = Some P -> deref st ptr = Ok P.
Proof. intros Hp. unfold deref. now rewrite Hp. Qed.

Lemma assign_lt {A : Type} (l : list A) (i : nat) (v : A) :
  i < length l -> assign l i v = Ok (<[i := v]> l).
Proof. intros Hi. unfold assign. now replace (i <? length l) with true by (symmetry; now apply Nat.ltb_lt). Qed.

Lemma one_then_zeros_ok (n : nat) :
  0 < n -> exists v, one_then_zeros n = Ok v /\ length v = n /\ v !! 0 = Some fone.
Proof.
  intros Hn. destruct n as [|k]; [lia|].
  exists (fone :: replicate k fzero). simpl. now rewrite length_replicate.
Qed.

End LoopFacts.

(** ** BuildRatioShuffledVectors *)

Section ShuffledFacts.
Context `{FO : FieldOps} {FL : FieldLaws}.
Local Open Scope fr_scope.
Add Field Ffield_r : F_field.

Variable d : Domain.
Hypothesis Hd : Domain_ok d.

Lemma lagranged_refl (st : PStore) : lagranged d st st.
Proof. split; [reflexivity | auto]. Qed.

Lemma lagranged_step (st st' : PStore) (ptr : nat) (P : Polynomial) :
  lagranged d st st' -> st !! ptr = Some P ->
  exists P', st' !! ptr = Some P' /\
    ToLagrange d P' = ToLagrange d P /\
    lagranged d st (<[ptr := ToLagrange d P']> st').
Proof.
  intros [Hlen Hcells] Hp.
  assert (Hlt : ptr < length st') by (rewrite Hlen; eapply lookup_lt_Some; eauto).
  destruct (Hcells ptr P Hp) as [Hsame|Hconv].
  - exists P. split; [exact Hsame|]. split; [reflexivity|].
    split; [now rewrite length_insert|].
    intros q Q Hq. destruct (decide (q = ptr)) as [->|Hne].
    + right. rewrite list_lookup_insert_eq by exact Hlt. congruence.
    + rewrite list_lookup_insert_ne by congruence. auto.
  - exists (ToLagrange d P). split; [exact Hconv|].
    split; [apply ToLagrange_idempotent|].
    split; [now rewrite length_insert|].
    intros q Q Hq. destruct (decide (q = ptr)) as [->|Hne].
    + right. rewrite list_lookup_insert_eq by exact Hlt.
      rewrite ToLagrange_idempotent. congruence.
    + rewrite list_lookup_insert_ne by congruence. auto.
Qed.

Lemma lagranged_converted (st st' : PStore) (ptr q : nat) (P P' Q : Polynomial) :
  lagranged d st st' -> st !! ptr = Some P -> st' !! ptr = Some P' -> st !! q = Some Q ->
  st' !! q = Some (ToLagrange d Q) ->
  <[ptr := ToLagrange d P']> st' !! q = Some (ToLagrange d Q).
Proof.
  intros [Hlen Hcells] Hp Hp' Hq Hconv.
  destruct (decide (q = ptr)) as [->|Hne].
  - rewrite list_lookup_insert_eq by (eapply lookup_lt_Some; eauto).
    assert (P' = ToLagrange d Q) by congruence. subst P'.
    now rewrite ToLagrange_idempotent.
  - now rewrite list_lookup_insert_ne by congruence.
Qed.

(** The conversion loop of [BuildRatioShuffledVectors]. *)
Lemma shuffled_to_lagrange (numerator denominator : list nat) (st : PStore) :
  length numerator = length denominator ->
  (forall ptr, ptr ∈ numerator ++ denominator -> exists P, st !! ptr = Some P) ->
  exists st',
    for_range 0 (length numerator)
      (fun i st =>
         pn ← index numerator i;
         Pn ← deref st pn;
         let st := <[pn := ToLagrange d Pn]> st in
         pd ← index denominator i;
         Pd ← deref st pd;
         Ok (<[pd := ToLagrange d Pd]> st))
      st = Ok st' /\
    lagranged d st st' /\
    forall ptr P, ptr ∈ numerator ++ denominator -> st !! ptr = Some P ->
      st' !! ptr = Some (ToLagrange d P).
Proof.
  intros Hlen Hptrs.
  pose (Inv := fun (i : nat) (sti : PStore) =>
    lagranged d st sti /\
    forall j ptr P, j < i -> (numerator !! j = Some ptr \/ denominator !! j = Some ptr) ->
      st !! ptr = Some P -> sti !! ptr = Some (ToLagrange d P)).
  destruct (for_range_inv Inv 0 (length numerator)
    (fun i st =>
         pn ← index numerator i;
         Pn ← deref st pn;
         let st := <[pn := ToLagrange d Pn]> st in
         pd ← index denominator i;
         Pd ← deref st pd;
         Ok (<[pd := ToLagrange d Pd]> st)) st) as (st' & Hrun & Hlag & Hdone).
  - split; [apply lagranged_refl | intros; lia].
  - intros i sti Hi [Hlag Hdone].
    destruct (lookup_lt_is_Some_2 numerator i ltac:(lia)) as [pn Hpn].
    destruct (lookup_lt_is_Some_2 denominator i ltac:(lia)) as [pd Hpd].
    destruct (Hptrs pn) as [Pn0 HPn0].
    { apply elem_of_app. left. eapply list_elem_of_lookup_2; eauto. }
    destruct (Hptrs pd) as [Pd0 HPd0].
    { apply elem_of_app. right. eapply list_elem_of_lookup_2; eauto. }
    destruct (lagranged_step st sti pn Pn0 Hlag HPn0) as (Pn & HPn & HconvN & Hlag1).
    destruct (lagranged_step st _ pd Pd0 Hlag1 HPd0) as (Pd & HPd & HconvD & Hlag2).
    eexists. split.
    { rewrite (index_Some _ _ _ Hpn). cbn. rewrite (deref_Some _ _ _ HPn). cbn.
      rewrite (index_Some _ _ _ Hpd). cbn. rewrite (deref_Some _ _ _ HPd). cbn.
      reflexivity. }
    split; [exact Hlag2|].
    intros j ptr P Hj Hptr HP.
    assert (Hn1 : <[pn := ToLagrange d Pn]> sti !! pn = Some (ToLagrange d Pn0)).
    { rewrite list_lookup_insert_eq by (eapply lookup_lt_Some; eauto). congruence. }
    assert (Hd1 : forall q Q, st !! q = Some Q ->
              <[pn := ToLagrange d Pn]> sti !! q = Some (ToLagrange d Q) ->
              <[pd := ToLagrange d Pd]> (<[pn := ToLagrange d Pn]> sti) !! q
              = Some (ToLagrange d Q)).
    { intros q Q HQ Hq. eapply (lagranged_converted st); eauto. }
    destruct (decide (j = i)) as [->|Hne].
    + destruct Hptr as [Hptr|Hptr].
      * assert (ptr = pn) by congruence. subst ptr.
        apply Hd1; [exact HP|]. congruence.
      * assert (ptr = pd) by congruence. subst ptr.
        rewrite list_lookup_insert_eq by (eapply lookup_lt_Some; eauto). congruence.
    + apply Hd1; [exact HP|].
      eapply (lagranged_converted st); eauto. apply (Hdone j); auto. lia.
  - exists st'. split; [exact Hrun|]. split; [exact Hlag|].
    intros ptr P Hin HP. apply elem_of_app in Hin.
    destruct Hin as [Hin|Hin]; apply list_elem_of_lookup_1 in Hin as [j Hj].
    + apply (Hdone j); auto. simpl. eapply lookup_lt_Some; eauto.
    + apply (Hdone j); auto. simpl. rewrite Hlen. eapply lookup_lt_Some; eauto.
Qed.

(** The inner loop at step [i], on a store whose polynomials are in
    Lagrange form: the two products over the polynomials. *)
Lemma shuffled_step_ok (st : PStore) (numerator denominator : list nat) (beta : F) (i : nat) :
  length numerator = length denominator ->
  (forall ptr, ptr ∈ numerator ++ denominator ->
     exists P, st !! ptr = Some P /\ fBasis (form P) = Lagrange /\
               length (coefficients P) = Cardinality d) ->
  i < Cardinality d ->
  shuffled_step st numerator denominator beta (Cardinality d) i =
  Ok (fprod (map (fun ptr => beta ⊖ value_at d st ptr i) numerator),
      fprod (map (fun ptr => beta ⊖ value_at d st ptr i) denominator)).
Proof.
  intros Hlen Hptrs Hi. unfold shuffled_step.
  pose (Inv := fun (j : nat) (s : F * F) =>
    s = (fprod (map (fun ptr => beta ⊖ value_at d st ptr i) (take j numerator)),
         fprod (map (fun ptr => beta ⊖ value_at d st ptr i) (take j denominator)))).
  match goal with |- for_range 0 _ ?body _ = _ =>
    destruct (for_range_inv Inv 0 (length numerator) body (fone, fone))
      as (s' & Hrun & Hs') end.
  - reflexivity.
  - intros j [b dd] Hj Hinv. unfold Inv in Hinv. injection Hinv as -> ->.
    destruct (lookup_lt_is_Some_2 numerator j ltac:(lia)) as [pn Hpn].
    destruct (lookup_lt_is_Some_2 denominator j ltac:(lia)) as [pd Hpd].
    destruct (Hptrs pn) as (Pn & HPn & HbN & HlN).
    { apply elem_of_app. left. eapply list_elem_of_lookup_2; eauto. }
    destruct (Hptrs pd) as (Pd & HPd & HbD & HlD).
    { apply elem_of_app. right. eapply list_elem_of_lookup_2; eauto. }
    eexists. split.
    { rewrite (index_Some _ _ _ Hpn). cbn. rewrite (deref_Some _ _ _ HPn). cbn.
      rewrite (coeff_at_value d Hd Pn i HbN HlN Hi). cbn.
      rewrite (index_Some _ _ _ Hpd). cbn. rewrite (deref_Some _ _ _ HPd). cbn.
      rewrite (coeff_at_value d Hd Pd i HbD HlD Hi). cbn. reflexivity. }
    unfold Inv.
    rewrite (take_S_r _ _ _ Hpn), (take_S_r _ _ _ Hpd), !map_app.
    cbn [map]. rewrite !fprod_snoc. unfold value_at. now rewrite HPn, HPd.
  - unfold Inv in Hs'. rewrite Hrun, Hs'. cbn [Nat.add].
    rewrite !take_ge by lia. reflexivity.
Qed.

(** The main loop of [BuildRatioShuffledVectors]: running products of the
    per-step terms [B] and [D]. *)
Lemma ratio_main_loop (n : nat) (step : nat -> outcome (F * F)) (B D : nat -> F)
    (coeffs t : list F) :
  (forall i, i < n - 1 -> step i = Ok (B i, D i)) ->
  length coeffs = n -> length t = n ->
  coeffs !! 0 = Some fone -> t !! 0 = Some fone ->
  exists cs ts,
    for_range 0 (n - 1)
      (fun i '(coeffs, t) =>
         '(b, d) ← step i;
         ci ← index coeffs i;
         coeffs ← assign coeffs (Datatypes.S i) (ci ⊗ b);
         ti ← index t i;
         t ← assign t (Datatypes.S i) (ti ⊗ d);
         Ok (coeffs, t))
      (coeffs, t) = Ok (cs, ts) /\
    length cs = n /\ length ts = n /\
    (forall l, l < n -> cs !! l = Some (prefix_prod B l)) /\
    (forall l, l < n -> ts !! l = Some (prefix_prod D l)).
Proof.
  intros Hstep Hc Ht Hc0 Ht0.
  pose (Inv := fun (i : nat) (s : list F * list F) =>
    length (fst s) = n /\ length (snd s) = n /\
    (forall l, l <= i -> l < n -> fst s !! l = Some (prefix_prod B l)) /\
    (forall l, l <= i -> l < n -> snd s !! l = Some (prefix_prod D l))).
  match goal with |- exists _ _, for_range 0 _ ?body _ = _ /\ _ =>
    destruct (for_range_inv Inv 0 (n - 1) body (coeffs, t))
      as ([cs ts] & Hrun & Hlc & Hlt & Hcs & Hts) end.
  - repeat split; cbn [fst snd]; try assumption;
      intros l Hl _; assert (l = 0) by lia; subst l; assumption.
  - intros i [ci ti] Hi (Hlc & Hlt & Hcs & Hts). cbn [fst snd] in *.
    eexists. split.
    { rewrite (Hstep i) by lia. cbn.
      rewrite (index_Some _ _ _ (Hcs i ltac:(lia) ltac:(lia))). cbn.
      rewrite assign_lt by lia. cbn.
      rewrite (index_Some _ _ _ (Hts i ltac:(lia) ltac:(lia))). cbn.
      rewrite assign_lt by lia. cbn. reflexivity. }
    repeat split; cbn [fst snd]; rewrite ?length_insert; try assumption.
    + intros l Hl Hln. destruct (decide (l = Datatypes.S i)) as [->|Hne].
      * rewrite list_lookup_insert_eq by lia. reflexivity.
      * rewrite list_lookup_insert_ne by congruence. apply Hcs; lia.
    + intros l Hl Hln. destruct (decide (l = Datatypes.S i)) as [->|Hne].
      * rewrite list_lookup_insert_eq by lia. reflexivity.
      * rewrite list_lookup_insert_ne by congruence. apply Hts; lia.
  - cbn [fst snd] in *. exists cs, ts. repeat split; try assumption.
    + intros l Hl. apply Hcs; lia.
    + intros l Hl. apply Hts; lia.
Qed.

(** The last loop: the pointwise products from index 1 on. *)
Lemma mul_pointwise_from1_ok (coeffs t : list F) :
  length t = length coeffs ->
  exists r,
    mul_pointwise_from1 coeffs t = Ok r /\
    length r = length coeffs /\
    r !! 0 = coeffs !! 0 /\
    (forall l, 1 <= l < length coeffs -> r !! l = Some ((coeffs !!! l) ⊗ (t !!! l))).
Proof.
  intros Ht. unfold mul_pointwise_from1.
  pose (Inv := fun (i : nat) (r : list F) =>
    length r = length coeffs /\
    (forall l, 1 <= l < i -> l < length coeffs ->
       r !! l = Some ((coeffs !!! l) ⊗ (t !!! l))) /\
    (forall l, l = 0 \/ i <= l -> r !! l = coeffs !! l)).
  match goal with |- exists _, for_range 1 _ ?body _ = _ /\ _ =>
    destruct (for_range_inv Inv 1 (length coeffs - 1) body coeffs)
      as (r & Hrun & Hlr & Hdone & Hrest) end.
  - repeat split; auto; intros; lia.
  - intros i r Hi (Hlr & Hdone & Hrest).
    assert (Hri : r !! i = Some (coeffs !!! i)).
    { rewrite Hrest by lia. apply list_lookup_lookup_total_lt. lia. }
    assert (Hti : t !! i = Some (t !!! i)).
    { apply list_lookup_lookup_total_lt. lia. }
    eexists. split.
    { rewrite (index_Some _ _ _ Hri). cbn. rewrite (index_Some _ _ _ Hti). cbn.
      apply assign_lt. lia. }
    repeat split; rewrite ?length_insert; try assumption.
    + intros l Hl Hln. destruct (decide (l = i)) as [->|Hne].
      * rewrite list_lookup_insert_eq by lia. reflexivity.
      * rewrite list_lookup_insert_ne by congruence. apply Hdone; lia.
    + intros l Hl. rewrite list_lookup_insert_ne by lia. apply Hrest. lia.
  - exists r. repeat split; try assumption.
    + apply Hrest. now left.
    + intros l Hl. apply Hdone; lia.
Qed.

Lemma land_pow2_pred (k : nat) : Z.land (2 ^ Z.of_nat k) (2 ^ Z.of_nat k - 1) = 0%Z.
Proof.
  replace (2 ^ Z.of_nat k - 1)%Z with (Z.ones (Z.of_nat k))
    by (rewrite Z.ones_equiv; lia).
  rewrite Z.land_ones by lia.
  apply Z.mod_same. apply Z.pow_nonzero; lia.
Qed.

Lemma buildDomain_ok (newDomain : nat -> Domain) (domain : option Domain) :
  default (newDomain (Cardinality d)) domain = d ->
  buildDomain newDomain (Cardinality d) domain = Ok d.
Proof.
  intros Hdom. unfold buildDomain.
  destruct Hd as ((k & Hk & Hn) & _).
  replace (Z.of_nat (Cardinality d)) with (2 ^ Z.of_nat k)%Z
    by (rewrite Hn, Nat2Z.inj_pow; reflexivity).
  rewrite land_pow2_pred. cbn [Z.eqb negb].
  assert (Heff : match domain with Some d0 => d0 | None => newDomain (Cardinality d) end = d)
    by (destruct domain; exact Hdom).
  rewrite Heff. now rewrite Nat.eqb_refl.
Qed.

(** [checkSize] on two lists of at least two polynomials whose first two
    have the length of the first. *)
Lemma checkSize_two (st : PStore) (numerator denominator : list nat) (n : nat) :
  2 <= length numerator -> 2 <= length denominator ->
  (forall ptr, ptr ∈ numerator ++ denominator ->
     exists P, st !! ptr = Some P /\ length (coefficients P) = n) ->
  checkSize st [numerator; denominator] = Ok tt.
Proof.
  intros Hn Hdn Hptrs.
  destruct numerator as [|p0 [|p1 num]]; simpl in Hn; try lia.
  destruct denominator as [|q0 [|q1 den]]; simpl in Hdn; try lia.
  destruct (Hptrs p0) as (P0 & HP0 & Hl0); [apply elem_of_app; left; repeat constructor|].
  destruct (Hptrs p1) as (P1 & HP1 & Hl1); [apply elem_of_app; left; repeat constructor|].
  destruct (Hptrs q0) as (Q0 & HQ0 & Hm0); [apply elem_of_app; right; repeat constructor|].
  destruct (Hptrs q1) as (Q1 & HQ1 & Hm1); [apply elem_of_app; right; repeat constructor|].
  unfold checkSize, index, deref. cbn.
  rewrite HP0. cbn. rewrite HP1. cbn. rewrite HQ0. cbn. rewrite HQ1. cbn.
  now rewrite Hl0, Hl1, Hm0, Hm1, !Nat.eqb_refl.
Qed.

Lemma fprod_map_nonzero {A : Type} (f : A -> F) (xs : list A) :
  (forall x, x ∈ xs -> f x <> fzero) -> fprod (map f xs) <> fzero.
Proof.
  induction xs as [|x xs IH]; intros Hf; simpl; [apply fone_nonzero|].
  apply fmul_nonzero; [apply Hf; set_solver | apply IH; intros; apply Hf; set_solver].
Qed.

Lemma map_value_at_ext (st st' : PStore) (beta : F) (i : nat) (ptrs : list nat) :
  (forall ptr, ptr ∈ ptrs -> value_at d st' ptr i = value_at d st ptr i) ->
  map (fun ptr => beta ⊖ value_at d st' ptr i) ptrs =
  map (fun ptr => beta ⊖ value_at d st ptr i) ptrs.
Proof.
  induction ptrs as [|p ptrs IH]; intros Hv; simpl; [reflexivity|].
  rewrite Hv, IH by (intros; try apply Hv; set_solver). reflexivity.
Qed.

(** The accumulating ratio of [BuildRatioShuffledVectors], for lists of at
    least two polynomials: the polynomial returned has value 1 at [ω^0],
    and its value at [ω^(j+1)] is its value at [ω^j] times the product of
    the [β - numerator_k(ω^j)] over the product of the
    [β - denominator_k(ω^j)]. *)
Theorem BuildRatioShuffledVectors_recurrence
    (newDomain : nat -> Domain) (numerator denominator : list nat) (beta : F)
    (expectedForm : Form) (domain : option Domain) (st : PStore) :
  default (newDomain (Cardinality d)) domain = d ->
  length numerator = length denominator ->
  2 <= length numerator ->
  (forall ptr, ptr ∈ numerator ++ denominator ->
     exists P, st !! ptr = Some P /\ length (coefficients P) = Cardinality d) ->
  (forall j ptr, j < Cardinality d - 1 -> ptr ∈ denominator ->
     beta ⊖ value_at d st ptr j <> fzero) ->
  exists (Z : Polynomial) (st' : PStore),
    BuildRatioShuffledVectors newDomain numerator denominator beta expectedForm domain st
      = Ok (Z, st') /\
    length (values_on d Z) = Cardinality d /\
    values_on d Z !! 0 = Some fone /\
    forall j, j + 1 < Cardinality d ->
      values_on d Z !!! (j + 1) =
      (values_on d Z !!! j)
      ⊗ fprod (map (fun ptr => beta ⊖ value_at d st ptr j) numerator)
      ⊗ finv (fprod (map (fun ptr => beta ⊖ value_at d st ptr j) denominator)).
Proof.
  intros Hdom Hlen Hm Hptrs Hnz.
  set (n := Cardinality d).
  assert (Hn : 0 < n).
  { destruct Hd as ((k & _ & Hk) & _). unfold n. rewrite Hk.
    apply Nat.neq_0_lt_0, Nat.pow_nonzero. lia. }
  set (B := fun j => fprod (map (fun ptr => beta ⊖ value_at d st ptr j) numerator)).
  set (D := fun j => fprod (map (fun ptr => beta ⊖ value_at d st ptr j) denominator)).
  (* the stages *)
  destruct (shuffled_to_lagrange numerator denominator st Hlen) as (st1 & Hconv & Hlag & Hst1).
  { intros ptr Hin. destruct (Hptrs ptr Hin) as (P & HP & _). eauto. }
  assert (Hst1' : forall ptr, ptr ∈ numerator ++ denominator ->
            exists P, st1 !! ptr = Some P /\ fBasis (form P) = Lagrange /\
                      length (coefficients P) = Cardinality d).
  { intros ptr Hin. destruct (Hptrs ptr Hin) as (P & HP & HlP).
    exists (ToLagrange d P). split; [now apply Hst1|].
    split; [apply ToLagrange_basis | now apply ToLagrange_length]. }
  assert (Hval : forall ptr i, ptr ∈ numerator ++ denominator ->
            value_at d st1 ptr i = value_at d st ptr i).
  { intros ptr i Hin. destruct (Hptrs ptr Hin) as (P & HP & HlP).
    unfold value_at. rewrite (Hst1 ptr P Hin HP), HP.
    now rewrite ToLagrange_values. }
  assert (Hstep : forall i, i < n - 1 ->
            shuffled_step st1 numerator denominator beta n i = Ok (B i, D i)).
  { intros i Hi. unfold n. rewrite shuffled_step_ok by (try assumption; unfold n in *; lia).
    unfold B, D.
    rewrite !(map_value_at_ext st st1); [reflexivity| |];
      intros ptr Hin; apply Hval; set_solver. }
  destruct (one_then_zeros_ok n Hn) as (v0 & Hv0 & Hv0len & Hv00).
  destruct (ratio_main_loop n (shuffled_step st1 numerator denominator beta n) B D v0 v0
              Hstep Hv0len Hv0len Hv00 Hv00) as (cs & ts & Hmain & Hcl & Htl & Hcs & Hts).
  destruct (mul_pointwise_from1_ok cs (BatchInvert ts)) as (r & Hmul & Hrl & Hr0 & Hr).
  { unfold BatchInvert. rewrite length_map. congruence. }
  assert (HDnz : forall l, l < n -> prefix_prod D l <> fzero).
  { intros l Hl. apply prefix_prod_nonzero. intros j Hj. unfold D.
    apply fprod_map_nonzero. intros ptr Hptr.
    apply Hnz; [unfold n in *; lia | exact Hptr]. }
  assert (Hrv : forall l, l < n -> r !!! l = prefix_prod B l ⊗ finv (prefix_prod D l)).
  { intros l Hl. apply list_lookup_total_correct.
    destruct l as [|l].
    - rewrite Hr0, (Hcs 0 Hn). cbn. f_equal. field. apply fone_nonzero.
    - rewrite Hr by lia.
      rewrite (list_lookup_total_correct _ _ _ (Hcs _ Hl)).
      rewrite (list_lookup_total_correct _ _ _
                 (BatchInvert_lookup ts _ _ (Hts _ Hl) (HDnz _ Hl))).
      reflexivity. }
  (* the function *)
  destruct numerator as [|p0 numerator']; [simpl in Hm; lia|].
  destruct (Hptrs p0) as (P0 & HP0 & HlP0); [set_solver|].
  eexists _, st1. split.
  { unfold BuildRatioShuffledVectors.
    rewrite Hlen, Nat.eqb_refl. cbn [negb].
    rewrite (checkSize_two st (p0 :: numerator') denominator (Cardinality d))
      by (try assumption; lia).
    cbn [mbind outcome_bind obind].
    replace (index (p0 :: numerator') 0) with (Ok p0) by reflexivity.
    cbn [mbind outcome_bind obind]. rewrite (deref_Some _ _ _ HP0).
    cbn [mbind outcome_bind obind]. rewrite HlP0.
    rewrite (buildDomain_ok newDomain domain Hdom).
    cbn [mbind outcome_bind obind].
    rewrite <- Hlen. cbv zeta in Hconv. rewrite Hconv. cbn [mbind outcome_bind obind].
    fold n. rewrite Hv0. cbn [mbind outcome_bind obind].
    rewrite Hmain. cbn [mbind outcome_bind obind].
    rewrite Hmul. cbn [mbind outcome_bind obind]. reflexivity. }
  assert (Hrn : length r = Cardinality d) by (unfold n in *; congruence).
  rewrite putInExpectedForm_values by assumption.
  split; [exact Hrn|]. split.
  - rewrite Hr0, (Hcs 0 Hn). reflexivity.
  - intros j Hj. rewrite !Hrv by (unfold n; lia).
    replace (j + 1) with (Datatypes.S j) by lia. cbn [prefix_prod].
    fold (B j) (D j).
    assert (Hdj : D j <> fzero).
    { unfold D. apply fprod_map_nonzero. intros ptr Hptr.
      apply Hnz; [lia | exact Hptr]. }
    pose proof (HDnz j ltac:(unfold n; lia)) as Hpj.
    field. split; assumption.
Qed.

End ShuffledFacts.

(** ** BuildRatioCopyConstraint *)

Section CopyFacts.
Context `{FO : FieldOps} {FL : FieldLaws}.
Local Open Scope fr_scope.
Add Field Ffield_c : F_field.

Variable d : Domain.
Hypothesis Hd : Domain_ok d.

(** The conversion loop of [BuildRatioCopyConstraint]. *)
Lemma to_lagrange_all_ok (st0 : PStore) (ptrs : list nat) (st : PStore) :
  lagranged d st0 st ->
  (forall ptr, ptr ∈ ptrs -> exists P, st0 !! ptr = Some P) ->
  exists st',
    to_lagrange_all d ptrs st = Ok st' /\
    lagranged d st0 st' /\
    (forall q Q, st0 !! q = Some Q -> st !! q = Some (ToLagrange d Q) ->
       st' !! q = Some (ToLagrange d Q)) /\
    (forall ptr P, ptr ∈ ptrs -> st0 !! ptr = Some P ->
       st' !! ptr = Some (ToLagrange d P)).
Proof.
  revert st. induction ptrs as [|ptr ptrs IH]; intros st Hlag Hptrs.
  - exists st. repeat split; try assumption; try apply Hlag; auto.
    intros ptr P Hin. set_solver.
  - destruct (Hptrs ptr) as [P0 HP0]; [set_solver|].
    destruct (lagranged_step d st0 st ptr P0 Hlag HP0) as (P & HP & Hconv & Hlag1).
    destruct (IH (<[ptr := ToLagrange d P]> st) Hlag1) as (st' & Hrun & Hlag' & Hkeep & Hdone).
    { intros q Hq. apply Hptrs. set_solver. }
    exists st'. cbn [to_lagrange_all]. rewrite (deref_Some _ _ _ HP). cbn.
    split; [exact Hrun|]. split; [exact Hlag'|]. split.
    + intros q Q HQ Hq. apply Hkeep; [exact HQ|].
      eapply (lagranged_converted d st0); eauto.
    + intros q Q Hin HQ. apply elem_of_cons in Hin as [->|Hin].
      * apply Hkeep; [exact HQ|].
        rewrite list_lookup_insert_eq by (eapply lookup_lt_Some; eauto). congruence.
      * now apply Hdone.
Qed.

(** [getSupportIdentityPermutation] returns a table of [nbCopies * n]
    elements on a domain of at least two points. *)
Lemma getSupportIdentityPermutation_ok (nbCopies : nat) :
  1 <= nbCopies -> 2 <= Cardinality d -> Twiddles d <> [] ->
  exists id, getSupportIdentityPermutation nbCopies d = Ok id /\
             length id = nbCopies * Cardinality d.
Proof.
  intros Hm Hn Htw. unfold getSupportIdentityPermutation.
  set (n := Cardinality d) in *.
  destruct (Twiddles d) as [|tw0 tws] eqn:Htws; [congruence|].
  cbn [index lookup list_lookup mbind outcome_bind obind].
  set (res0 := list_inserts 0 _ _).
  assert (Hres0 : length res0 = nbCopies * n).
  { unfold res0. now rewrite length_inserts, length_replicate. }
  assert (Hstart : (0 <= Z.of_nat n / 2 - 1)%Z).
  { assert (1 <= Z.of_nat n / 2)%Z; [|lia]. apply Z.div_le_lower_bound; lia. }
  replace ((Z.of_nat n / 2 - 1 <? 0)%Z) with false by (symmetry; apply Z.ltb_ge; lia).
  cbn [andb].
  pose (Inv := fun (_ : nat) (res : list F) => length res = nbCopies * n).
  match goal with |- exists _, (for_range ?a ?c ?body ?s ≫= _) = _ /\ _ =>
    destruct (for_range_inv Inv a c body s) as (res1 & Hrun1 & Hres1) end.
  - exact Hres0.
  - intros i res Hi Hres. unfold Inv in *.
    assert (Hin : Datatypes.S i < n).
    { assert (Z.of_nat n / 2 <= Z.of_nat n)%Z by (apply Z.div_le_upper_bound; lia). lia. }
    destruct (lookup_lt_is_Some_2 res i ltac:(nia)) as [ri Hri].
    eexists. split.
    { rewrite (index_Some _ _ _ Hri). cbn. apply assign_lt. nia. }
    now rewrite length_insert.
  - rewrite Hrun1. cbn [mbind outcome_bind obind]. unfold Inv in Hres1.
    destruct (nbCopies <=? 1); [eauto|].
    match goal with |- exists _, for_range ?a ?c ?body ?s = _ /\ _ =>
      destruct (for_range_inv Inv a c body s) as (res2 & Hrun2 & Hres2) end.
    + exact Hres1.
    + intros i res Hi Hres. unfold Inv in *.
      assert (Hcoset : exists coset,
        (if i =? 1 then Ok (FrMultiplicativeGen d)
         else if i <? length (CosetTable d) then index (CosetTable d) i
         else Ok (fpow (FrMultiplicativeGen d) i)) = Ok coset).
      { destruct (i =? 1); [eauto|].
        destruct (i <? length (CosetTable d)) eqn:Hct; [|eauto].
        apply Nat.ltb_lt in Hct.
        destruct (lookup_lt_is_Some_2 _ _ Hct) as [c Hc].
        exists c. now apply index_Some. }
      destruct Hcoset as [coset ->]. cbn [mbind outcome_bind obind].
      match goal with |- exists _, for_range ?a ?c ?body ?s = _ /\ _ =>
        destruct (for_range_inv Inv a c body s) as (res3 & Hrun3 & Hres3) end.
      * exact Hres.
      * intros j r Hj Hr. unfold Inv in *.
        destruct (lookup_lt_is_Some_2 r j ltac:(nia)) as [rj Hrj].
        eexists. split.
        { rewrite (index_Some _ _ _ Hrj). cbn. apply assign_lt. fold n. nia. }
        now rewrite length_insert.
      * eauto.
    + eauto.
Qed.

(** With the identity permutation, the two products of a step are the
    same element; it is not zero when no factor is. *)
Lemma copy_step_identity (st : PStore) (entries : list nat) (permutation : list Z)
    (beta gamma : F) (id : list F) (i : nat) :
  (forall ptr, ptr ∈ entries ->
     exists P, st !! ptr = Some P /\ fBasis (form P) = Lagrange /\
               length (coefficients P) = Cardinality d) ->
  length id = length entries * Cardinality d ->
  (forall idx, idx < length entries * Cardinality d ->
     permutation !! idx = Some (Z.of_nat idx)) ->
  i < Cardinality d ->
  (forall j ptr, entries !! j = Some ptr ->
     beta ⊗ (id !!! (i + j * Cardinality d)%nat) ⊕ gamma ⊕ value_at d st ptr i <> fzero) ->
  exists b, copy_step st entries permutation beta gamma id (Cardinality d) i = Ok (b, b) /\
            b <> fzero.
Proof.
  intros Hptrs Hid Hperm Hi Hnz. unfold copy_step.
  set (n := Cardinality d) in *.
  pose (Inv := fun (_ : nat) (s : F * F) => fst s = snd s /\ fst s <> fzero).
  match goal with |- exists _, for_range 0 _ ?body _ = _ /\ _ =>
    destruct (for_range_inv Inv 0 (length entries) body (fone, fone))
      as ([b dd] & Hrun & Heq & Hb) end.
  - split; [reflexivity | apply fone_nonzero].
  - intros j [b dd] Hj [Heq Hb]. cbn [fst snd] in *. subst dd.
    destruct (lookup_lt_is_Some_2 entries j ltac:(lia)) as [ptr Hptr].
    destruct (Hptrs ptr) as (P & HP & HbP & HlP).
    { eapply list_elem_of_lookup_2; eauto. }
    assert (Hidx : i + j * n < length entries * n) by nia.
    destruct (lookup_lt_is_Some_2 id (i + j * n) ltac:(lia)) as [e He].
    eexists. split.
    { rewrite (index_Some _ _ _ Hptr). cbn. rewrite (deref_Some _ _ _ HP). cbn.
      rewrite (index_Some _ _ _ He). cbn.
      unfold n. rewrite (coeff_at_value d Hd P i HbP HlP Hi). cbn.
      fold n. rewrite (index_Some _ _ _ (Hperm _ Hidx)). cbn.
      unfold indexZ.
      replace (Z.of_nat (i + j * n) <? 0)%Z with false by (symmetry; apply Z.ltb_ge; lia).
      rewrite Nat2Z.id, (index_Some _ _ _ He). cbn. reflexivity. }
    split; [reflexivity|]. cbn [fst].
    apply fmul_nonzero; [exact Hb|].
    specialize (Hnz j ptr Hptr). unfold value_at in Hnz. rewrite HP in Hnz.
    now rewrite (list_lookup_total_correct _ _ _ He) in Hnz.
  - cbn [fst snd] in *. subst dd. exists b. now rewrite Hrun.
Qed.

(** The main loop of [BuildRatioCopyConstraint] when each step yields the
    same element twice: the two vectors stay equal. *)
Lemma copy_main_loop (n : nat) (step : nat -> outcome (F * F)) (v0 : list F) :
  (forall i, i < n - 1 -> exists b, step i = Ok (b, b) /\ b <> fzero) ->
  length v0 = n ->
  (forall l, l < n -> exists x, v0 !! l = Some x /\ (l = 0 -> x = fone)) ->
  exists cs,
    for_range 0 (n - 1)
      (fun i '(coeffs, t) =>
         '(b, d) ← step i;
         coeffs ← assign coeffs (Datatypes.S i) b;
         t ← assign t (Datatypes.S i) d;
         Ok (coeffs, t))
      (v0, v0) = Ok (cs, cs) /\
    length cs = n /\
    (0 < n -> cs !! 0 = Some fone) /\
    (forall l, l < n -> exists x, cs !! l = Some x /\ x <> fzero).
Proof.
  intros Hstep Hlen Hv0.
  pose (Inv := fun (i : nat) (s : list F * list F) =>
    fst s = snd s /\ length (fst s) = n /\
    (0 < n -> fst s !! 0 = Some fone) /\
    (forall l, l <= i -> l < n -> exists x, fst s !! l = Some x /\ x <> fzero)).
  match goal with |- exists _, for_range 0 _ ?body _ = _ /\ _ =>
    destruct (for_range_inv Inv 0 (n - 1) body (v0, v0))
      as ([cs ts] & Hrun & Heq & Hl & H0 & Hnz) end.
  - repeat split; cbn [fst snd]; try assumption.
    + intros Hn. destruct (Hv0 0 Hn) as (x & Hx & Hone). now rewrite Hx, Hone.
    + intros l Hl Hln. assert (l = 0) by lia. subst l.
      destruct (Hv0 0 Hln) as (x & Hx & Hone). exists x. split; [exact Hx|].
      rewrite Hone by reflexivity. apply fone_nonzero.
  - intros i [cs ts] Hi (Heq & Hl & H0 & Hnz). cbn [fst snd] in *. subst ts.
    destruct (Hstep i ltac:(lia)) as (b & Hb & Hbnz).
    eexists. split.
    { rewrite Hb. cbn. rewrite assign_lt by lia. cbn. reflexivity. }
    repeat split; cbn [fst snd]; rewrite ?length_insert; try assumption.
    + intros Hn. rewrite list_lookup_insert_ne by lia. now apply H0.
    + intros l Hle Hln. destruct (decide (l = Datatypes.S i)) as [->|Hne].
      * exists b. now rewrite list_lookup_insert_eq by lia.
      * rewrite list_lookup_insert_ne by congruence. apply Hnz; lia.
  - cbn [fst snd] in *. subst ts. exists cs. repeat split; try assumption.
    intros l Hln. apply Hnz; lia.
Qed.

Lemma prefix_products_ok (v : list F) :
  (0 < length v -> v !! 0 = Some fone) ->
  (forall l, l < length v -> exists x, v !! l = Some x /\ x <> fzero) ->
  exists r, prefix_products v = Ok r /\ length r = length v /\
    (0 < length v -> r !! 0 = Some fone) /\
    (forall l, l < length v -> exists x, r !! l = Some x /\ x <> fzero).
Proof.
  intros H0 Hnz. unfold prefix_products.
  pose (Inv := fun (_ : nat) (r : list F) =>
    length r = length v /\
    (0 < length v -> r !! 0 = Some fone) /\
    (forall l, l < length v -> exists x, r !! l = Some x /\ x <> fzero)).
  match goal with |- exists _, for_range 2 _ ?body _ = _ /\ _ =>
    destruct (for_range_inv Inv 2 (length v - 2) body v) as (r & Hrun & Hr) end.
  - repeat split; assumption.
  - intros i r Hi (Hl & Hr0 & Hrnz).
    destruct (Hrnz i ltac:(lia)) as (x & Hx & Hxnz).
    destruct (Hrnz (i - 1) ltac:(lia)) as (y & Hy & Hynz).
    eexists. split.
    { rewrite (index_Some _ _ _ Hx). cbn. rewrite (index_Some _ _ _ Hy). cbn.
      apply assign_lt. lia. }
    repeat split; rewrite ?length_insert; try assumption.
    + intros Hn. rewrite list_lookup_insert_ne by lia. now apply Hr0.
    + intros l Hln. destruct (decide (l = i)) as [->|Hne].
      * exists (x ⊗ y). rewrite list_lookup_insert_eq by lia.
        split; [reflexivity | now apply fmul_nonzero].
      * rewrite list_lookup_insert_ne by congruence. now apply Hrnz.
  - exists r. now rewrite Hrun.
Qed.

(** Dividing a vector of elements that are not zero by itself, from index
    1 on, leaves ones. *)
Lemma self_ratio_ones (cs : list F) :
  (0 < length cs -> cs !! 0 = Some fone) ->
  (forall l, l < length cs -> exists x, cs !! l = Some x /\ x <> fzero) ->
  for_range 1 (length cs - 1)
    (fun i r => c ← index r i; ti ← index (BatchInvert (drop 1 cs)) (i - 1);
                assign r i (c ⊗ ti))
    cs = Ok (replicate (length cs) fone).
Proof.
  intros H0 Hnz.
  pose (Inv := fun (i : nat) (r : list F) =>
    length r = length cs /\
    (forall l, l < i -> l < length cs -> r !! l = Some fone) /\
    (forall l, i <= l -> r !! l = cs !! l)).
  match goal with |- for_range 1 _ ?body _ = _ =>
    destruct (for_range_inv Inv 1 (length cs - 1) body cs) as (r & Hrun & Hl & Hones & _) end.
  - split; [reflexivity|]. split; [|auto].
    intros l Hl Hln. assert (l = 0) by lia. subst l. apply H0. lia.
  - intros i r Hi (Hl & Hones & Hrest).
    destruct (Hnz i ltac:(lia)) as (x & Hx & Hxnz).
    assert (Hinv : BatchInvert (drop 1 cs) !! (i - 1) = Some (finv x)).
    { apply BatchInvert_lookup; [|exact Hxnz].
      rewrite lookup_drop. now replace (1 + (i - 1)) with i by lia. }
    eexists. split.
    { rewrite (index_Some r i x) by (rewrite Hrest by lia; exact Hx). cbn.
      rewrite (index_Some _ _ _ Hinv). cbn. apply assign_lt. lia. }
    repeat split; rewrite ?length_insert; try assumption.
    + intros l Hli Hln. destruct (decide (l = i)) as [->|Hne].
      * rewrite list_lookup_insert_eq by lia. f_equal. now field.
      * rewrite list_lookup_insert_ne by congruence. apply Hones; lia.
    + intros l Hli. rewrite list_lookup_insert_ne by lia. apply Hrest. lia.
  - rewrite Hrun. f_equal. apply list_eq. intros l.
    destruct (decide (l < length cs)) as [Hlt|Hge].
    + rewrite lookup_replicate_2 by lia. apply Hones; lia.
    + rewrite !lookup_ge_None_2; [reflexivity| |]; rewrite ?length_replicate; lia.
Qed.

(** C8 (amended): with the identity permutation, and when no factor
    [entry_k(ω^i) + β id(k, i) + γ] of a step is zero, the polynomial
    [BuildRatioCopyConstraint] returns has value 1 at every point of the
    domain. *)
Theorem BuildRatioCopyConstraint_identity
    (newDomain : nat -> Domain) (entries : list nat) (permutation : list Z)
    (beta gamma : F) (expectedForm : Form) (domain : option Domain) (st : PStore) :
  default (newDomain (Cardinality d)) domain = d ->
  2 <= Cardinality d ->
  Twiddles d <> [] ->
  entries <> [] ->
  (forall ptr, ptr ∈ entries ->
     exists P, st !! ptr = Some P /\ length (coefficients P) = Cardinality d) ->
  (forall idx, idx < length entries * Cardinality d ->
     permutation !! idx = Some (Z.of_nat idx)) ->
  (forall id i j ptr,
     getSupportIdentityPermutation (length entries) d = Ok id ->
     i < Cardinality d - 1 -> entries !! j = Some ptr ->
     beta ⊗ (id !!! (i + j * Cardinality d)%nat) ⊕ gamma ⊕ value_at d st ptr i <> fzero) ->
  exists (Z : Polynomial) (st' : PStore),
    BuildRatioCopyConstraint newDomain entries permutation beta gamma expectedForm domain st
      = Ok (Z, st') /\
    values_on d Z = replicate (Cardinality d) fone.
Proof.
  intros Hdom Hn Htw Hne Hptrs Hperm Hnz.
  set (n := Cardinality d) in *.
  destruct entries as [|p0 rest] eqn:Hentries; [congruence|]. rewrite <- Hentries in *.
  destruct (Hptrs p0) as (P0 & HP0 & HlP0); [rewrite Hentries; set_solver|].
  destruct (to_lagrange_all_ok st entries st (lagranged_refl d st))
    as (st1 & Hconv & Hlag & _ & Hst1).
  { intros ptr Hin. destruct (Hptrs ptr Hin) as (P & HP & _). eauto. }
  assert (Hst1' : forall ptr, ptr ∈ entries ->
            exists P, st1 !! ptr = Some P /\ fBasis (form P) = Lagrange /\
                      length (coefficients P) = Cardinality d).
  { intros ptr Hin. destruct (Hptrs ptr Hin) as (P & HP & HlP).
    exists (ToLagrange d P). split; [now apply Hst1|].
    split; [apply ToLagrange_basis | now apply ToLagrange_length]. }
  assert (Hval : forall ptr i, ptr ∈ entries ->
            value_at d st1 ptr i = value_at d st ptr i).
  { intros ptr i Hin. destruct (Hptrs ptr Hin) as (P & HP & HlP).
    unfold value_at. rewrite (Hst1 ptr P Hin HP), HP.
    now rewrite ToLagrange_values. }
  destruct (getSupportIdentityPermutation_ok (length entries))
    as (id & Hid & Hidlen); try assumption.
  { rewrite Hentries. simpl. lia. }
  assert (Hstep : forall i, i < n - 1 ->
            exists b, copy_step st1 entries permutation beta gamma id n i = Ok (b, b) /\
                      b <> fzero).
  { intros i Hi. apply copy_step_identity; try assumption; [unfold n in *; lia|].
    intros j ptr Hptr. rewrite Hval by (eapply list_elem_of_lookup_2; eauto).
    now apply Hnz. }
  destruct (one_then_zeros_ok n ltac:(lia)) as (v0 & Hv0 & Hv0len & Hv00).
  destruct (copy_main_loop n (copy_step st1 entries permutation beta gamma id n) v0 Hstep Hv0len)
    as (cs & Hmain & Hcl & Hc0 & Hcnz).
  { intros l Hl. destruct (lookup_lt_is_Some_2 v0 l ltac:(lia)) as [x Hx].
    exists x. split; [exact Hx|]. intros ->. congruence. }
  destruct (prefix_products_ok cs) as (cs' & Hpre & Hcl' & Hc0' & Hcnz').
  { rewrite Hcl. exact Hc0. }
  { rewrite Hcl. exact Hcnz. }
  pose proof (self_ratio_ones cs') as Hones.
  rewrite Hcl', Hcl in Hones.
  eexists _, st1. split.
  { unfold BuildRatioCopyConstraint.
    rewrite Hentries at 1. rewrite (checkSize_entries st p0 rest P0 HP0).
    cbn [mbind outcome_bind obind].
    replace (index entries 0) with (Ok p0) by (rewrite Hentries; reflexivity).
    cbn [mbind outcome_bind obind]. rewrite (deref_Some _ _ _ HP0).
    cbn [mbind outcome_bind obind]. rewrite HlP0.
    pose proof (buildDomain_ok d Hd newDomain domain Hdom) as Hbd. fold n in Hbd.
    rewrite Hbd. cbn [mbind outcome_bind obind].
    rewrite Hconv. cbn [mbind outcome_bind obind].
    rewrite Hid. cbn [mbind outcome_bind obind].
    rewrite Hv0. cbn [mbind outcome_bind obind].
    rewrite Hmain. cbn [mbind outcome_bind obind].
    rewrite Hpre. cbn [mbind outcome_bind obind].
    rewrite Hones.
    - cbn [mbind outcome_bind obind]. reflexivity.
    - intros _. apply Hc0'. lia.
    - intros l Hl. apply Hcnz'. lia. }
  apply (putInExpectedForm_values d Hd). now rewrite length_replicate.
Qed.

End CopyFacts.

(** ** The SRS and Commit: values, outcomes, linearity *)

Section LinearityFacts.
Context `{FO : FieldOps} {FL : FieldLaws}.
Context {G : Type} `{!FModule G} {ML : ModuleLaws G}.
Local Open Scope fr_scope.
Add Field Ffield_ml : F_field.

Lemma gadd_interchange (A B C D : G) : (A ⊞ B) ⊞ (C ⊞ D) = (A ⊞ C) ⊞ (B ⊞ D).
Proof.
  rewrite <- (gadd_assoc A B (C ⊞ D)), (gadd_assoc B C D), (gadd_comm B C).
  now rewrite <- (gadd_assoc C B D), (gadd_assoc A C (B ⊞ D)).
Qed.

Lemma smul_zero_r (a : F) : a • (gzero : G) = gzero.
Proof.
  apply (gadd_cancel_l (a • gzero)).
  rewrite <- smul_add_r, !gadd_zero_r. reflexivity.
Qed.

Lemma gneg_zero : gneg (gzero : G) = gzero.
Proof. rewrite <- (gadd_zero_l (gneg gzero)). apply gadd_neg. Qed.

Lemma msm_add_scalars (pts : list G) (p q : list F) :
  length p = length q ->
  msm pts (zip_with fadd p q) = msm pts p ⊞ msm pts q.
Proof.
  revert p q. induction pts as [|P pts IH]; intros p q Hlen.
  - simpl. now rewrite gadd_zero_l.
  - destruct p as [|a p], q as [|b q]; simpl in Hlen; try discriminate.
    + simpl. now rewrite gadd_zero_l.
    + simpl. rewrite IH by lia. rewrite smul_add_l. apply gadd_interchange.
Qed.

Lemma msm_scale (c : F) (pts : list G) (p : list F) :
  msm pts (map (fmul c) p) = c • msm pts p.
Proof.
  revert p. induction pts as [|P pts IH]; intros p.
  - simpl. now rewrite smul_zero_r.
  - destruct p as [|a p]; simpl.
    + now rewrite smul_zero_r.
    + rewrite IH, smul_add_r, smul_mul. reflexivity.
Qed.

End LinearityFacts.

Section SrsCommitFacts.
Context `{FO : FieldOps} {FL : FieldLaws} `{CO : !CurveOps} {CL : CurveLaws}.
Local Open Scope fr_scope.
Add Field Ffield_k : F_field.

(** X3: for a size of at least two, [NewSRS] returns an SRS of exactly
    [size] points of the first group, the point at index [i] being
    [alpha^i] times the generator, with the generator and [alpha] times
    the generator of the second group. *)
Theorem NewSRS_powers (size : nat) (alpha : F) :
  2 <= size ->
  exists srs : SRS,
    NewSRS size alpha = Ok srs /\
    length (srsG1 srs) = size /\
    (forall i, i < size -> srsG1 srs !! i = Some (fpow alpha i • gen1)) /\
    srsG2 srs = (gen2, alpha • gen2).
Proof.
  intros Hsize.
  assert (Hrun : exists srs, NewSRS size alpha = Ok srs).
  { unfold NewSRS.
    replace (size <? 2) with false by (symmetry; apply Nat.ltb_ge; lia). eauto. }
  destruct Hrun as [srs Hrun]. exists srs. split; [exact Hrun|].
  destruct (NewSRS_for size alpha srs Hrun) as [(Hg1 & Hg2 & _) Hlen].
  split; [exact Hlen|]. split; [|exact Hg2].
  intros i Hi. apply Hg1. lia.
Qed.

(** X4: against the SRS [NewSRS] builds for the secret [alpha], [Commit]
    of a polynomial that fits returns the value of the polynomial at
    [alpha], times the generator, whatever path it takes. *)
Theorem Commit_NewSRS_evaluates
    (numCpus size : nat) (alpha : F) (srs : SRS) (p : list F) (opt : list unit) :
  NewSRS size alpha = Ok srs ->
  1 <= length p <= size ->
  Commit numCpus p srs opt = Ok (Eval p alpha • gen1).
Proof.
  intros Hsrs Hlen. destruct (NewSRS_for size alpha srs Hsrs) as [Hfor Hsz].
  apply Commit_eval; [exact Hfor | lia].
Qed.

Lemma Commit_Ok_inv (numCpus : nat) (p : list F) (srs : SRS) (opt : list unit) (c : G1) :
  Commit numCpus p srs opt = Ok c -> 1 <= length p <= length (srsG1 srs).
Proof.
  unfold Commit.
  destruct (length p =? 0) eqn:H0; [discriminate|].
  destruct (length (srsG1 srs) <? length p) eqn:H1; [discriminate|].
  apply Nat.eqb_neq in H0. apply Nat.ltb_ge in H1. lia.
Qed.

(** X5: [Commit] returns [ErrInvalidPolynomialSize] exactly when the
    polynomial is empty or longer than the SRS, and a digest exactly
    when it is not: the multi-scalar products it calls are never given
    lists of different lengths. *)
Theorem Commit_outcome (numCpus : nat) (p : list F) (srs : SRS) (opt : list unit) :
  (Commit numCpus p srs opt = Err ErrInvalidPolynomialSize <->
     length p = 0 \/ length (srsG1 srs) < length p) /\
  ((exists c : G1, Commit numCpus p srs opt = Ok c) <->
     1 <= length p <= length (srsG1 srs)).
Proof.
  destruct (decide (1 <= length p <= length (srsG1 srs))) as [Hlen|Hlen].
  - rewrite Commit_msm by exact Hlen. split; split.
    + discriminate.
    + lia.
    + intros _. exact Hlen.
    + eauto.
  - assert (Herr : Commit numCpus p srs opt = Err ErrInvalidPolynomialSize).
    { unfold Commit.
      destruct (length p =? 0) eqn:H0; [reflexivity|].
      destruct (length (srsG1 srs) <? length p) eqn:H1; [reflexivity|].
      apply Nat.eqb_neq in H0. apply Nat.ltb_ge in H1. lia. }
    rewrite Herr. split; split.
    + lia.
    + reflexivity.
    + intros [c Hc]. discriminate.
    + intros Hl. contradiction.
Qed.

(** X6: [Commit] is linear: the commitment of the sum of two polynomials
    of the same length is the sum of their commitments, and the
    commitment of a polynomial scaled by [c] is [c] times its
    commitment. *)
Theorem Commit_linear
    (numCpus : nat) (c : F) (p q : list F) (srs : SRS) (opt : list unit) (cp cq : G1) :
  length p = length q ->
  Commit numCpus p srs opt = Ok cp ->
  Commit numCpus q srs opt = Ok cq ->
  Commit numCpus (zip_with fadd p q) srs opt = Ok (cp ⊞ cq) /\
  Commit numCpus (map (fmul c) p) srs opt = Ok (c • cp).
Proof.
  intros Hlen Hp Hq.
  pose proof (Commit_Ok_inv _ _ _ _ _ Hp) as Hlp.
  pose proof (Commit_Ok_inv _ _ _ _ _ Hq) as Hlq.
  rewrite Commit_msm in Hp, Hq by assumption.
  injection Hp as <-. injection Hq as <-.
  split.
  - rewrite Commit_msm by (rewrite length_zip_with; lia).
    rewrite length_zip_with, <- Hlen, Nat.min_id.
    now rewrite msm_add_scalars.
  - rewrite Commit_msm by (rewrite length_map; lia).
    now rewrite length_map, msm_scale.
Qed.

End SrsCommitFacts.

(** ** Open and Verify: outcomes and what a proof binds *)

Section OutcomeFacts.
Context `{FO : FieldOps} {FL : FieldLaws} `{CO : !CurveOps} {CL : CurveLaws}.
Local Open Scope fr_scope.
Add Field Ffield_k2 : F_field.





(** What [Verify] decides, for a commitment and a quotient commitment given
    by their discrete logarithms. *)
Lemma Verify_decides (alpha z v fa qa : F) (srs : SRS) :
  SRS_for alpha srs ->
  (forall a : F, a • pairing gen1 gen2 = gzero -> a = fzero) ->
  Verify (fa • gen1) {| H := qa • gen1; Point := z; ClaimedValue := v |} srs =
    if feqb (fa ⊖ v) (qa ⊗ (alpha ⊖ z)) then Ok tt else Err ErrVerifyOpeningProof.
Proof.
  intros (Hg1 & Hg2 & Hlen) Hnd.
  unfold Verify, index.
  rewrite (Hg1 0) by lia. simpl. rewrite smul_one, Hg2. simpl.
  unfold PairingCheck. simpl.
  assert (Hsum : pairing (gsub (fa • gen1) (v • gen1)) gen2
                 ⊞ (pairing (gneg (qa • gen1)) (gneg (z • gen2) ⊞ alpha • gen2) ⊞ gzero)
                 = ((fa ⊖ v) ⊖ qa ⊗ (alpha ⊖ z)) • pairing gen1 gen2).
  { unfold gsub. rewrite <- !smul_opp, <- !smul_add_l.
    rewrite !pairing_smul_l, !pairing_smul_r, gadd_zero_r.
    rewrite <- smul_mul, <- smul_add_l. f_equal. ring. }
  rewrite Hsum.
  destruct (feqb (fa ⊖ v) (qa ⊗ (alpha ⊖ z))) eqn:Heq.
  - apply feqb_eq in Heq. rewrite Heq.
    replace (qa ⊗ (alpha ⊖ z) ⊖ qa ⊗ (alpha ⊖ z)) with fzero by ring.
    rewrite smul_zero_l.
    replace (geqb (gzero : GT) gzero) with true; [reflexivity|].
    symmetry. now apply geqb_eq.
  - destruct (geqb _ _) eqn:Hge; [|reflexivity].
    apply geqb_eq in Hge. apply Hnd in Hge.
    assert (Hxy : fa ⊖ v = qa ⊗ (alpha ⊖ z)).
    { transitivity ((fa ⊖ v ⊖ qa ⊗ (alpha ⊖ z)) ⊕ qa ⊗ (alpha ⊖ z)); [ring|].
      rewrite Hge. ring. }
    apply feqb_eq in Hxy. congruence.
Qed.

(** X9: what [Verify] decides.  For a commitment [fa G], a quotient
    commitment [qa G] and a pairing that is not degenerate, [Verify]
    returns nil exactly when [fa - v = qa (alpha - z)], and
    [ErrVerifyOpeningProof] exactly when it does not hold. *)
Theorem Verify_accepts_iff (alpha z v fa qa : F) (srs : SRS) :
  SRS_for alpha srs ->
  (forall a : F, a • pairing gen1 gen2 = gzero -> a = fzero) ->
  (Verify (fa • gen1) {| H := qa • gen1; Point := z; ClaimedValue := v |} srs = Ok tt <->
     fa ⊖ v = qa ⊗ (alpha ⊖ z)) /\
  (Verify (fa • gen1) {| H := qa • gen1; Point := z; ClaimedValue := v |} srs
     = Err ErrVerifyOpeningProof <-> fa ⊖ v <> qa ⊗ (alpha ⊖ z)).
Proof.
  intros Hsrs Hnd. rewrite (Verify_decides alpha) by assumption.
  destruct (feqb (fa ⊖ v) (qa ⊗ (alpha ⊖ z))) eqn:Heq.
  - apply feqb_eq in Heq. split; split; try discriminate; try tauto.
  - assert (Hne : fa ⊖ v <> qa ⊗ (alpha ⊖ z)).
    { intros Hxy. apply feqb_eq in Hxy. congruence. }
    split; split; try discriminate; try tauto.
Qed.


End OutcomeFacts.

(** ** Loops that collect and sum *)

Section CollectFacts.
Context `{FO : FieldOps} {FL : FieldLaws}.
Local Open Scope fr_scope.
Add Field Ffield_k3 : F_field.



(** A loop that appends one element per index. *)
Lemma for_range_collect {A B : Type} (l : list A) (f : A -> B) (n : nat) :
  n <= length l ->
  for_range 0 n (fun i q => p ← index l i; Ok (q ++ [f p])) [] = Ok (map f (take n l)).
Proof.
  intros Hn.
  pose (Inv := fun (i : nat) (q : list B) => q = map f (take i l)).
  destruct (for_range_inv Inv 0 n (fun i q => p ← index l i; Ok (q ++ [f p])) [])
    as (q & Hrun & Hq).
  - reflexivity.
  - intros i q Hi Hinv. unfold Inv in *. subst q.
    destruct (lookup_lt_is_Some_2 l i ltac:(lia)) as [a Ha].
    eexists. split; [rewrite (index_Some _ _ _ Ha); reflexivity|].
    now rewrite (take_S_r _ _ _ Ha), map_app.
  - unfold Inv in Hq. now rewrite Hrun, Hq.
Qed.

Lemma for_range_collect2 {A B C : Type} (l1 : list A) (l2 : list B) (f : A -> B -> C) (n : nat) :
  n <= length l1 -> n <= length l2 ->
  for_range 0 n (fun i q => a ← index l1 i; b ← index l2 i; Ok (q ++ [f a b])) []
  = Ok (zip_with f (take n l1) (take n l2)).
Proof.
  intros Hn1 Hn2.
  pose (Inv := fun (i : nat) (q : list C) => q = zip_with f (take i l1) (take i l2)).
  destruct (for_range_inv Inv 0 n
              (fun i q => a ← index l1 i; b ← index l2 i; Ok (q ++ [f a b])) [])
    as (q & Hrun & Hq).
  - reflexivity.
  - intros i q Hi Hinv. unfold Inv in *. subst q.
    destruct (lookup_lt_is_Some_2 l1 i ltac:(lia)) as [a Ha].
    destruct (lookup_lt_is_Some_2 l2 i ltac:(lia)) as [b Hb].
    eexists. split.
    { rewrite (index_Some _ _ _ Ha). cbn. rewrite (index_Some _ _ _ Hb). reflexivity. }
    rewrite (take_S_r _ _ _ Ha), (take_S_r _ _ _ Hb).
    rewrite zip_with_app by (rewrite !length_take; lia). reflexivity.
  - unfold Inv in Hq. now rewrite Hrun, Hq.
Qed.

(** The sum of the products of two lists, index by index. *)
Lemma for_range_dot (evaluations factors : list F) (n : nat) :
  n <= length evaluations -> n <= length factors ->
  for_range 0 n
    (fun i acc => e ← index evaluations i; f ← index factors i; Ok (acc ⊕ e ⊗ f)) fzero
  = Ok (fsum (fun i => (evaluations !!! i) ⊗ (factors !!! i)) n).
Proof.
  intros Hn1 Hn2.
  pose (Inv := fun (i : nat) (acc : F) =>
    acc = fsum (fun i => (evaluations !!! i) ⊗ (factors !!! i)) i).
  destruct (for_range_inv Inv 0 n
    (fun i acc => e ← index evaluations i; f ← index factors i; Ok (acc ⊕ e ⊗ f)) fzero)
    as (acc & Hrun & Hacc).
  - reflexivity.
  - intros i acc Hi Hinv. unfold Inv in *. subst acc.
    destruct (lookup_lt_is_Some_2 evaluations i ltac:(lia)) as [e He].
    destruct (lookup_lt_is_Some_2 factors i ltac:(lia)) as [f Hf].
    eexists. split.
    { rewrite (index_Some _ _ _ He). cbn. rewrite (index_Some _ _ _ Hf). reflexivity. }
    cbn [fsum].
    now rewrite (list_lookup_total_correct _ _ _ He), (list_lookup_total_correct _ _ _ Hf).
  - unfold Inv in Hacc. now rewrite Hrun, Hacc.
Qed.

Lemma fsum_shift (f : nat -> F) (n : nat) :
  fsum f (S n) = f 0 ⊕ fsum (fun i => f (S i)) n.
Proof.
  induction n as [|n IH]; [simpl; ring|].
  change (fsum f (S (S n))) with (fsum f (S n) ⊕ f (S n)).
  rewrite IH. simpl. ring.
Qed.

End CollectFacts.

(** ** fold and FoldProof *)

Section AbortFacts.

(** A loop whose body panics at an index it reaches, panics. *)
Lemma for_range_abort {S : Type} (Inv : nat -> S -> Prop)
    (start count k : nat) (body : nat -> S -> outcome S) (s : S) (why : string) :
  k < count ->
  Inv start s ->
  (forall i s, start <= i < start + k -> Inv i s ->
     exists s', body i s = Ok s' /\ Inv (Datatypes.S i) s') ->
  (forall s, Inv (start + k) s -> body (start + k) s = Abort why) ->
  for_range start count body s = Abort why.
Proof.
  revert start count s. induction k as [|k IH]; intros start count s Hk Hs Hbody Hab.
  - destruct count as [|count]; [lia|]. cbn [for_range].
    rewrite Nat.add_0_r in Hab. now rewrite (Hab s Hs).
  - destruct count as [|count]; [lia|]. cbn [for_range].
    destruct (Hbody start s ltac:(lia) Hs) as (s1 & Hb & Hs1).
    rewrite Hb. cbn. apply IH; [lia | exact Hs1 | |].
    + intros i s2 Hi. apply Hbody. lia.
    + intros s2. replace (Datatypes.S start + k) with (start + Datatypes.S k) by lia. apply Hab.
Qed.

End AbortFacts.

Section FoldValueFacts.
Context `{FO : FieldOps} {FL : FieldLaws} `{CO : !CurveOps} {CL : CurveLaws}.
Context `{TO : !TranscriptOps}.
Local Open Scope fr_scope.
Add Field Ffield_k4 : F_field.

Lemma fold_ok (digests : list G1) (evaluations factors : list F) :
  length digests <= length evaluations ->
  length factors = length digests ->
  fold digests evaluations factors =
  Ok (msm digests factors,
      fsum (fun i => (evaluations !!! i) ⊗ (factors !!! i)) (length digests)).
Proof.
  intros He Hf. unfold fold.
  rewrite for_range_dot by lia. cbn [mbind outcome_bind obind].
  now rewrite MultiExp_same_length by congruence.
Qed.

(** X11: [fold] returns the linear combination of the digests and the
    linear combination of the evaluations by the factors when the three
    lists have the same length; it panics when the evaluations or the
    factors are fewer than the digests. *)
Theorem fold_linear_combination (digests : list G1) (evaluations factors : list F) :
  (length evaluations = length digests -> length factors = length digests ->
   fold digests evaluations factors =
   Ok (msm digests factors,
       fsum (fun i => (evaluations !!! i) ⊗ (factors !!! i)) (length digests))) /\
  (length evaluations < length digests \/ length factors < length digests ->
   fold digests evaluations factors = Abort "index out of range").
Proof.
  split.
  - intros He Hf. apply fold_ok; lia.
  - intros Hshort. unfold fold.
    set (k := Nat.min (length evaluations) (length factors)).
    rewrite (for_range_abort (fun _ _ => True) 0 (length digests) k _ fzero
               "index out of range"); [reflexivity | lia | exact I | |].
    + intros i s Hi _.
      destruct (lookup_lt_is_Some_2 evaluations i ltac:(lia)) as [e He].
      destruct (lookup_lt_is_Some_2 factors i ltac:(lia)) as [f Hf].
      eexists. split; [|exact I].
      rewrite (index_Some _ _ _ He). cbn. rewrite (index_Some _ _ _ Hf). reflexivity.
    + intros s _. cbn [Nat.add]. unfold index.
      destruct (evaluations !! k) as [e|] eqn:He; [|reflexivity].
      cbn. apply lookup_lt_Some in He.
      rewrite lookup_ge_None_2 by lia. reflexivity.
Qed.

Lemma gammai_powers (gamma : F) (k : nat) :
  fone :: mul_chain gamma fone k = map (fpow gamma) (seq 0 (S k)).
Proof.
  apply list_eq. intros i. destruct i as [|i]; [reflexivity|].
  change ((fone :: mul_chain gamma fone k) !! Datatypes.S i) with (mul_chain gamma fone k !! i).
  destruct (decide (i < k)) as [Hi|Hi].
  - rewrite mul_chain_lookup by exact Hi.
    rewrite list_lookup_fmap, lookup_seq_lt by lia. cbn. f_equal. ring.
  - rewrite !lookup_ge_None_2; [reflexivity| |].
    + rewrite length_map, length_seq. lia.
    + rewrite mul_chain_length. lia.
Qed.

Lemma powers_lookup_total (gamma : F) (n i : nat) :
  i < n -> map (fpow gamma) (seq 0 n) !!! i = fpow gamma i.
Proof.
  intros Hi. apply list_lookup_total_correct.
  rewrite list_lookup_fmap, lookup_seq_lt by lia. reflexivity.
Qed.

Lemma FoldProof_ok
    (digests : list G1) (batchOpeningProof : BatchOpeningProof) (hf : Hash) (gamma : F) :
  digests <> [] ->
  length digests = length (ClaimedValues batchOpeningProof) ->
  deriveGamma (bPoint batchOpeningProof) digests hf = Ok gamma ->
  FoldProof digests batchOpeningProof hf =
  Ok ({| H := bH batchOpeningProof;
         Point := bPoint batchOpeningProof;
         ClaimedValue := Eval (ClaimedValues batchOpeningProof) gamma |},
      msm digests (map (fpow gamma) (seq 0 (length digests)))).
Proof.
  intros Hne Hlen Hgamma. unfold FoldProof.
  replace (length digests =? length (ClaimedValues batchOpeningProof)) with true
    by (symmetry; now apply Nat.eqb_eq).
  cbn [negb]. rewrite Hgamma.
  destruct (length digests) as [|k] eqn:Hn.
  { destruct digests; [congruence | discriminate]. }
  rewrite gammai_powers.
  rewrite fold_ok by (rewrite ?length_map, ?length_seq; lia).
  cbn [mbind outcome_bind obind]. do 3 f_equal.
  rewrite Eval_fsum, <- Hlen, Hn.
  apply fsum_ext. intros i Hi. now rewrite powers_lookup_total.
Qed.

End FoldValueFacts.

(** ** Batch opening: the folded polynomial *)

Section BatchSumFacts.
Context `{FO : FieldOps} {FL : FieldLaws} `{CO : !CurveOps} {CL : CurveLaws}.
Context `{TO : !TranscriptOps}.
Local Open Scope fr_scope.
Add Field Ffield_k5 : F_field.

(** X12: for digests and claimed values of the same number, at least
    one, and a challenge [gamma], [FoldProof] returns the quotient
    commitment and the point of the batch proof, the claimed value
    [sum_i gamma^i v_i] and the digest [sum_i gamma^i C_i]. *)
Theorem FoldProof_value
    (digests : list G1) (batchOpeningProof : BatchOpeningProof) (hf : Hash) (gamma : F) :
  digests <> [] ->
  length digests = length (ClaimedValues batchOpeningProof) ->
  deriveGamma (bPoint batchOpeningProof) digests hf = Ok gamma ->
  exists (proof : OpeningProof) (digest : G1),
    FoldProof digests batchOpeningProof hf = Ok (proof, digest) /\
    H proof = bH batchOpeningProof /\
    Point proof = bPoint batchOpeningProof /\
    ClaimedValue proof =
      fsum (fun i => (ClaimedValues batchOpeningProof !!! i) ⊗ fpow gamma i) (length digests) /\
    digest = msm digests (map (fpow gamma) (seq 0 (length digests))).
Proof.
  intros Hne Hlen Hgamma.
  eexists _, _. split; [apply (FoldProof_ok _ _ _ gamma); assumption|].
  cbn [H Point ClaimedValue]. repeat split.
  now rewrite Eval_fsum, Hlen.
Qed.

(** X13: a batch of one: [FoldProof] returns the digest and the claimed
    value it was given, and [BatchVerifySinglePoint] returns what
    [Verify] returns on them. *)
Theorem BatchVerifySinglePoint_single
    (c h0 : G1) (z v gamma : F) (hf : Hash) (srs : SRS) :
  deriveGamma z [c] hf = Ok gamma ->
  FoldProof [c] {| bH := h0; bPoint := z; ClaimedValues := [v] |} hf
    = Ok ({| H := h0; Point := z; ClaimedValue := v |}, c) /\
  BatchVerifySinglePoint [c] {| bH := h0; bPoint := z; ClaimedValues := [v] |} hf srs
    = Verify c {| H := h0; Point := z; ClaimedValue := v |} srs.
Proof.
  intros Hgamma.
  assert (Hfold : FoldProof [c] {| bH := h0; bPoint := z; ClaimedValues := [v] |} hf
            = Ok ({| H := h0; Point := z; ClaimedValue := v |}, c)).
  { rewrite (FoldProof_ok _ _ _ gamma) by (try discriminate; try reflexivity; exact Hgamma).
    cbn. do 2 f_equal.
    - f_equal. ring.
    - now rewrite smul_one, gadd_zero_r. }
  split; [exact Hfold|].
  unfold BatchVerifySinglePoint. rewrite Hfold. reflexivity.
Qed.






End BatchSumFacts.

Section BatchQuotientFacts.
Context `{FO : FieldOps} {FL : FieldLaws} `{CO : !CurveOps} {CL : CurveLaws}.
Context `{TO : !TranscriptOps}.
Local Open Scope fr_scope.
Add Field Ffield_k6 : F_field.




End BatchQuotientFacts.

(** ** Sums in a module, and the pairing *)

Section ModuleSums.
Context `{FO : FieldOps} {FL : FieldLaws}.
Context {G : Type} `{!FModule G} {ML : ModuleLaws G}.
Local Open Scope fr_scope.
Add Field Ffield_ms : F_field.

Lemma gneg_add (A B : G) : gneg (A ⊞ B) = gneg A ⊞ gneg B.
Proof.
  apply (gadd_cancel_l (A ⊞ B)).
  rewrite gadd_neg, gadd_interchange, !gadd_neg. now rewrite gadd_zero_l.
Qed.

Lemma gneg_smul (r : F) (A : G) : gneg (r • A) = r • gneg A.
Proof.
  apply (gadd_cancel_l (r • A)).
  now rewrite gadd_neg, <- smul_add_r, gadd_neg, smul_zero_r.
Qed.

Lemma gneg_involutive (A : G) : gneg (gneg A) = A.
Proof.
  apply (gadd_cancel_l (gneg A)).
  now rewrite gadd_neg, gadd_comm, gadd_neg.
Qed.

Lemma gneg_smul_one (A : G) : gneg A = fopp fone • A.
Proof. now rewrite smul_opp, smul_one. Qed.

Lemma msm_map_add {A : Type} (f g : A -> G) (items : list A) (rs : list F) :
  msm (map f items) rs ⊞ msm (map g items) rs = msm (map (fun a => f a ⊞ g a) items) rs.
Proof.
  revert rs. induction items as [|a items IH]; intros rs.
  - simpl. apply gadd_zero_l.
  - destruct rs as [|r rs]; simpl; [apply gadd_zero_l|].
    rewrite <- IH, smul_add_r. apply gadd_interchange.
Qed.

Lemma msm_map_neg {A : Type} (f : A -> G) (items : list A) (rs : list F) :
  gneg (msm (map f items) rs) = msm (map (fun a => gneg (f a)) items) rs.
Proof.
  revert rs. induction items as [|a items IH]; intros rs.
  - simpl. apply gneg_zero.
  - destruct rs as [|r rs]; simpl; [apply gneg_zero|].
    now rewrite gneg_add, gneg_smul, IH.
Qed.

Lemma msm_map_zero {A : Type} (f : A -> G) (items : list A) (rs : list F) :
  (forall a, a ∈ items -> f a = gzero) -> msm (map f items) rs = gzero.
Proof.
  revert rs. induction items as [|a items IH]; intros rs Hz; [reflexivity|].
  destruct rs as [|r rs]; simpl; [reflexivity|].
  rewrite Hz by apply list_elem_of_here. rewrite smul_zero_r, gadd_zero_l.
  apply IH. intros b Hb. apply Hz. now apply list_elem_of_further.
Qed.

Lemma msm_map_scaled {A : Type} (f : A -> G) (s : A -> F) (items : list A) (rs : list F) :
  msm (map f items) (zip_with (fun r a => r ⊗ s a) rs items)
  = msm (map (fun a => s a • f a) items) rs.
Proof.
  revert rs. induction items as [|a items IH]; intros rs.
  - destruct rs; reflexivity.
  - destruct rs as [|r rs]; simpl; [reflexivity|].
    now rewrite IH, smul_mul.
Qed.

Lemma msm_map_fsum {A : Type} (v : A -> F) (e : G) (items : list A) (rs : list F) :
  length rs = length items ->
  fsum (fun i => (map v items !!! i) ⊗ (rs !!! i)) (length items) • e
  = msm (map (fun a => v a • e) items) rs.
Proof.
  revert rs. induction items as [|a items IH]; intros rs Hlen.
  - simpl. apply smul_zero_l.
  - destruct rs as [|r rs]; [discriminate|].
    cbn [length]. rewrite fsum_shift. cbn [map msm].
    rewrite smul_add_l. f_equal.
    + change ((v a :: map v items) !!! 0) with (v a).
      change ((r :: rs) !!! 0) with r.
      rewrite <- smul_mul. f_equal. ring.
    + rewrite <- IH by (simpl in Hlen; lia). reflexivity.
Qed.


End ModuleSums.

Section PairingFacts.
Context `{FO : FieldOps} {FL : FieldLaws} `{CO : !CurveOps} {CL : CurveLaws}.
Local Open Scope fr_scope.
Add Field Ffield_pf : F_field.

Lemma pairing_zero_l (Q : G2) : pairing gzero Q = gzero.
Proof.
  rewrite <- (smul_zero_l (gzero : G1)), pairing_smul_l. apply smul_zero_l.
Qed.

Lemma pairing_neg_l (P : G1) (Q : G2) : pairing (gneg P) Q = gneg (pairing P Q).
Proof. now rewrite gneg_smul_one, pairing_smul_l, <- gneg_smul_one. Qed.

Lemma pairing_neg_r (P : G1) (Q : G2) : pairing P (gneg Q) = gneg (pairing P Q).
Proof. now rewrite gneg_smul_one, pairing_smul_r, <- gneg_smul_one. Qed.

Lemma pairing_msm_l {A : Type} (f : A -> G1) (items : list A) (rs : list F) (Q : G2) :
  pairing (msm (map f items) rs) Q = msm (map (fun a => pairing (f a) Q) items) rs.
Proof.
  revert rs. induction items as [|a items IH]; intros rs.
  - simpl. apply pairing_zero_l.
  - destruct rs as [|r rs]; simpl; [apply pairing_zero_l|].
    now rewrite pairing_add_l, pairing_smul_l, IH.
Qed.

(** What an accepting [Verify] has checked. *)
Lemma Verify_Ok_inv (c : G1) (proof : OpeningProof) (srs : SRS) :
  Verify c proof srs = Ok tt ->
  exists g0, srsG1 srs !! 0 = Some g0 /\
    (pairing c (fst (srsG2 srs)) ⊞ gneg (ClaimedValue proof • pairing g0 (fst (srsG2 srs))))
    ⊞ (Point proof • pairing (H proof) (fst (srsG2 srs))
       ⊞ gneg (pairing (H proof) (snd (srsG2 srs)))) = gzero.
Proof.
  unfold Verify, index.
  destruct (srsG1 srs !! 0) as [g0|]; [|discriminate].
  cbn [mbind outcome_bind obind]. unfold PairingCheck. cbn [length Nat.eqb pairing_sum].
  cbn [mbind outcome_bind obind].
  destruct (geqb _ _) eqn:Hge; [|discriminate]. intros _.
  apply geqb_eq in Hge. exists g0. split; [reflexivity|].
  rewrite <- Hge. unfold gsub.
  rewrite gadd_zero_r, pairing_add_l, !pairing_neg_l, pairing_smul_l. f_equal.
  rewrite pairing_add_r, pairing_neg_r, pairing_smul_r.
  now rewrite gneg_add, gneg_involutive.
Qed.

End PairingFacts.

(** ** Batch opening and batch verification accept what is honest *)

Section BatchCompleteFacts.
Context `{FO : FieldOps} {FL : FieldLaws} `{CO : !CurveOps} {CL : CurveLaws}.
Context `{TO : !TranscriptOps}.
Local Open Scope fr_scope.
Add Field Ffield_k8 : F_field.


(** The pairing equation of the batch, from the equations of the proofs. *)
Lemma batch_pairing_sum
    (items : list (G1 * OpeningProof)) (rs : list F) (g0 : G1) (Q0 Q1 : G2) :
  length rs = length items ->
  (forall it, it ∈ items ->
     (pairing it.1 Q0 ⊞ gneg (ClaimedValue it.2 • pairing g0 Q0))
     ⊞ (Point it.2 • pairing (H it.2) Q0 ⊞ gneg (pairing (H it.2) Q1)) = gzero) ->
  pairing
    (gsub (msm (map fst items) rs)
          (fsum (fun i => (map (fun it => ClaimedValue it.2) items !!! i) ⊗ (rs !!! i))
                (length items) • g0)
     ⊞ msm (map (fun it => H it.2) items)
           (zip_with (fun r it => r ⊗ Point it.2) rs items)) Q0
  ⊞ (pairing (gneg (msm (map (fun it => H it.2) items) rs)) Q1 ⊞ gzero) = gzero.
Proof.
  intros Hlen Heq.
  unfold gsub.
  rewrite gadd_zero_r, !pairing_add_l, !pairing_neg_l, pairing_smul_l.
  rewrite !pairing_msm_l.
  rewrite (msm_map_fsum (fun it => ClaimedValue it.2)) by exact Hlen.
  rewrite (msm_map_scaled _ (fun it => Point it.2)).
  rewrite !msm_map_neg, !msm_map_add.
  apply msm_map_zero. intros it Hit. rewrite <- (Heq it Hit).
  now rewrite gadd_assoc.
Qed.

Lemma BatchVerifyMultiPoints_items
    (rnd : nat -> F) (items : list (G1 * OpeningProof)) (srs : SRS) :
  items <> [] ->
  (forall it, it ∈ items -> Verify it.1 it.2 srs = Ok tt) ->
  BatchVerifyMultiPoints rnd (map fst items) (map snd items) srs = Ok tt.
Proof.
  intros Hne Hver. unfold BatchVerifyMultiPoints.
  rewrite !length_map, Nat.eqb_refl. cbn [negb].
  destruct items as [|it0 [|it1 rest]] eqn:Hitems; [congruence| |].
  { cbn. apply Hver. apply list_elem_of_here. }
  rewrite <- Hitems in *.
  assert (Hlen : length items = S (S (length rest))) by (rewrite Hitems; reflexivity).
  rewrite Hlen. cbn [Nat.eqb].
  set (rs := fone :: map rnd (seq 1 (S (length rest)))).
  assert (Hrs : length rs = length items).
  { unfold rs. cbn [length]. rewrite length_map, length_seq. lia. }
  destruct (Verify_Ok_inv it0.1 it0.2 srs) as (g0 & Hg0 & _).
  { apply Hver. rewrite Hitems. apply list_elem_of_here. }
  rewrite (for_range_collect (map snd items) H) by (rewrite length_map; lia).
  cbn [mbind outcome_bind obind].
  rewrite (for_range_collect (map snd items) ClaimedValue) by (rewrite length_map; lia).
  cbn [mbind outcome_bind obind].
  rewrite !take_ge by (rewrite length_map; lia).
  rewrite !map_map.
  rewrite fold_ok by (rewrite ?length_map; lia).
  cbn [mbind outcome_bind obind].
  rewrite (index_Some _ _ _ Hg0). cbn [mbind outcome_bind obind].
  rewrite (for_range_collect2 rs (map snd items) (fun r p => r ⊗ Point p))
    by (rewrite ?length_map; lia).
  cbn [mbind outcome_bind obind].
  rewrite !take_ge by (rewrite ?length_map; lia).
  rewrite !MultiExp_same_length
    by (rewrite ?length_zip_with, ?length_map; lia).
  unfold PairingCheck. cbn [length Nat.eqb pairing_sum mbind outcome_bind obind].
  rewrite length_map.
  replace (zip_with (fun r p => r ⊗ Point p) rs (map snd items))
    with (zip_with (fun r (it : G1 * OpeningProof) => r ⊗ Point it.2) rs items)
    by (now rewrite zip_with_fmap_r).
  rewrite batch_pairing_sum.
  - replace (geqb (gzero : GT) gzero) with true; [reflexivity|].
    symmetry. now apply geqb_eq.
  - exact Hrs.
  - intros it Hit. destruct (Verify_Ok_inv it.1 it.2 srs (Hver it Hit)) as (g0' & Hg0' & Heq).
    assert (g0' = g0) by congruence. subst g0'. exact Heq.
Qed.

(** X15: [BatchVerifyMultiPoints] accepts every batch, not empty, of
    digests and proofs that [Verify] accepts one by one, whatever
    numbers are drawn. *)
Theorem BatchVerifyMultiPoints_complete
    (rnd : nat -> F) (digests : list G1) (proofs : list OpeningProof) (srs : SRS) :
  digests <> [] ->
  Forall2 (fun c proof => Verify c proof srs = Ok tt) digests proofs ->
  BatchVerifyMultiPoints rnd digests proofs srs = Ok tt.
Proof.
  intros Hne Hall.
  pose proof (Forall2_length _ _ _ Hall) as Hlen.
  rewrite <- (fst_zip digests proofs) at 1 by lia.
  rewrite <- (snd_zip digests proofs) at 2 by lia.
  apply BatchVerifyMultiPoints_items.
  - destruct digests, proofs; try discriminate; congruence.
  - intros [c proof] Hin. cbn [fst snd].
    apply list_elem_of_lookup_1 in Hin as [i Hi].
    apply lookup_zip_with_Some in Hi as (c' & p' & [= <- <-] & Hc & Hp).
    exact (Forall2_lookup_lr _ _ _ _ _ _ Hall Hc Hp).
Qed.

End BatchCompleteFacts.

(** ** Batch opening at its edges, and the division by [x - a] *)

Section BatchEdgeFacts.
Context `{FO : FieldOps} {FL : FieldLaws} `{CO : !CurveOps} {CL : CurveLaws}.
Context `{TO : !TranscriptOps}.
Local Open Scope fr_scope.
Add Field Ffield_k9 : F_field.

(** X16: [BatchOpenSinglePoint] leaves every array of the heap it is
    called in as it was, and so the coefficients of every polynomial it
    is given. *)
Theorem BatchOpenSinglePoint_preserves_inputs
    (numCpus : nat) (polynomials : list slice) (digests : list G1) (point : F) (hf : Hash)
    (domain : Domain) (srs : SRS) (h : Heap) :
  Forall (fun p => s_arr p < length h) polynomials ->
  take (length h)
    (snd (BatchOpenSinglePoint numCpus polynomials digests point hf domain srs h)) = h /\
  Forall (fun p =>
            load (snd (BatchOpenSinglePoint numCpus polynomials digests point hf domain srs h)) p
            = load h p) polynomials.
Proof.
  intros Hps.
  destruct (BatchOpenSinglePoint_heap numCpus polynomials digests point hf domain srs h Hps)
    as [ext ->].
  split; [apply take_app_length|].
  eapply Forall_impl; [exact Hps|]. intros p Hp. now apply load_old.
Qed.

(** X17: on an empty batch, when the challenge is derived,
    [BatchOpenSinglePoint], [FoldProof] and [BatchVerifySinglePoint]
    panic on an index out of range. *)
Theorem empty_batch_panics
    (numCpus : nat) (point gamma : F) (h0 : G1) (hf : Hash) (domain : Domain) (srs : SRS)
    (h : Heap) :
  deriveGamma point [] hf = Ok gamma ->
  BatchOpenSinglePoint numCpus [] [] point hf domain srs h = (Abort "index out of range", h) /\
  FoldProof [] {| bH := h0; bPoint := point; ClaimedValues := [] |} hf
    = Abort "index out of range" /\
  BatchVerifySinglePoint [] {| bH := h0; bPoint := point; ClaimedValues := [] |} hf srs
    = Abort "index out of range".
Proof.
  intros Hgamma.
  assert (Hfold : FoldProof [] {| bH := h0; bPoint := point; ClaimedValues := [] |} hf
                  = Abort "index out of range").
  { unfold FoldProof. cbn [length Nat.eqb negb bPoint ClaimedValues]. now rewrite Hgamma. }
  split; [|split; [exact Hfold|]].
  - unfold BatchOpenSinglePoint. cbn [length Nat.eqb negb map check_polynomials].
    now rewrite Hgamma.
  - unfold BatchVerifySinglePoint. now rewrite Hfold.
Qed.


End BatchEdgeFacts.

Section QuotientFacts.
Context `{FO : FieldOps} {FL : FieldLaws}.
Local Open Scope fr_scope.
Add Field Ffield_k10 : F_field.

(** X19: [dividePolyByXminusA] returns exactly when the capacity of [f]
    is at least the cardinality of the domain, the domain has a point
    and [f] has a coefficient; the slice returned is over the memory of
    [f] and one shorter; a smaller capacity makes it panic. *)
Theorem dividePolyByXminusA_returns_iff (d : Domain) (f : slice) (fa a : F) (h : Heap) :
  slice_ok h f ->
  ((exists q, fst (dividePolyByXminusA d f fa a h) = Ok q) <->
     1 <= Cardinality d <= cap h f /\ 1 <= s_len f) /\
  (forall q, fst (dividePolyByXminusA d f fa a h) = Ok q ->
     s_arr q = s_arr f /\ s_off q = s_off f /\ s_len q = s_len f - 1) /\
  (cap h f < Cardinality d ->
     fst (dividePolyByXminusA d f fa a h) = Abort "slice bounds out of range").
Proof.
  intros [Harr Hb]. unfold dividePolyByXminusA, divide_array, cap.
  set (arr := backing h f) in *.
  destruct (length arr - s_off f <? Cardinality d) eqn:Hcap;
    [apply Nat.ltb_lt in Hcap | apply Nat.ltb_ge in Hcap]; cbn [fst mbind outcome_bind obind].
  { split; [split|split]; try discriminate; try lia; try reflexivity.
    intros [q Hq]. discriminate. }
  destruct (drop (s_off f) (take (s_off f + Cardinality d) arr)) as [|f0 rest] eqn:Hdrop.
  { assert (Hc0 : Cardinality d = 0).
    { apply (f_equal length) in Hdrop. rewrite length_drop, length_take in Hdrop.
      simpl in Hdrop. lia. }
    cbn [fst mbind outcome_bind obind].
    split; [split|split]; try discriminate; try lia.
    intros [q Hq]. discriminate. }
  assert (Hc1 : 1 <= Cardinality d).
  { apply (f_equal length) in Hdrop. rewrite length_drop, length_take in Hdrop.
    simpl in Hdrop. lia. }
  replace ((Z.of_nat (length arr - s_off f) <? Z.of_nat (s_len f) - 1)%Z) with false
    by (symmetry; apply Z.ltb_ge; lia).
  rewrite orb_false_r.
  destruct (Z.of_nat (s_len f) - 1 <? 0)%Z eqn:Hdeg;
    [apply Z.ltb_lt in Hdeg | apply Z.ltb_ge in Hdeg]; cbn [fst mbind outcome_bind obind].
  { split; [split|split]; try discriminate; try lia.
    intros [q Hq]. discriminate. }
  split; [split|split]; try lia; eauto.
  intros q [= <-]. cbn [s_arr s_off s_len]. repeat split. lia.
Qed.

(** X20: on a polynomial [f] followed by zeros up to the cardinality of
    the domain, [dividePolyByXminusA] returns the quotient [q] of
    [f - fa] by [x - a]: [f(x) - fa = q(x) (x - a) + (f(a) - fa)] at
    every [x], the remainder [f(a) - fa] being dropped. *)
Theorem dividePolyByXminusA_quotient (d : Domain) (f : slice) (fa a : F) (h : Heap) :
  slice_ok h f ->
  1 <= s_len f <= Cardinality d ->
  Cardinality d <= cap h f ->
  (forall i, s_len f <= i < Cardinality d -> backing h f !! (s_off f + i) = Some fzero) ->
  exists q : slice,
    fst (dividePolyByXminusA d f fa a h) = Ok q /\
    length (load (snd (dividePolyByXminusA d f fa a h)) q) = s_len f - 1 /\
    forall x : F,
      Eval (load h f) x ⊖ fa =
      Eval (load (snd (dividePolyByXminusA d f fa a h)) q) x ⊗ (x ⊖ a)
      ⊕ (Eval (load h f) a ⊖ fa).
Proof.
  intros [Harr Hb] [Hlo Hhi] Hcap Hzero. unfold cap in Hcap.
  set (arr := backing h f) in *.
  set (off := s_off f) in *. set (n := s_len f) in *. set (card := Cardinality d) in *.
  set (pre := take off arr).
  set (post := drop (off + card) arr).
  assert (Hmid : drop off (take (off + card) arr)
                 = load h f ++ replicate (card - n) fzero).
  { apply list_eq_same_length with card.
    - rewrite length_app, length_replicate. unfold load. fold arr off n.
      rewrite length_take, length_drop. lia.
    - rewrite length_drop, length_take. lia.
    - intros i x y Hi Hx Hy.
      rewrite lookup_drop, lookup_take_lt in Hx by lia.
      destruct (decide (i < n)) as [Hin|Hin].
      + rewrite lookup_app_l in Hy
          by (unfold load; fold arr off n; rewrite length_take, length_drop; lia).
        unfold load in Hy. fold arr off n in Hy.
        rewrite lookup_take_lt, lookup_drop in Hy by lia. congruence.
      + rewrite lookup_app_r in Hy
          by (unfold load; fold arr off n; rewrite length_take, length_drop; lia).
        apply lookup_replicate in Hy as [-> _].
        rewrite Hzero in Hx by lia. congruence. }
  assert (Harr_split : arr = pre ++ (load h f ++ replicate (card - n) fzero) ++ post).
  { rewrite <- Hmid. unfold pre, post.
    rewrite <- (take_drop off arr) at 1. f_equal.
    rewrite <- (take_drop card (drop off arr)) at 1.
    rewrite drop_drop. f_equal. now rewrite take_drop_commute. }
  assert (Hpre : length pre = off) by (unfold pre; rewrite length_take; lia).
  clearbody pre post.
  destruct (load h f) as [|f0 f'] eqn:Hload.
  { apply (f_equal length) in Hload. unfold load in Hload. fold arr off n in Hload.
    rewrite length_take, length_drop in Hload. simpl in Hload. lia. }
  assert (Hf' : S (length f') = n).
  { apply (f_equal length) in Hload. unfold load in Hload. fold arr off n in Hload.
    rewrite length_take, length_drop in Hload. simpl in Hload. lia. }
  set (g := (f0 ⊖ fa) :: f').
  destruct (exists_last (l := g)) as (ini & lst & Hg); [discriminate|].
  destruct (synthetic a (lst ⊕ fzero ⊗ a) ini) as [c1 q] eqn:Hsyn.
  assert (Hsg : synthetic a fzero g = (c1, q ++ [fzero])).
  { rewrite Hg, synthetic_snoc, Hsyn. reflexivity. }
  assert (Hq : length q = length f').
  { pose proof (synthetic_length a fzero g) as Hl. rewrite Hsg in Hl.
    simpl in Hl. rewrite length_app in Hl. simpl in Hl. lia. }
  assert (Hloop : divide_loop a off card fzero
                    (pre ++ (g ++ replicate (card - n) fzero) ++ post)
                  = pre ++ (q ++ fzero :: replicate (card - n) fzero) ++ post).
  { pose proof (divide_loop_synthetic a fzero pre (g ++ replicate (card - n) fzero) post)
      as Hl.
    rewrite Hpre in Hl.
    replace (length (g ++ replicate (card - n) fzero)) with card in Hl
      by (rewrite length_app, length_replicate; unfold g; simpl; lia).
    rewrite Hl, synthetic_app, synthetic_zeros, Hsg. cbn [snd].
    now rewrite <- (assoc_L (++) q [fzero]). }
  assert (Hrun : dividePolyByXminusA d f fa a h =
    (Ok {| s_arr := s_arr f; s_off := off; s_len := n - 1 |},
     <[s_arr f := pre ++ (q ++ fzero :: replicate (card - n) fzero) ++ post]> h)).
  { unfold dividePolyByXminusA, divide_array. fold arr off n card.
    replace (length arr - off <? card) with false by (symmetry; apply Nat.ltb_ge; lia).
    rewrite Hmid. cbn [app].
    replace (<[off := f0 ⊖ fa]> arr)
      with (pre ++ (g ++ replicate (card - n) fzero) ++ post).
    2:{ rewrite Harr_split, <- Hpre, <- (Nat.add_0_r (length pre)), insert_app_r.
        reflexivity. }
    rewrite Hloop.
    replace ((Z.of_nat n - 1 <? 0)%Z) with false by (symmetry; apply Z.ltb_ge; lia).
    replace ((Z.of_nat (length arr - off) <? Z.of_nat n - 1)%Z) with false
      by (symmetry; apply Z.ltb_ge; lia).
    cbn [orb mbind outcome_bind obind snd].
    do 3 f_equal. lia. }
  rewrite Hrun. cbn [fst snd].
  assert (Hq_load :
    load (<[s_arr f := pre ++ (q ++ fzero :: replicate (card - n) fzero) ++ post]> h)
         {| s_arr := s_arr f; s_off := off; s_len := n - 1 |} = q).
  { unfold load, backing. cbn [s_arr s_off s_len].
    rewrite list_lookup_insert_eq by exact Harr.
    change (default [] (Some ?x)) with x.
    rewrite <- Hpre, drop_app_length. rewrite <- (assoc_L (++) q).
    replace (n - 1) with (length q) by lia. apply take_app_length. }
  eexists. split; [reflexivity|]. rewrite Hq_load.
  split; [lia|].
  intros x. pose proof (synthetic_eval a fzero x g) as He. rewrite Hsg in He.
  cbn [fst snd] in He. rewrite Eval_app in He.
  pose proof (synthetic_remainder a fzero g) as Hr. rewrite Hsg in Hr. cbn [fst] in Hr.
  unfold g in He, Hr. cbn [Eval] in He, Hr |- *.
  transitivity (f0 ⊖ fa ⊕ x ⊗ Eval f' x ⊕ fzero ⊗ fpow x (length ((f0 ⊖ fa) :: f'))); [ring|].
  rewrite He, Hr. ring.
Qed.

End QuotientFacts.

(** ** buildDomain, the bit-reversed index, the expected form *)

Section PowerOfTwoFacts.
Local Open Scope Z_scope.

(** [n & (n - 1) == 0] holds of 0 and of the powers of two only. *)
Lemma land_pred_zero_pow2 (n : Z) :
  0 < n -> Z.land n (n - 1) = 0 -> n = 2 ^ Z.log2 n.
Proof.
  intros Hn Hland.
  destruct (Z.log2_spec n Hn) as [Hlo Hhi].
  destruct (Z.eq_dec n (2 ^ Z.log2 n)) as [Heq|Hne]; [exact Heq|].
  exfalso.
  assert (Hlog : Z.log2 (n - 1) = Z.log2 n).
  { apply Z.log2_unique; [apply Z.log2_nonneg | lia]. }
  assert (Hb1 : Z.testbit n (Z.log2 n) = true) by (apply Z.bit_log2; lia).
  assert (Hb2 : Z.testbit (n - 1) (Z.log2 n) = true).
  { rewrite <- Hlog. apply Z.bit_log2.
    pose proof (Z.pow_pos_nonneg 2 (Z.log2 n) ltac:(lia) (Z.log2_nonneg n)). lia. }
  assert (Hb : Z.testbit (Z.land n (n - 1)) (Z.log2 n) = true)
    by (now rewrite Z.land_spec, Hb1, Hb2).
  rewrite Hland, Z.bits_0 in Hb. discriminate.
Qed.

Lemma land_pred_zero_iff (n : nat) :
  Z.land (Z.of_nat n) (Z.of_nat n - 1) = 0 <-> n = 0%nat \/ exists k : nat, n = (2 ^ k)%nat.
Proof.
  split.
  - intros Hland. destruct n as [|n']; [now left|]. right.
    set (n := Datatypes.S n') in *.
    pose proof (land_pred_zero_pow2 (Z.of_nat n) ltac:(lia) Hland) as Hpow.
    exists (Z.to_nat (Z.log2 (Z.of_nat n))).
    apply Nat2Z.inj. rewrite Nat2Z.inj_pow.
    rewrite Z2Nat.id by apply Z.log2_nonneg. exact Hpow.
  - intros [->|[k ->]]; [reflexivity|].
    rewrite Nat2Z.inj_pow. apply land_pow2_pred.
Qed.

End PowerOfTwoFacts.

Section DomainSizeFacts.
Context `{FO : FieldOps}.
Local Open Scope fr_scope.

(** X21: the outcomes of [buildDomain]: [ErrSizeNotPowerOfTwo] exactly
    when [n] is neither 0 nor a power of two,
    [ErrInconsistentSizeDomain] exactly when it is and the domain (given
    or created) has another cardinality, and otherwise that domain.  A
    size of 0 passes the test [n & (n-1)]. *)
Theorem buildDomain_outcome (newDomain : nat -> Domain) (n : nat) (domain : option Domain) :
  (buildDomain newDomain n domain = Err ErrSizeNotPowerOfTwo <->
     n <> 0 /\ forall k, n <> 2 ^ k) /\
  (buildDomain newDomain n domain = Err ErrInconsistentSizeDomain <->
     (n = 0 \/ exists k, n = 2 ^ k) /\
     Cardinality (default (newDomain n) domain) <> n) /\
  (forall D, buildDomain newDomain n domain = Ok D <->
     (n = 0 \/ exists k, n = 2 ^ k) /\
     Cardinality (default (newDomain n) domain) = n /\
     D = default (newDomain n) domain).
Proof.
  unfold buildDomain.
  replace (match domain with Some d => d | None => newDomain n end)
    with (default (newDomain n) domain) by (now destruct domain).
  destruct (Z.land (Z.of_nat n) (Z.of_nat n - 1) =? 0)%Z eqn:Hland;
    [apply Z.eqb_eq, land_pred_zero_iff in Hland | apply Z.eqb_neq in Hland]; cbn [negb].
  - assert (HnA : ~ (n <> 0 /\ forall k, n <> 2 ^ k)).
    { intros [H0 Hk]. destruct Hland as [->|[k ->]]; [congruence | now apply (Hk k)]. }
    destruct (Cardinality (default (newDomain n) domain) =? n) eqn:Hcard;
      [apply Nat.eqb_eq in Hcard | apply Nat.eqb_neq in Hcard]; cbn [negb].
    + split; [|split; [|intros D]].
      * split; [discriminate | tauto].
      * split; [discriminate | intros [_ Hne]; congruence].
      * split; [intros [= <-]; auto | intros (_ & _ & ->); reflexivity].
    + split; [|split; [|intros D]].
      * split; [discriminate | tauto].
      * split; auto.
      * split; [discriminate | intros (_ & Heq & _); congruence].
  - assert (HnA : n <> 0 /\ forall k, n <> 2 ^ k).
    { split; [intros ->; now apply Hland|].
      intros k ->. apply Hland, land_pred_zero_iff. eauto. }
    assert (HA : ~ (n = 0 \/ exists k, n = 2 ^ k)).
    { intros [->|[k ->]]; [now destruct HnA | now apply (proj2 HnA k)]. }
    split; [|split; [|intros D]].
    + split; auto.
    + split; [discriminate | tauto].
    + split; [discriminate | tauto].
Qed.

(** X22: the index [bits.Reverse64(uint64(i)) >> nn] the builders read
    bit-reversed polynomials at is, for a size [2^k] with [k <= 63] and
    [i < 2^k], an index below [2^k], and applying it twice gives [i]
    back. *)
Theorem iRev_of_involution (k i : nat) :
  k <= 63 -> i < 2 ^ k ->
  iRev_of (2 ^ k) i < 2 ^ k /\ iRev_of (2 ^ k) (iRev_of (2 ^ k) i) = i.
Proof.
  intros Hk Hi. split; [now apply iRev_of_lt | now apply iRev_of_involutive].
Qed.

End DomainSizeFacts.

Section ExpectedFormFacts.
Context `{FO : FieldOps} {FL : FieldLaws}.
Local Open Scope fr_scope.

(** X23: [putInExpectedFormFromLagrangeRegular] returns a polynomial in
    the form asked for, of the same length, whose values on the domain
    are the coefficients it was given. *)
Theorem putInExpectedFormFromLagrangeRegular_values
    (d : Domain) (p : Polynomial) (expectedForm : Form) :
  Domain_ok d ->
  length (coefficients p) = Cardinality d ->
  form (putInExpectedFormFromLagrangeRegular p d expectedForm) = expectedForm /\
  length (coefficients (putInExpectedFormFromLagrangeRegular p d expectedForm))
    = Cardinality d /\
  values_on d (putInExpectedFormFromLagrangeRegular p d expectedForm) = coefficients p.
Proof.
  intros Hd Hlen. split; [|split].
  - unfold putInExpectedFormFromLagrangeRegular. now destruct (fBasis expectedForm).
  - unfold putInExpectedFormFromLagrangeRegular, FFT, FFTInverse.
    destruct (fBasis expectedForm), (fLayout expectedForm); cbn [coefficients];
      rewrite ?bit_reverse_length, ?evaluate_on_length, ?interpolate_on_length;
      auto.
  - apply (putInExpectedForm_values d Hd (coefficients p) expectedForm Hlen).
Qed.

End ExpectedFormFacts.

(** ** The identity support *)

Section SupportFacts.
Context `{FO : FieldOps} {FL : FieldLaws}.
Local Open Scope fr_scope.
Add Field Ffield_k11 : F_field.

Lemma block_index_ne (n i k j j' : nat) : j < n -> j' < n -> k <> i -> k * n + j' <> i * n + j.
Proof. intros Hj Hj' Hne Heq. apply Hne. nia. Qed.

(** X24: on a domain of at least two points whose first twiddle table
    holds the first half of the powers of the generator,
    [getSupportIdentityPermutation] returns [nbCopies * n] elements: the
    powers [w^j] of the generator, then, for each further copy [i],
    their products by the coset element the code selects for [i]. *)
Theorem getSupportIdentityPermutation_values (d : Domain) (nbCopies : nat) (tw0 : list F) :
  1 <= nbCopies ->
  2 <= Cardinality d ->
  Twiddles d !! 0 = Some tw0 ->
  length tw0 = Cardinality d / 2 ->
  (forall j, j < Cardinality d / 2 -> tw0 !! j = Some (fpow (Generator d) j)) ->
  exists id : list F,
    getSupportIdentityPermutation nbCopies d = Ok id /\
    length id = nbCopies * Cardinality d /\
    (forall j, j < Cardinality d -> id !! j = Some (fpow (Generator d) j)) /\
    (forall i j, 1 <= i < nbCopies -> j < Cardinality d ->
       id !! (i * Cardinality d + j) =
       Some (fpow (Generator d) j ⊗
             (if i =? 1 then FrMultiplicativeGen d
              else if i <? length (CosetTable d) then CosetTable d !!! i
              else fpow (FrMultiplicativeGen d) i))).
Proof.
  intros Hm Hn Htw Htwl Htwv. unfold getSupportIdentityPermutation.
  set (n := Cardinality d) in *. set (w := Generator d) in *.
  set (cos := fun i : nat =>
    if i =? 1 then FrMultiplicativeGen d
    else if i <? length (CosetTable d) then CosetTable d !!! i
    else fpow (FrMultiplicativeGen d) i).
  assert (Hhalf : 1 <= n / 2 <= n).
  { split; [apply Nat.div_le_lower_bound; lia | apply Nat.Div0.div_le_upper_bound; lia]. }
  rewrite (index_Some _ _ _ Htw). cbn [mbind outcome_bind obind].
  rewrite length_replicate.
  rewrite take_ge by nia. rewrite inserts_fresh by nia.
  replace (Z.of_nat n / 2 - 1)%Z with (Z.of_nat (n / 2 - 1))
    by (rewrite Nat2Z.inj_sub, Nat2Z.inj_div by lia; reflexivity).
  replace (Z.of_nat (n / 2 - 1) <? 0)%Z with false by (symmetry; apply Z.ltb_ge; lia).
  cbn [andb]. rewrite Nat2Z.id.
  replace (Z.to_nat (Z.of_nat n - 1 - Z.of_nat (n / 2 - 1))) with (n - n / 2) by lia.
  pose (Inv1 := fun (i : nat) (res : list F) =>
    length res = nbCopies * n /\ forall j, j <= i -> res !! j = Some (fpow w j)).
  match goal with |- exists _, (for_range ?a ?c ?body ?s ≫= _) = _ /\ _ =>
    destruct (for_range_inv Inv1 a c body s) as (res1 & Hrun1 & Hl1 & Hv1) end.
  { split.
    - rewrite length_app, length_replicate. nia.
    - intros j Hj. rewrite lookup_app_l by lia. apply Htwv. lia. }
  { intros i res Hi [Hl Hv].
    eexists. split.
    { rewrite (index_Some _ _ _ (Hv i ltac:(lia))). cbn. apply assign_lt. nia. }
    split; [now rewrite length_insert|].
    intros j Hj. destruct (decide (j = Datatypes.S i)) as [->|Hne].
    - rewrite list_lookup_insert_eq by nia. f_equal. cbn [fpow]. ring.
    - rewrite list_lookup_insert_ne by congruence. apply Hv. lia. }
  replace (n / 2 - 1 + (n - n / 2)) with (n - 1) in Hv1 by lia.
  rewrite Hrun1. cbn [mbind outcome_bind obind].
  destruct (nbCopies <=? 1) eqn:Hone; [apply Nat.leb_le in Hone | apply Nat.leb_gt in Hone].
  { exists res1. split; [reflexivity|]. split; [exact Hl1|].
    split; [intros j Hj; apply Hv1; lia | intros; lia]. }
  pose (Inv2 := fun (i : nat) (res : list F) =>
    length res = nbCopies * n /\
    (forall j, j < n -> res !! j = Some (fpow w j)) /\
    (forall k j, 1 <= k < i -> j < n -> res !! (k * n + j) = Some (fpow w j ⊗ cos k))).
  match goal with |- exists _, for_range ?a ?c ?body ?s = _ /\ _ =>
    destruct (for_range_inv Inv2 a c body s) as (res2 & Hrun2 & Hl2 & Hv2 & Hc2) end.
  { split; [exact Hl1|]. split; [intros j Hj; apply Hv1; lia | intros; lia]. }
  { intros i res Hi (Hl & Hv & Hc).
    assert (Hcoset :
      (if i =? 1 then Ok (FrMultiplicativeGen d)
       else if i <? length (CosetTable d) then index (CosetTable d) i
       else Ok (fpow (FrMultiplicativeGen d) i)) = Ok (cos i)).
    { unfold cos. destruct (i =? 1); [reflexivity|].
      destruct (i <? length (CosetTable d)) eqn:Hct; [|reflexivity].
      apply Nat.ltb_lt in Hct. apply index_Some.
      now apply list_lookup_lookup_total_lt. }
    rewrite Hcoset. cbn [mbind outcome_bind obind].
    pose (Inv3 := fun (j : nat) (r : list F) =>
      length r = nbCopies * n /\
      (forall j', j' < n -> r !! j' = Some (fpow w j')) /\
      (forall k j', 1 <= k < i -> j' < n -> r !! (k * n + j') = Some (fpow w j' ⊗ cos k)) /\
      (forall j', j' < j -> r !! (i * n + j') = Some (fpow w j' ⊗ cos i))).
    match goal with |- exists _, for_range ?a ?c ?body ?s = _ /\ _ =>
      destruct (for_range_inv Inv3 a c body s) as (res3 & Hrun3 & Hl3 & Hv3 & Hc3 & Hn3) end.
    { split; [exact Hl|]. split; [exact Hv|]. split; [exact Hc | intros; lia]. }
    { intros j r Hj (Hlr & Hvr & Hcr & Hnr).
      assert (Hidx : i * n + j < length r) by (rewrite Hlr; nia).
      eexists. split.
      { rewrite (index_Some _ _ _ (Hvr j ltac:(lia))). cbn. now apply assign_lt. }
      split; [now rewrite length_insert|]. split; [|split].
      - intros j' Hj'. rewrite list_lookup_insert_ne by nia. now apply Hvr.
      - intros k j' Hk Hj'.
        rewrite list_lookup_insert_ne by (apply not_eq_sym, block_index_ne; lia).
        now apply Hcr.
      - intros j' Hj'. destruct (decide (j' = j)) as [->|Hne].
        + now rewrite list_lookup_insert_eq by exact Hidx.
        + rewrite list_lookup_insert_ne by lia. apply Hnr. lia. }
    exists res3. split; [exact Hrun3|].
    split; [exact Hl3|]. split; [exact Hv3|].
    intros k j Hk Hj. destruct (decide (k = i)) as [->|Hne].
    - apply Hn3. lia.
    - apply Hc3; lia. }
  exists res2. split; [exact Hrun2|]. split; [exact Hl2|]. split; [exact Hv2|].
  intros i j Hi Hj. apply Hc2; lia.
Qed.


End SupportFacts.

(** ** BuildRatioCopyConstraint: the recurrence *)

Section CopyRecurrenceFacts.
Context `{FO : FieldOps} {FL : FieldLaws}.
Local Open Scope fr_scope.
Add Field Ffield_k12 : F_field.

Variable d : Domain.
Hypothesis Hd : Domain_ok d.

(** The two products of a step of [BuildRatioCopyConstraint], on a store
    whose polynomials are in Lagrange form. *)
Lemma copy_step_ok (st : PStore) (entries : list nat) (permutation : list Z)
    (beta gamma : F) (id : list F) (i : nat) :
  (forall ptr, ptr ∈ entries ->
     exists P, st !! ptr = Some P /\ fBasis (form P) = Lagrange /\
               length (coefficients P) = Cardinality d) ->
  length id = length entries * Cardinality d ->
  (forall idx, idx < length entries * Cardinality d ->
     exists s, permutation !! idx = Some s /\ (0 <= s < Z.of_nat (length id))%Z) ->
  i < Cardinality d ->
  copy_step st entries permutation beta gamma id (Cardinality d) i =
  Ok (prefix_prod
        (fun j => beta ⊗ (id !!! (i + j * Cardinality d)%nat) ⊕ gamma
                  ⊕ value_at d st (entries !!! j) i) (length entries),
      prefix_prod
        (fun j => beta ⊗ (id !!! Z.to_nat (permutation !!! (i + j * Cardinality d)%nat))
                  ⊕ gamma ⊕ value_at d st (entries !!! j) i) (length entries)).
Proof.
  intros Hptrs Hid Hperm Hi. unfold copy_step.
  set (n := Cardinality d) in *.
  set (fB := fun j => beta ⊗ (id !!! (i + j * n)%nat) ⊕ gamma
                      ⊕ value_at d st (entries !!! j) i).
  set (fD := fun j => beta ⊗ (id !!! Z.to_nat (permutation !!! (i + j * n)%nat))
                      ⊕ gamma ⊕ value_at d st (entries !!! j) i).
  pose (Inv := fun (j : nat) (s : F * F) => s = (prefix_prod fB j, prefix_prod fD j)).
  match goal with |- for_range 0 _ ?body _ = _ =>
    destruct (for_range_inv Inv 0 (length entries) body (fone, fone))
      as (s' & Hrun & Hs') end.
  - reflexivity.
  - intros j [b dd] Hj Hinv. unfold Inv in Hinv. injection Hinv as -> ->.
    destruct (lookup_lt_is_Some_2 entries j ltac:(lia)) as [ptr Hptr].
    destruct (Hptrs ptr) as (P & HP & HbP & HlP).
    { eapply list_elem_of_lookup_2; eauto. }
    assert (Hidx : i + j * n < length entries * n) by nia.
    destruct (lookup_lt_is_Some_2 id (i + j * n) ltac:(lia)) as [e1 He1].
    destruct (Hperm _ Hidx) as (s & Hs & Hsr).
    destruct (lookup_lt_is_Some_2 id (Z.to_nat s) ltac:(lia)) as [e2 He2].
    eexists. split.
    { rewrite (index_Some _ _ _ Hptr). cbn. rewrite (deref_Some _ _ _ HP). cbn.
      rewrite (index_Some _ _ _ He1). cbn.
      unfold n. rewrite (coeff_at_value d Hd P i HbP HlP Hi). cbn.
      fold n. rewrite (index_Some _ _ _ Hs). cbn.
      unfold indexZ.
      replace (s <? 0)%Z with false by (symmetry; apply Z.ltb_ge; lia).
      rewrite (index_Some _ _ _ He2). cbn. reflexivity. }
    assert (HfB : fB j = beta ⊗ e1 ⊕ gamma ⊕ values_on d P !!! i).
    { unfold fB, value_at.
      rewrite (list_lookup_total_correct _ _ _ Hptr), (list_lookup_total_correct _ _ _ He1).
      now rewrite HP. }
    assert (HfD : fD j = beta ⊗ e2 ⊕ gamma ⊕ values_on d P !!! i).
    { unfold fD, value_at.
      rewrite (list_lookup_total_correct _ _ _ Hptr), (list_lookup_total_correct _ _ _ Hs).
      rewrite (list_lookup_total_correct _ _ _ He2). now rewrite HP. }
    unfold Inv. cbn [prefix_prod]. now rewrite HfB, HfD.
  - unfold Inv in Hs'. rewrite Hrun, Hs'. reflexivity.
Qed.

(** The main loop of [BuildRatioCopyConstraint]: the products of the steps,
    one slot up. *)
Lemma copy_main_loop_values (n : nat) (step : nat -> outcome (F * F)) (B D : nat -> F)
    (v0 : list F) :
  (forall i, i < n - 1 -> step i = Ok (B i, D i)) ->
  length v0 = n ->
  v0 !! 0 = Some fone ->
  exists cs ts,
    for_range 0 (n - 1)
      (fun i '(coeffs, t) =>
         '(b, d) ← step i;
         coeffs ← assign coeffs (Datatypes.S i) b;
         t ← assign t (Datatypes.S i) d;
         Ok (coeffs, t))
      (v0, v0) = Ok (cs, ts) /\
    length cs = n /\ length ts = n /\
    cs !! 0 = Some fone /\ ts !! 0 = Some fone /\
    (forall l, l + 1 < n -> cs !! (l + 1) = Some (B l)) /\
    (forall l, l + 1 < n -> ts !! (l + 1) = Some (D l)).
Proof.
  intros Hstep Hlen Hv0.
  pose (Inv := fun (i : nat) (s : list F * list F) =>
    length (fst s) = n /\ length (snd s) = n /\
    fst s !! 0 = Some fone /\ snd s !! 0 = Some fone /\
    (forall l, l < i -> fst s !! (l + 1) = Some (B l)) /\
    (forall l, l < i -> snd s !! (l + 1) = Some (D l))).
  match goal with |- exists _ _, for_range 0 _ ?body _ = _ /\ _ =>
    destruct (for_range_inv Inv 0 (n - 1) body (v0, v0))
      as ([cs ts] & Hrun & Hlc & Hlt & Hc0 & Ht0 & Hcs & Hts) end.
  - repeat split; cbn [fst snd]; try assumption; intros; lia.
  - intros i [ci ti] Hi (Hlc & Hlt & Hc0 & Ht0 & Hcs & Hts). cbn [fst snd] in *.
    eexists. split.
    { rewrite (Hstep i) by lia. cbn.
      rewrite assign_lt by lia. cbn. rewrite assign_lt by lia. cbn. reflexivity. }
    repeat split; cbn [fst snd]; rewrite ?length_insert; try assumption.
    + now rewrite list_lookup_insert_ne by lia.
    + now rewrite list_lookup_insert_ne by lia.
    + intros l Hl. destruct (decide (l = i)) as [->|Hne].
      * replace (i + 1) with (Datatypes.S i) by lia.
        now rewrite list_lookup_insert_eq by lia.
      * rewrite list_lookup_insert_ne by lia. apply Hcs. lia.
    + intros l Hl. destruct (decide (l = i)) as [->|Hne].
      * replace (i + 1) with (Datatypes.S i) by lia.
        now rewrite list_lookup_insert_eq by lia.
      * rewrite list_lookup_insert_ne by lia. apply Hts. lia.
  - cbn [fst snd] in *. exists cs, ts. repeat split; try assumption.
    + intros l Hl. apply Hcs. lia.
    + intros l Hl. apply Hts. lia.
Qed.

Lemma prefix_products_values (v : list F) (B : nat -> F) :
  v !! 0 = Some fone ->
  (forall l, l + 1 < length v -> v !! (l + 1) = Some (B l)) ->
  exists r, prefix_products v = Ok r /\ length r = length v /\
            forall l, l < length v -> r !! l = Some (prefix_prod B l).
Proof.
  intros H0 Hv. unfold prefix_products.
  pose (Inv := fun (i : nat) (r : list F) =>
    length r = length v /\
    (forall l, l < i -> l < length v -> r !! l = Some (prefix_prod B l)) /\
    (forall l, i <= l -> r !! l = v !! l)).
  match goal with |- exists _, for_range 2 _ ?body _ = _ /\ _ =>
    destruct (for_range_inv Inv 2 (length v - 2) body v) as (r & Hrun & Hl & Hdone & _) end.
  - split; [reflexivity|]. split; [|auto].
    intros l Hl Hlv. destruct l as [|[|l]]; [exact H0 | | lia].
    pose proof (Hv 0 ltac:(lia)) as Hv1. cbn [Nat.add] in Hv1.
    rewrite Hv1. f_equal. cbn [prefix_prod]. ring.
  - intros i r Hi (Hl & Hdone & Hrest).
    assert (Hx : r !! i = Some (B (i - 1))).
    { rewrite Hrest by lia. replace i with ((i - 1) + 1) at 1 by lia. apply Hv. lia. }
    assert (Hy : r !! (i - 1) = Some (prefix_prod B (i - 1))) by (apply Hdone; lia).
    eexists. split.
    { rewrite (index_Some _ _ _ Hx). cbn. rewrite (index_Some _ _ _ Hy). cbn.
      apply assign_lt. lia. }
    split; [now rewrite length_insert|]. split.
    + intros l Hli Hlv. destruct (decide (l = i)) as [->|Hne].
      * rewrite list_lookup_insert_eq by lia. f_equal.
        replace i with (Datatypes.S (i - 1)) at 3 by lia. cbn [prefix_prod]. ring.
      * rewrite list_lookup_insert_ne by congruence. apply Hdone; lia.
    + intros l Hli. rewrite list_lookup_insert_ne by lia. apply Hrest. lia.
  - exists r. split; [exact Hrun|]. split; [exact Hl|].
    intros l Hlv. apply Hdone; lia.
Qed.

(** The last loop: the quotients from index 1 on. *)
Lemma ratio_last_loop (cs ts : list F) :
  length ts = length cs ->
  (forall l, 1 <= l < length cs -> ts !!! l <> fzero) ->
  exists r,
    for_range 1 (length cs - 1)
      (fun i r => c ← index r i; ti ← index (BatchInvert (drop 1 ts)) (i - 1);
                  assign r i (c ⊗ ti))
      cs = Ok r /\
    length r = length cs /\
    r !! 0 = cs !! 0 /\
    (forall l, 1 <= l < length cs -> r !! l = Some ((cs !!! l) ⊗ finv (ts !!! l))).
Proof.
  intros Hlen Hnz.
  pose (Inv := fun (i : nat) (r : list F) =>
    length r = length cs /\
    (forall l, 1 <= l < i -> l < length cs ->
       r !! l = Some ((cs !!! l) ⊗ finv (ts !!! l))) /\
    (forall l, l = 0 \/ i <= l -> r !! l = cs !! l)).
  match goal with |- exists _, for_range 1 _ ?body _ = _ /\ _ =>
    destruct (for_range_inv Inv 1 (length cs - 1) body cs)
      as (r & Hrun & Hlr & Hdone & Hrest) end.
  - repeat split; auto; intros; lia.
  - intros i r Hi (Hlr & Hdone & Hrest).
    assert (Hri : r !! i = Some (cs !!! i)).
    { rewrite Hrest by lia. apply list_lookup_lookup_total_lt. lia. }
    assert (Hti : BatchInvert (drop 1 ts) !! (i - 1) = Some (finv (ts !!! i))).
    { apply BatchInvert_lookup; [|apply Hnz; lia].
      rewrite lookup_drop. replace (1 + (i - 1)) with i by lia.
      apply list_lookup_lookup_total_lt. lia. }
    eexists. split.
    { rewrite (index_Some _ _ _ Hri). cbn. rewrite (index_Some _ _ _ Hti). cbn.
      apply assign_lt. lia. }
    repeat split; rewrite ?length_insert; try assumption.
    + intros l Hl Hln. destruct (decide (l = i)) as [->|Hne].
      * rewrite list_lookup_insert_eq by lia. reflexivity.
      * rewrite list_lookup_insert_ne by congruence. apply Hdone; lia.
    + intros l Hl. rewrite list_lookup_insert_ne by lia. apply Hrest. lia.
  - exists r. repeat split; try assumption.
    + apply Hrest. now left.
    + intros l Hl. apply Hdone; lia.
Qed.

Lemma prefix_prod_ext (f g : nat -> F) (m : nat) :
  (forall j, j < m -> f j = g j) -> prefix_prod f m = prefix_prod g m.
Proof.
  induction m as [|m IH]; intros Hfg; [reflexivity|].
  cbn [prefix_prod]. rewrite IH, Hfg by (intros; try apply Hfg; lia). reflexivity.
Qed.

(** X25: the accumulating ratio of [BuildRatioCopyConstraint], for any
    permutation with entries in range and denominators that are not
    zero: the polynomial returned has value 1 at [w^0], and its value at
    [w^(i+1)] is its value at [w^i] times the product of the
    [beta id(i + j n) + gamma + entry_j(w^i)] over the product of the
    [beta id(permutation(i + j n)) + gamma + entry_j(w^i)]. *)
Theorem BuildRatioCopyConstraint_recurrence
    (newDomain : nat -> Domain) (entries : list nat) (permutation : list Z)
    (beta gamma : F) (expectedForm : Form) (domain : option Domain) (st : PStore)
    (id : list F) :
  default (newDomain (Cardinality d)) domain = d ->
  2 <= Cardinality d ->
  entries <> [] ->
  (forall ptr, ptr ∈ entries ->
     exists P, st !! ptr = Some P /\ length (coefficients P) = Cardinality d) ->
  getSupportIdentityPermutation (length entries) d = Ok id ->
  (forall idx, idx < length entries * Cardinality d ->
     exists s, permutation !! idx = Some s /\
               (0 <= s < Z.of_nat (length entries * Cardinality d))%Z) ->
  (forall i j, i < Cardinality d - 1 -> j < length entries ->
     beta ⊗ (id !!! Z.to_nat (permutation !!! (i + j * Cardinality d)%nat)) ⊕ gamma
     ⊕ value_at d st (entries !!! j) i <> fzero) ->
  exists (Z : Polynomial) (st' : PStore),
    BuildRatioCopyConstraint newDomain entries permutation beta gamma expectedForm domain st
      = Ok (Z, st') /\
    length (values_on d Z) = Cardinality d /\
    values_on d Z !! 0 = Some fone /\
    forall i, i + 1 < Cardinality d ->
      values_on d Z !!! (i + 1) =
      (values_on d Z !!! i)
      ⊗ prefix_prod
          (fun j => beta ⊗ (id !!! (i + j * Cardinality d)%nat) ⊕ gamma
                    ⊕ value_at d st (entries !!! j) i) (length entries)
      ⊗ finv (prefix_prod
          (fun j => beta ⊗ (id !!! Z.to_nat (permutation !!! (i + j * Cardinality d)%nat))
                    ⊕ gamma ⊕ value_at d st (entries !!! j) i) (length entries)).
Proof.
  intros Hdom Hn Hne Hptrs Hid Hperm Hnz.
  set (n := Cardinality d) in *.
  destruct entries as [|p0 rest] eqn:Hentries; [congruence|]. rewrite <- Hentries in *.
  set (B := fun i => prefix_prod
          (fun j => beta ⊗ (id !!! (i + j * n)%nat) ⊕ gamma
                    ⊕ value_at d st (entries !!! j) i) (length entries)).
  set (D := fun i => prefix_prod
          (fun j => beta ⊗ (id !!! Z.to_nat (permutation !!! (i + j * n)%nat))
                    ⊕ gamma ⊕ value_at d st (entries !!! j) i) (length entries)).
  destruct (Hptrs p0) as (P0 & HP0 & HlP0); [rewrite Hentries; apply list_elem_of_here|].
  destruct (to_lagrange_all_ok d Hd st entries st (lagranged_refl d st))
    as (st1 & Hconv & Hlag & _ & Hst1).
  { intros ptr Hin. destruct (Hptrs ptr Hin) as (P & HP & _). eauto. }
  assert (Hst1' : forall ptr, ptr ∈ entries ->
            exists P, st1 !! ptr = Some P /\ fBasis (form P) = Lagrange /\
                      length (coefficients P) = Cardinality d).
  { intros ptr Hin. destruct (Hptrs ptr Hin) as (P & HP & HlP).
    exists (ToLagrange d P). split; [now apply Hst1|].
    split; [apply ToLagrange_basis | now apply ToLagrange_length]. }
  assert (Hval : forall ptr i, ptr ∈ entries ->
            value_at d st1 ptr i = value_at d st ptr i).
  { intros ptr i Hin. destruct (Hptrs ptr Hin) as (P & HP & HlP).
    unfold value_at. rewrite (Hst1 ptr P Hin HP), HP.
    now rewrite ToLagrange_values. }
  assert (Htw : Twiddles d <> []).
  { intros Htw. unfold getSupportIdentityPermutation in Hid. rewrite Htw in Hid.
    discriminate. }
  assert (Hidlen : length id = length entries * n).
  { destruct (getSupportIdentityPermutation_ok d (length entries))
      as (id' & Hid' & Hl'); try assumption.
    - rewrite Hentries. simpl. lia.
    - rewrite Hid in Hid'. injection Hid' as <-. exact Hl'. }
  assert (Hin_entries : forall j, j < length entries -> entries !!! j ∈ entries).
  { intros j Hj. eapply list_elem_of_lookup_2. now apply list_lookup_lookup_total_lt. }
  assert (Hstep : forall i, i < n - 1 ->
            copy_step st1 entries permutation beta gamma id n i = Ok (B i, D i)).
  { intros i Hi. unfold n. rewrite copy_step_ok; try assumption; try (unfold n in *; lia).
    - unfold B, D. fold n. f_equal. f_equal; apply prefix_prod_ext; intros j Hj;
        now rewrite Hval by (now apply Hin_entries).
    - intros idx Hidx. fold n in Hidx. destruct (Hperm idx Hidx) as (s & Hs & Hsr).
      exists s. split; [exact Hs|]. rewrite Hidlen. exact Hsr. }
  destruct (one_then_zeros_ok n ltac:(lia)) as (v0 & Hv0 & Hv0len & Hv00).
  destruct (copy_main_loop_values n (copy_step st1 entries permutation beta gamma id n) B D v0
              Hstep Hv0len Hv00) as (cs & ts & Hmain & Hcl & Htl & Hc0 & Ht0 & Hcs & Hts).
  destruct (prefix_products_values cs B Hc0) as (cs' & Hpc & Hcl' & Hcs').
  { intros l Hl. apply Hcs. lia. }
  destruct (prefix_products_values ts D Ht0) as (ts' & Hpt & Htl' & Hts').
  { intros l Hl. apply Hts. lia. }
  assert (HDnz : forall l, l < n -> prefix_prod D l <> fzero).
  { intros l Hl. apply prefix_prod_nonzero. intros i Hi. unfold D.
    apply prefix_prod_nonzero. intros j Hj. apply Hnz; lia. }
  destruct (ratio_last_loop cs' ts') as (r & Hlast & Hrl & Hr0 & Hr).
  { congruence. }
  { intros l Hl. pose proof (Hts' l ltac:(lia)) as Htsl.
    apply list_lookup_total_correct in Htsl. rewrite Htsl. apply HDnz. lia. }
  assert (Hrv : forall l, l < n -> r !!! l = prefix_prod B l ⊗ finv (prefix_prod D l)).
  { intros l Hl. apply list_lookup_total_correct.
    destruct l as [|l].
    - rewrite Hr0, (Hcs' 0) by lia. cbn. f_equal. field. apply fone_nonzero.
    - rewrite Hr by lia.
      pose proof (Hcs' (Datatypes.S l) ltac:(lia)) as Hcsl.
      pose proof (Hts' (Datatypes.S l) ltac:(lia)) as Htsl.
      apply list_lookup_total_correct in Hcsl, Htsl. now rewrite Hcsl, Htsl. }
  eexists _, st1. split.
  { unfold BuildRatioCopyConstraint.
    rewrite Hentries at 1. rewrite (checkSize_entries st p0 rest P0 HP0).
    cbn [mbind outcome_bind obind].
    replace (index entries 0) with (Ok p0) by (rewrite Hentries; reflexivity).
    cbn [mbind outcome_bind obind]. rewrite (deref_Some _ _ _ HP0).
    cbn [mbind outcome_bind obind]. rewrite HlP0.
    pose proof (buildDomain_ok d Hd newDomain domain Hdom) as Hbd. fold n in Hbd.
    rewrite Hbd. cbn [mbind outcome_bind obind].
    rewrite Hconv. cbn [mbind outcome_bind obind].
    rewrite Hid. cbn [mbind outcome_bind obind].
    rewrite Hv0. cbn [mbind outcome_bind obind].
    rewrite Hmain. cbn [mbind outcome_bind obind].
    rewrite Hpc. cbn [mbind outcome_bind obind].
    rewrite Hpt. cbn [mbind outcome_bind obind].
    replace (n - 1) with (length cs' - 1) by lia.
    rewrite Hlast. cbn [mbind outcome_bind obind]. reflexivity. }
  assert (Hrn : length r = Cardinality d) by (unfold n in *; congruence).
  rewrite (putInExpectedForm_values d Hd) by assumption.
  split; [exact Hrn|]. split.
  - rewrite Hr0, (Hcs' 0) by lia. reflexivity.
  - intros i Hi. rewrite !Hrv by (unfold n; lia).
    replace (i + 1) with (Datatypes.S i) by lia. cbn [prefix_prod].
    fold (B i) (D i).
    assert (Hdi : D i <> fzero).
    { unfold D. apply prefix_prod_nonzero. intros j Hj. apply Hnz; lia. }
    pose proof (HDnz i ltac:(unfold n; lia)) as Hpi.
    field. split; assumption.
Qed.

End CopyRecurrenceFacts.

(** ** The builders: size errors and the one-point domain *)

Section BuilderErrorFacts.
Context `{FO : FieldOps}.
Local Open Scope fr_scope.

Lemma to_lagrange_all_total (d : Domain) (ptrs : list nat) (st : PStore) :
  (forall ptr, ptr ∈ ptrs -> ptr < length st) ->
  exists st', to_lagrange_all d ptrs st = Ok st' /\ length st' = length st.
Proof.
  revert st. induction ptrs as [|ptr ptrs IH]; intros st Hptrs; [eauto|].
  destruct (lookup_lt_is_Some_2 st ptr (Hptrs ptr ltac:(apply list_elem_of_here))) as [P HP].
  destruct (IH (<[ptr := ToLagrange d P]> st)) as (st' & Hrun & Hlen).
  { intros q Hq. rewrite length_insert. apply Hptrs. now apply list_elem_of_further. }
  exists st'. cbn [to_lagrange_all]. rewrite (deref_Some _ _ _ HP). cbn.
  split; [exact Hrun|]. now rewrite Hlen, length_insert.
Qed.

Lemma getSupportIdentityPermutation_one (d : Domain) (nbCopies : nat) :
  Cardinality d = 1 ->
  getSupportIdentityPermutation nbCopies d = Abort "index out of range".
Proof.
  intros Hc. unfold getSupportIdentityPermutation. rewrite Hc.
  destruct (Twiddles d) as [|tw0 tws]; reflexivity.
Qed.

(** X26: [BuildRatioCopyConstraint] on polynomials of one coefficient
    each and a domain of one point panics on an index out of range: the
    sizes pass the checks, and the loop that completes the identity
    support starts at index [-1]. *)
Theorem BuildRatioCopyConstraint_one_point_panics
    (newDomain : nat -> Domain) (p0 : nat) (rest : list nat) (P0 : Polynomial)
    (permutation : list Z) (beta gamma : F) (expectedForm : Form)
    (domain : option Domain) (st : PStore) :
  st !! p0 = Some P0 ->
  length (coefficients P0) = 1 ->
  (forall ptr, ptr ∈ rest ->
     exists P, st !! ptr = Some P /\ length (coefficients P) = 1) ->
  Cardinality (default (newDomain 1) domain) = 1 ->
  BuildRatioCopyConstraint newDomain (p0 :: rest) permutation beta gamma expectedForm domain st
  = Abort "index out of range".
Proof.
  intros HP0 Hl0 Hrest Hcard. unfold BuildRatioCopyConstraint.
  rewrite (checkSize_entries st p0 rest P0 HP0). cbn [mbind outcome_bind obind].
  replace (index (p0 :: rest) 0) with (Ok p0) by reflexivity.
  cbn [mbind outcome_bind obind]. rewrite (deref_Some _ _ _ HP0).
  cbn [mbind outcome_bind obind]. rewrite Hl0.
  assert (Hbd : buildDomain newDomain 1 domain = Ok (default (newDomain 1) domain)).
  { unfold buildDomain.
    replace (Z.land (Z.of_nat 1) (Z.of_nat 1 - 1) =? 0)%Z with true by reflexivity.
    cbn [negb].
    replace (match domain with Some d => d | None => newDomain 1 end)
      with (default (newDomain 1) domain) by (now destruct domain).
    now rewrite Hcard. }
  rewrite Hbd. cbn [mbind outcome_bind obind].
  destruct (to_lagrange_all_total (default (newDomain 1) domain) (p0 :: rest) st)
    as (st1 & Hconv & _).
  { intros ptr Hin. apply elem_of_cons in Hin as [->|Hin].
    - eapply lookup_lt_Some; eauto.
    - destruct (Hrest _ Hin) as (P & HP & _). eapply lookup_lt_Some; eauto. }
  rewrite Hconv. cbn [mbind outcome_bind obind].
  now rewrite getSupportIdentityPermutation_one.
Qed.


End BuilderErrorFacts.

(** ** The builders: what they leave in the store *)

Section StoreFacts.
Context `{FO : FieldOps}.
Local Open Scope fr_scope.


(** A loop that returns has kept its invariant. *)
Lemma for_range_inv_partial {S : Type} (Inv : nat -> S -> Prop)
    (start count : nat) (body : nat -> S -> outcome S) (s s' : S) :
  Inv start s ->
  (forall i s s1, start <= i < start + count -> Inv i s -> body i s = Ok s1 ->
     Inv (Datatypes.S i) s1) ->
  for_range start count body s = Ok s' ->
  Inv (start + count) s'.
Proof.
  revert start s. induction count as [|count IH]; intros start s Hs Hbody Hrun.
  - cbn in Hrun. injection Hrun as <-. now rewrite Nat.add_0_r.
  - cbn [for_range] in Hrun.
    destruct (body start s) as [s1| |] eqn:Hb; try discriminate.
    cbn in Hrun.
    replace (start + Datatypes.S count) with (Datatypes.S start + count) by lia.
    apply (IH (Datatypes.S start) s1); [|intros i s2 s3 Hi; apply Hbody; lia | exact Hrun].
    apply (Hbody start s); [lia | exact Hs | exact Hb].
Qed.

Lemma converted_at_nil (d : Domain) (st : PStore) : converted_at d [] st st.
Proof.
  split; [reflexivity|]. split; [reflexivity|].
  intros q P Hq. now apply elem_of_nil in Hq.
Qed.

Lemma converted_at_touch (d : Domain) (T : list nat) (st sti : PStore) (p : nat)
    (P' : Polynomial) :
  converted_at d T st sti ->
  sti !! p = Some P' ->
  converted_at d (T ++ [p]) st (<[p := ToLagrange d P']> sti).
Proof.
  intros (Hlen & Hout & Hin) Hp.
  assert (Hlt : p < length sti) by (eapply lookup_lt_Some; eauto).
  split; [now rewrite length_insert|]. split.
  - intros q Hq. rewrite elem_of_app, list_elem_of_singleton in Hq.
    rewrite list_lookup_insert_ne by (intros ->; tauto). apply Hout. tauto.
  - intros q P Hq HP. destruct (decide (q = p)) as [->|Hne].
    + rewrite list_lookup_insert_eq by exact Hlt. f_equal.
      destruct (decide (p ∈ T)) as [HpT|HpT].
      * rewrite (Hin p P HpT HP) in Hp. injection Hp as <-.
        apply ToLagrange_idempotent.
      * rewrite (Hout p HpT), HP in Hp. now injection Hp as <-.
    + rewrite list_lookup_insert_ne by congruence.
      apply Hin; [|exact HP].
      rewrite elem_of_app, list_elem_of_singleton in Hq. tauto.
Qed.

Lemma converted_at_same (d : Domain) (T T' : list nat) (st st' : PStore) :
  (forall q, q ∈ T <-> q ∈ T') -> converted_at d T st st' -> converted_at d T' st st'.
Proof.
  intros Hsame (Hlen & Hout & Hin). split; [exact Hlen|]. split.
  - intros q Hq. apply Hout. now rewrite Hsame.
  - intros q P Hq. apply Hin. now rewrite Hsame.
Qed.

Lemma to_lagrange_all_converted (d : Domain) (T ptrs : list nat) (st0 st st' : PStore) :
  converted_at d T st0 st ->
  to_lagrange_all d ptrs st = Ok st' ->
  converted_at d (T ++ ptrs) st0 st'.
Proof.
  revert T st. induction ptrs as [|ptr ptrs IH]; intros T st Hconv Hrun.
  - cbn in Hrun. injection Hrun as <-. now rewrite app_nil_r.
  - cbn [to_lagrange_all] in Hrun. unfold deref in Hrun.
    destruct (st !! ptr) as [P|] eqn:HP; [|discriminate]. cbn in Hrun.
    apply (converted_at_same d ((T ++ [ptr]) ++ ptrs)).
    { intros q. now rewrite <- (assoc_L (++)). }
    apply (IH _ (<[ptr := ToLagrange d P]> st)); [|exact Hrun].
    now apply converted_at_touch.
Qed.

Lemma buildDomain_Ok_inv (newDomain : nat -> Domain) (n : nat) (domain : option Domain)
    (dom : Domain) :
  buildDomain newDomain n domain = Ok dom ->
  dom = default (newDomain n) domain /\ Cardinality dom = n.
Proof.
  unfold buildDomain. destruct (negb _); [discriminate|].
  replace (match domain with Some d => d | None => newDomain n end)
    with (default (newDomain n) domain) by (now destruct domain).
  destruct (Cardinality _ =? n) eqn:Hc; [|discriminate].
  apply Nat.eqb_eq in Hc. intros [= <-]. auto.
Qed.

(** X28: when [BuildRatioCopyConstraint] returns, the polynomials its
    entries point to have been converted to Lagrange form in place, and
    every other polynomial of the store is as it was. *)
Theorem BuildRatioCopyConstraint_converts_in_place
    (newDomain : nat -> Domain) (entries : list nat) (permutation : list Z)
    (beta gamma : F) (expectedForm : Form) (domain : option Domain) (st st' : PStore)
    (Z : Polynomial) :
  BuildRatioCopyConstraint newDomain entries permutation beta gamma expectedForm domain st
    = Ok (Z, st') ->
  exists dom : Domain,
    dom = default (newDomain (Cardinality dom)) domain /\
    converted_at dom entries st st'.
Proof.
  unfold BuildRatioCopyConstraint. intros Hrun.
  destruct (checkSize st [entries]) as [[]| |]; try discriminate.
  cbn [mbind outcome_bind obind] in Hrun.
  destruct (index entries 0) as [p0| |]; try discriminate.
  cbn [mbind outcome_bind obind] in Hrun.
  destruct (deref st p0) as [P0| |]; try discriminate.
  cbn [mbind outcome_bind obind] in Hrun.
  destruct (buildDomain newDomain _ domain) as [dom| |] eqn:Hbd; try discriminate.
  cbn [mbind outcome_bind obind] in Hrun.
  destruct (to_lagrange_all dom entries st) as [st1| |] eqn:Hconv; try discriminate.
  cbn [mbind outcome_bind obind] in Hrun.
  destruct (getSupportIdentityPermutation _ dom) as [id| |]; try discriminate.
  cbn [mbind outcome_bind obind] in Hrun.
  destruct (one_then_zeros _) as [v0| |]; try discriminate.
  cbn [mbind outcome_bind obind] in Hrun.
  destruct (for_range 0 _ _ (v0, v0)) as [[cs ts]| |]; try discriminate.
  cbn [mbind outcome_bind obind] in Hrun.
  destruct (prefix_products cs) as [cs'| |]; try discriminate.
  cbn [mbind outcome_bind obind] in Hrun.
  destruct (prefix_products ts) as [ts'| |]; try discriminate.
  cbn [mbind outcome_bind obind] in Hrun.
  destruct (for_range 1 _ _ cs') as [r| |]; try discriminate.
  cbn [mbind outcome_bind obind] in Hrun.
  injection Hrun as _ <-.
  apply buildDomain_Ok_inv in Hbd as [Hdom Hcard].
  exists dom. split; [now rewrite Hcard|].
  apply (to_lagrange_all_converted dom [] entries st st st1); [apply converted_at_nil|exact Hconv].
Qed.

(** X29: when [BuildRatioShuffledVectors] returns, the polynomials its
    numerators and denominators point to have been converted to Lagrange
    form in place, and every other polynomial of the store is as it
    was. *)
Theorem BuildRatioShuffledVectors_converts_in_place
    (newDomain : nat -> Domain) (numerator denominator : list nat)
    (beta : F) (expectedForm : Form) (domain : option Domain) (st st' : PStore)
    (Z : Polynomial) :
  BuildRatioShuffledVectors newDomain numerator denominator beta expectedForm domain st
    = Ok (Z, st') ->
  exists dom : Domain,
    dom = default (newDomain (Cardinality dom)) domain /\
    converted_at dom (numerator ++ denominator) st st'.
Proof.
  unfold BuildRatioShuffledVectors. intros Hrun.
  destruct (length numerator =? length denominator) eqn:Hlen; [|discriminate].
  apply Nat.eqb_eq in Hlen. cbn [negb] in Hrun.
  destruct (checkSize st _) as [[]| |]; try discriminate.
  cbn [mbind outcome_bind obind] in Hrun.
  destruct (index numerator 0) as [p0| |]; try discriminate.
  cbn [mbind outcome_bind obind] in Hrun.
  destruct (deref st p0) as [P0| |]; try discriminate.
  cbn [mbind outcome_bind obind] in Hrun.
  destruct (buildDomain newDomain _ domain) as [dom| |] eqn:Hbd; try discriminate.
  cbn [mbind outcome_bind obind] in Hrun.
  destruct (for_range 0 (length numerator) _ st) as [st1| |] eqn:Hconv; try discriminate.
  cbn [mbind outcome_bind obind] in Hrun.
  destruct (one_then_zeros _) as [v0| |]; try discriminate.
  cbn [mbind outcome_bind obind] in Hrun.
  destruct (for_range 0 _ _ (v0, v0)) as [[cs ts]| |]; try discriminate.
  cbn [mbind outcome_bind obind] in Hrun.
  destruct (mul_pointwise_from1 cs _) as [r| |]; try discriminate.
  cbn [mbind outcome_bind obind] in Hrun.
  injection Hrun as _ <-.
  apply buildDomain_Ok_inv in Hbd as [Hdom Hcard].
  exists dom. split; [now rewrite Hcard|].
  pose (Inv := fun (i : nat) (sti : PStore) =>
    converted_at dom (take i numerator ++ take i denominator) st sti).
  apply (for_range_inv_partial Inv) in Hconv.
  - unfold Inv in Hconv. cbn [Nat.add] in Hconv.
    rewrite take_ge in Hconv by lia. rewrite take_ge in Hconv by lia. exact Hconv.
  - apply converted_at_nil.
  - intros i sti s1 Hi Hinv Hbody. unfold Inv in *.
    unfold index, deref in Hbody.
    destruct (numerator !! i) as [pn|] eqn:Hpn; [|discriminate].
    cbn [mbind outcome_bind obind] in Hbody.
    destruct (sti !! pn) as [Pn|] eqn:HPn; [|discriminate].
    cbn [mbind outcome_bind obind] in Hbody.
    destruct (denominator !! i) as [pd|] eqn:Hpd; [|discriminate].
    cbn [mbind outcome_bind obind] in Hbody.
    destruct (<[pn := ToLagrange dom Pn]> sti !! pd) as [Pd|] eqn:HPd; [|discriminate].
    cbn [mbind outcome_bind obind] in Hbody. injection Hbody as <-.
    apply (converted_at_same dom
             (((take i numerator ++ take i denominator) ++ [pn]) ++ [pd])).
    { intros q. rewrite (take_S_r _ _ _ Hpn), (take_S_r _ _ _ Hpd).
      rewrite !elem_of_app. tauto. }
    apply converted_at_touch; [|exact HPd].
    now apply converted_at_touch.
Qed.

End StoreFacts.

(** ** convert *)

Section ConvertFacts.
Context `{FO : FieldOps} {FL : FieldLaws}.
Local Open Scope fr_scope.
Add Field Ffield_k15 : F_field.

Lemma wrap_int_small (z : Z) : (- 2 ^ 63 <= z < 2 ^ 63)%Z -> wrap_int z = z.
Proof. intros Hz. unfold wrap_int. rewrite Z.mod_small; lia. Qed.

Lemma convert_values (p n : Z) :
  (0 <= p < n)%Z -> (n < 2 ^ 63)%Z -> (n mod 2 = 0)%Z ->
  convert p n = if (p mod 2 =? 0)%Z then (p / 2, p / 2 + n / 2)%Z
                else (p / 2 + n / 2, p / 2)%Z.
Proof.
  intros Hp Hn Heven. unfold convert.
  rewrite Z.rem_mod_nonneg by lia.
  rewrite !(Z.quot_div_nonneg _ 2) by lia.
  destruct (p mod 2 =? 0)%Z eqn:Hpar.
  - rewrite wrap_int_small; [reflexivity|].
    pose proof (Z.div_mod p 2 ltac:(lia)). pose proof (Z.div_mod n 2 ltac:(lia)).
    pose proof (Z.mod_pos_bound p 2 ltac:(lia)). lia.
  - apply Z.eqb_neq in Hpar.
    pose proof (Z.div_mod p 2 ltac:(lia)) as Hp2.
    pose proof (Z.div_mod n 2 ltac:(lia)) as Hn2.
    pose proof (Z.mod_pos_bound p 2 ltac:(lia)) as Hpm.
    rewrite (wrap_int_small (n - 1)) by lia.
    rewrite (wrap_int_small (n - 1 - p)) by lia.
    rewrite Z.quot_div_nonneg by lia.
    assert (Hl : ((n - 1 - p) / 2 = n / 2 - 1 - p / 2)%Z).
    { symmetry. apply (Z.div_unique _ _ _ 0); lia. }
    rewrite Hl.
    rewrite (wrap_int_small (n - 1 - (n / 2 - 1 - p / 2))) by lia.
    rewrite wrap_int_small by lia.
    f_equal; lia.
Qed.

(** X30: for an even size [n] and an index [0 <= p < n], the two
    indices [convert] returns are below [n] and [n/2] apart, so the
    powers of an element of order dividing [n] at the two indices have
    the same square. *)
Theorem convert_fiber (p n : Z) (g : F) :
  (0 <= p < n)%Z -> (n < 2 ^ 63)%Z -> (n mod 2 = 0)%Z ->
  fpow g (Z.to_nat n) = fone ->
  (0 <= fst (convert p n) < n)%Z /\
  (0 <= snd (convert p n) < n)%Z /\
  Z.abs (fst (convert p n) - snd (convert p n)) = (n / 2)%Z /\
  fpow g (Z.to_nat (fst (convert p n))) ⊗ fpow g (Z.to_nat (fst (convert p n)))
  = fpow g (Z.to_nat (snd (convert p n))) ⊗ fpow g (Z.to_nat (snd (convert p n))).
Proof.
  intros Hp Hn Heven Hg. rewrite convert_values by assumption.
  pose proof (Z.div_mod p 2 ltac:(lia)) as Hp2.
  pose proof (Z.div_mod n 2 ltac:(lia)) as Hn2.
  pose proof (Z.mod_pos_bound p 2 ltac:(lia)) as Hpm.
  assert (Hsq : fpow g (Z.to_nat (p / 2 + n / 2)) ⊗ fpow g (Z.to_nat (p / 2 + n / 2))
                = fpow g (Z.to_nat (p / 2)) ⊗ fpow g (Z.to_nat (p / 2))).
  { rewrite <- !fpow_add.
    replace (Z.to_nat (p / 2 + n / 2) + Z.to_nat (p / 2 + n / 2))
      with (Z.to_nat n + (Z.to_nat (p / 2) + Z.to_nat (p / 2))) by lia.
    rewrite (fpow_add g (Z.to_nat n)), Hg. ring. }
  destruct (p mod 2 =? 0)%Z; cbn [fst snd]; repeat split; try lia; auto.
Qed.

End ConvertFacts.

(* ===================================================================== *)
(** * Part III: the statements at concrete inputs                         *)
(* ===================================================================== *)

Local Open Scope fr_scope.

(** ** The concrete inputs are well formed *)

Ltac elem_cases H :=
  cbn [app] in H;
  repeat match type of H with
         | _ ∈ _ :: _ => apply elem_of_cons in H as [->|H]
         | _ ∈ [] => apply elem_of_nil in H; destruct H
         end.

Lemma F5_domain2_ok : @Domain_ok F5_ops F5_domain2.
Proof.
  repeat split; try reflexivity.
  - exists 1. split; [lia | reflexivity].
  - intros j [Hlo Hhi]. cbn in Hhi.
    destruct j as [|[|j]]; try lia. vm_compute. discriminate.
Qed.

Lemma F5_domain4_ok : @Domain_ok F5_ops F5_domain4.
Proof.
  repeat split; try reflexivity.
  - exists 2. split; [lia | reflexivity].
  - intros j [Hlo Hhi]. cbn in Hhi.
    destruct j as [|[|[|[|j]]]]; try lia; vm_compute; discriminate.
Qed.

Lemma F5_srs_for : @SRS_for F5_ops F5_curve f5_3 F5_srs.
Proof.
  pose proof (@NewSRS_for F5_ops F5_field_laws F5_curve F5_curve_laws 4 f5_3 F5_srs eq_refl)
    as [Hfor _].
  exact Hfor.
Qed.

(** ** Witnesses: the theorems at concrete inputs *)

Lemma Commit_split_eq_unsplit_witness :
  1 <= length [f5_1; f5_2; f5_3] <= length (srsG1 F5_srs) /\
  16 < 32 /\ 8 <= 16 /\
  exists c1 c2 c : F5,
    @MultiExp F5_ops F5 F5_module (take 1 (srsG1 F5_srs)) [f5_1] = Ok c1 /\
    @MultiExp F5_ops F5 F5_module (drop 1 (take 3 (srsG1 F5_srs))) [f5_2; f5_3] = Ok c2 /\
    @Commit F5_ops F5_curve 32 [f5_1; f5_2; f5_3] F5_srs [] = Ok (F5_add c1 c2) /\
    @MultiExp F5_ops F5 F5_module (take 3 (srsG1 F5_srs)) [f5_1; f5_2; f5_3] = Ok c /\
    @Commit F5_ops F5_curve 8 [f5_1; f5_2; f5_3] F5_srs [] = Ok c /\
    F5_add c1 c2 = c.
Proof.
  split; [cbn; lia|]. split; [lia|]. split; [lia|].
  apply (@Commit_split_eq_unsplit F5_ops F5_curve F5_curve_laws 32 8
           [f5_1; f5_2; f5_3] F5_srs); cbn; lia.
Defined.

Lemma Open_constant_polynomial_fails_witness :
  @slice_ok F5_ops F5_heap F5_const /\
  s_len F5_const = 1 /\
  1 <= length (srsG1 F5_srs) /\
  1 <= Cardinality F5_domain4 /\
  fst (@Open F5_ops F5_curve 4 F5_const f5_2 F5_domain4 F5_srs F5_heap)
    = Err ErrInvalidPolynomialSize.
Proof.
  assert (Hok : @slice_ok F5_ops F5_heap F5_const) by (split; cbn; lia).
  split; [exact Hok|]. split; [reflexivity|]. split; [cbn; lia|]. split; [cbn; lia|].
  apply (@Open_constant_polynomial_fails F5_ops F5_field_laws F5_curve 4 f5_2 F5_srs
           F5_const F5_domain4 F5_heap Hok); [reflexivity | cbn; lia | cbn; lia].
Defined.


Lemma Open_preserves_input_witness :
  s_arr F5_poly < length F5_heap /\
  take (length F5_heap)
    (snd (@Open F5_ops F5_curve 4 F5_poly f5_2 F5_domain4 F5_srs F5_heap)) = F5_heap /\
  @load F5_ops (snd (@Open F5_ops F5_curve 4 F5_poly f5_2 F5_domain4 F5_srs F5_heap)) F5_poly
    = @load F5_ops F5_heap F5_poly.
Proof.
  split; [cbn; lia|].
  apply (@Open_preserves_input F5_ops F5_curve 4 f5_2 F5_srs F5_poly F5_domain4 F5_heap).
  cbn. lia.
Defined.

Lemma FoldProof_replaces_transcript_error_witness :
  length [f5_1; f5_2] = length [f5_3; f5_4] /\
  @deriveGamma F5_ops F5_curve F5_transcript f5_2 [f5_1; f5_2] BrokenHash
    = Err (ErrPrimitive "hash: write failed") /\
  @FoldProof F5_ops F5_curve F5_transcript [f5_1; f5_2]
    (@Build_BatchOpeningProof F5_ops F5_curve f5_1 f5_2 [f5_3; f5_4]) BrokenHash
    = Err ErrInvalidNbDigests.
Proof.
  split; [reflexivity|]. split; [reflexivity|].
  apply (@FoldProof_replaces_transcript_error F5_ops F5_curve F5_transcript
           [f5_1; f5_2] (@Build_BatchOpeningProof F5_ops F5_curve f5_1 f5_2 [f5_3; f5_4])
           BrokenHash (ErrPrimitive "hash: write failed")); reflexivity.
Defined.

Lemma BatchOpenSinglePoint_deterministic_witness :
  Forall (fun p => s_arr p < length F5_heap) [F5_poly; F5_tail] /\
  let first := @BatchOpenSinglePoint F5_ops F5_curve F5_transcript 4 [F5_poly; F5_tail]
                 [f5_1; f5_2] f5_2 SoundHash F5_domain4 F5_srs F5_heap in
  fst (@BatchOpenSinglePoint F5_ops F5_curve F5_transcript 32 [F5_poly; F5_tail]
         [f5_1; f5_2] f5_2 SoundHash F5_domain4 F5_srs (snd first)) = fst first /\
  (forall h2 : list (list F5),
     Forall (fun p => s_arr p < length h2) [F5_poly; F5_tail] ->
     map (@load F5_ops h2) [F5_poly; F5_tail] = map (@load F5_ops F5_heap) [F5_poly; F5_tail] ->
     fst (@BatchOpenSinglePoint F5_ops F5_curve F5_transcript 32 [F5_poly; F5_tail]
            [f5_1; f5_2] f5_2 SoundHash F5_domain4 F5_srs h2) = fst first) /\
  (forall proof : @BatchOpeningProof F5_ops F5_curve,
     fst first = Ok proof ->
     exists gamma : F5,
       @deriveGamma F5_ops F5_curve F5_transcript f5_2 [f5_1; f5_2] SoundHash = Ok gamma).
Proof.
  assert (Hps : Forall (fun p => s_arr p < length F5_heap) [F5_poly; F5_tail])
    by (repeat constructor).
  split; [exact Hps|].
  exact (@BatchOpenSinglePoint_deterministic F5_ops F5_curve F5_curve_laws F5_transcript
           4 32 [F5_poly; F5_tail] [f5_1; f5_2] f5_2 SoundHash F5_domain4 F5_srs F5_heap Hps).
Defined.

Lemma BuildRatioShuffledVectors_single_aborts_witness :
  F5_store4 !! 0 = Some (F5_polynomial [f5_0; f5_1; f5_2; f5_3] (F5_form Lagrange Regular)) /\
  @BuildRatioShuffledVectors F5_ops (fun _ => F5_domain4) [0] [2] f5_4
    (F5_form Lagrange Regular) (Some F5_domain4) F5_store4
  = Abort "index out of range".
Proof.
  split; [reflexivity|].
  apply (@BuildRatioShuffledVectors_single_aborts F5_ops (fun _ => F5_domain4) F5_store4 0 2
           (F5_polynomial [f5_0; f5_1; f5_2; f5_3] (F5_form Lagrange Regular))).
  reflexivity.
Defined.

Lemma ratio_builders_abort_witness :
  F5_store4 !! 1 = Some (F5_polynomial [f5_1; f5_1; f5_2; f5_0] (F5_form Canonical Regular)) /\
  @BuildRatioShuffledVectors F5_ops (fun _ => F5_domain4) [1] [3] f5_4
    (F5_form Lagrange Regular) None F5_store4
    = Abort "index out of range" /\
  @BuildRatioShuffledVectors F5_ops (fun _ => F5_domain4) [] [] f5_4
    (F5_form Lagrange Regular) None F5_store4
    = Abort "index out of range" /\
  @BuildRatioCopyConstraint F5_ops (fun _ => F5_domain4) [] [] f5_4 f5_1
    (F5_form Lagrange Regular) None F5_store4
    = Abort "index out of range".
Proof.
  split; [reflexivity|].
  apply (@ratio_builders_abort F5_ops (fun _ => F5_domain4) F5_store4 1 3
           (F5_polynomial [f5_1; f5_1; f5_2; f5_0] (F5_form Canonical Regular))).
  reflexivity.
Defined.

Lemma BuildRatioShuffledVectors_recurrence_witness :
  2 <= length [0; 1] /\
  exists (Z : @Polynomial F5_ops) (st' : list (@Polynomial F5_ops)),
    @BuildRatioShuffledVectors F5_ops (fun _ => F5_domain4) [0; 1] [2; 3] f5_4
      (F5_form Canonical Regular) (Some F5_domain4) F5_store4 = Ok (Z, st') /\
    length (@values_on F5_ops F5_domain4 Z) = 4 /\
    @values_on F5_ops F5_domain4 Z !! 0 = Some f5_1 /\
    forall j, j + 1 < 4 ->
      @values_on F5_ops F5_domain4 Z !!! (j + 1) =
      F5_mul (F5_mul (@values_on F5_ops F5_domain4 Z !!! j)
        (@fprod F5_ops (map (fun ptr => F5_sub f5_4 (@value_at F5_ops F5_domain4 F5_store4 ptr j))
                          [0; 1])))
        (F5_inv (@fprod F5_ops
                   (map (fun ptr => F5_sub f5_4 (@value_at F5_ops F5_domain4 F5_store4 ptr j))
                      [2; 3]))).
Proof.
  split; [cbn; lia|].
  apply (@BuildRatioShuffledVectors_recurrence F5_ops F5_field_laws F5_domain4 F5_domain4_ok
           (fun _ => F5_domain4) [0; 1] [2; 3] f5_4 (F5_form Canonical Regular)
           (Some F5_domain4) F5_store4).
  - reflexivity.
  - reflexivity.
  - cbn. lia.
  - intros ptr Hin. elem_cases Hin; eexists; split; reflexivity.
  - intros j ptr Hj Hin. cbn in Hj.
    elem_cases Hin; destruct j as [|[|[|j]]]; try lia; vm_compute; discriminate.
Defined.

Lemma BuildRatioCopyConstraint_identity_witness :
  2 <= Cardinality F5_domain2 /\
  Twiddles F5_domain2 <> [] /\
  exists (Z : @Polynomial F5_ops) (st' : list (@Polynomial F5_ops)),
    @BuildRatioCopyConstraint F5_ops (fun _ => F5_domain2) [0] [0; 1]%Z f5_1 f5_1
      (F5_form Canonical Regular) (Some F5_domain2) F5_store_nonzero = Ok (Z, st') /\
    @values_on F5_ops F5_domain2 Z = replicate 2 f5_1.
Proof.
  split; [cbn; lia|]. split; [discriminate|].
  apply (@BuildRatioCopyConstraint_identity F5_ops F5_field_laws F5_domain2 F5_domain2_ok
           (fun _ => F5_domain2) [0] [0; 1]%Z f5_1 f5_1 (F5_form Canonical Regular)
           (Some F5_domain2) F5_store_nonzero).
  - reflexivity.
  - cbn. lia.
  - discriminate.
  - discriminate.
  - intros ptr Hin. elem_cases Hin. eexists. split; reflexivity.
  - intros idx Hidx. cbn in Hidx. destruct idx as [|[|idx]]; try lia; reflexivity.
  - intros id i j ptr Hid Hi Hj. vm_compute in Hid. injection Hid as <-.
    cbn in Hi. assert (i = 0) by lia. subst i.
    destruct j as [|j]; [|discriminate]. injection Hj as <-.
    vm_compute. discriminate.
Defined.

(** ** Evaluations at the inputs where a claim fails *)

(** C4 (at inputs where the code fails): both builders go through with
    polynomials of different lengths.  [BuildRatioCopyConstraint] is given
    entries of 2 and of 4 coefficients; [BuildRatioShuffledVectors] is
    given three numerators and three denominators, of which the third has
    4 coefficients and the others 2.  Neither returns
    [ErrInconsistentSize]: they return a polynomial. *)
Theorem ratio_builders_accept_inconsistent_sizes :
  map (fun p => length (@coefficients F5_ops p)) F5_store_sizes = [2; 2; 4] /\
  (exists st',
     @BuildRatioCopyConstraint F5_ops (fun _ => F5_domain2) [0; 2] [0; 1; 2; 3]%Z f5_1 f5_1
       (F5_form Lagrange Regular) (Some F5_domain2) F5_store_sizes
     = Ok (F5_polynomial [f5_1; f5_1] (F5_form Lagrange Regular), st')) /\
  (exists st',
     @BuildRatioShuffledVectors F5_ops (fun _ => F5_domain2) [0; 1; 2] [1; 0; 2] f5_4
       (F5_form Lagrange Regular) (Some F5_domain2) F5_store_sizes
     = Ok (F5_polynomial [f5_1; f5_1] (F5_form Lagrange Regular), st')).
Proof.
  split; [reflexivity|]. split; eexists; vm_compute; reflexivity.
Qed.

(** C8 as stated fails: with the identity permutation and an entry
    whose factor at the first step is zero ([3 + 1·1 + 1 = 0] in the field
    of five elements), both products are zero and the polynomial returned
    has value [0], not [1], at [ω^1]. *)
Lemma BuildRatioCopyConstraint_identity_counterexample :
  exists (Z : @Polynomial F5_ops) (st' : list (@Polynomial F5_ops)),
    @BuildRatioCopyConstraint F5_ops (fun _ => F5_domain2) [0] [0; 1]%Z f5_1 f5_1
      (F5_form Lagrange Regular) (Some F5_domain2) F5_store_zero = Ok (Z, st') /\
    @values_on F5_ops F5_domain2 Z = [f5_1; f5_0] /\
    @values_on F5_ops F5_domain2 Z <> replicate 2 f5_1.
Proof.
  eexists _, _. split; [vm_compute; reflexivity|].
  split; [reflexivity | discriminate].
Qed.

(** ** The further properties at concrete inputs

    The interfaces are resolved to the five-element instance from here
    on. *)

#[local] Existing Instance F5_ops.
#[local] Existing Instance F5_curve.
#[local] Existing Instance F5_transcript.
#[local] Existing Instance F5_field_laws.
#[local] Existing Instance F5_curve_laws.


Lemma F5_nondegenerate (a : F5) : F5_mul a (F5_mul f5_1 f5_1) = f5_0 -> a = f5_0.
Proof. destruct a; cbn; intros Ha; try reflexivity; discriminate. Qed.

Lemma NewSRS_powers_witness :
  2 <= 4 /\
  exists srs : SRS,
    NewSRS 4 f5_3 = Ok srs /\
    length (srsG1 srs) = 4 /\
    (forall i, i < 4 -> srsG1 srs !! i = Some (fpow (FO:=F5_ops) f5_3 i • gen1)) /\
    srsG2 srs = (gen2, smul (H:=F5_ops) f5_3 gen2).
Proof. split; [lia|]. apply (NewSRS_powers (FO:=F5_ops) 4 f5_3). lia. Defined.

Lemma Commit_NewSRS_evaluates_witness :
  NewSRS 4 f5_3 = Ok F5_srs /\
  1 <= length [f5_1; f5_2; f5_3] <= 4 /\
  Commit 32 [f5_1; f5_2; f5_3] F5_srs [] = Ok (Eval (FO:=F5_ops) [f5_1; f5_2; f5_3] f5_3 • gen1).
Proof.
  split; [reflexivity|]. split; [cbn; lia|].
  apply (Commit_NewSRS_evaluates (FO:=F5_ops) 32 4 f5_3 F5_srs [f5_1; f5_2; f5_3] []); [reflexivity | cbn; lia].
Defined.

Lemma Commit_outcome_witness :
  (Commit 32 [f5_1; f5_2; f5_3] F5_srs [] = Err ErrInvalidPolynomialSize <->
     length [f5_1; f5_2; f5_3] = 0 \/ length (srsG1 F5_srs) < length [f5_1; f5_2; f5_3]) /\
  ((exists c : G1, Commit 32 [f5_1; f5_2; f5_3] F5_srs [] = Ok c) <->
     1 <= length [f5_1; f5_2; f5_3] <= length (srsG1 F5_srs)).
Proof. exact (Commit_outcome (FO:=F5_ops) 32 [f5_1; f5_2; f5_3] F5_srs []). Defined.

Lemma Commit_linear_witness :
  length [f5_1; f5_2; f5_3] = length [f5_4; f5_0; f5_1] /\
  Commit 32 [f5_1; f5_2; f5_3] F5_srs [] = Ok f5_4 /\
  Commit 32 [f5_4; f5_0; f5_1] F5_srs [] = Ok f5_3 /\
  Commit 32 (zip_with fadd [f5_1; f5_2; f5_3] [f5_4; f5_0; f5_1]) F5_srs []
    = Ok (gadd (G:=G1) f5_4 f5_3) /\
  Commit 32 (map (fmul f5_2) [f5_1; f5_2; f5_3]) F5_srs [] = Ok (smul (G:=G1) f5_2 f5_4).
Proof.
  split; [reflexivity|]. split; [reflexivity|]. split; [reflexivity|].
  apply (Commit_linear (FO:=F5_ops) 32 f5_2 [f5_1; f5_2; f5_3] [f5_4; f5_0; f5_1] F5_srs [] f5_4 f5_3);
    reflexivity.
Defined.



Lemma Verify_accepts_iff_witness :
  SRS_for (FO:=F5_ops) f5_3 F5_srs /\
  (forall a : F5, smul (G:=GT) a (pairing gen1 gen2) = gzero -> a = f5_0) /\
  (Verify (smul (G:=G1) f5_4 gen1)
     {| H := smul (G:=G1) f5_1 gen1; Point := f5_2; ClaimedValue := f5_3 |} F5_srs = Ok tt <->
     fsub (FieldOps:=F5_ops) f5_4 f5_3 = fmul (FieldOps:=F5_ops) f5_1 (f5_3 ⊖ f5_2)) /\
  (Verify (smul (G:=G1) f5_4 gen1)
     {| H := smul (G:=G1) f5_1 gen1; Point := f5_2; ClaimedValue := f5_3 |} F5_srs
     = Err ErrVerifyOpeningProof <->
     fsub (FieldOps:=F5_ops) f5_4 f5_3 <> fmul (FieldOps:=F5_ops) f5_1 (f5_3 ⊖ f5_2)).
Proof.
  split; [exact F5_srs_for|]. split; [exact F5_nondegenerate|].
  exact (Verify_accepts_iff (FO:=F5_ops) (CO:=F5_curve) f5_3 f5_2 f5_3 f5_4 f5_1 F5_srs
           F5_srs_for F5_nondegenerate).
Defined.


Lemma fold_linear_combination_witness :
  (length [f5_2; f5_3] = length [f5_4; f5_1] -> length [f5_1; f5_2] = length [f5_4; f5_1] ->
   fold (FO:=F5_ops) [f5_4; f5_1] [f5_2; f5_3] [f5_1; f5_2] =
   Ok (msm (G:=G1) [f5_4; f5_1] [f5_1; f5_2],
       fsum (fun i => (([f5_2; f5_3] : list (@F F5_ops)) !!! i)
                     ⊗ (([f5_1; f5_2] : list (@F F5_ops)) !!! i)) (length [f5_4; f5_1]))) /\
  (length [f5_2; f5_3] < length [f5_4; f5_1] \/ length [f5_1; f5_2] < length [f5_4; f5_1] ->
   fold (FO:=F5_ops) [f5_4; f5_1] [f5_2; f5_3] [f5_1; f5_2] = Abort "index out of range").
Proof. exact (fold_linear_combination (FO:=F5_ops) (CO:=F5_curve) [f5_4; f5_1] [f5_2; f5_3] [f5_1; f5_2]). Defined.

Lemma FoldProof_value_witness :
  [f5_4; f5_1] <> [] /\
  length [f5_4; f5_1] = length (ClaimedValues F5_batch2) /\
  deriveGamma (FO:=F5_ops) (bPoint F5_batch2) [f5_4; f5_1] SoundHash = Ok f5_2 /\
  exists (proof : OpeningProof) (digest : G1),
    FoldProof (FO:=F5_ops) [f5_4; f5_1] F5_batch2 SoundHash = Ok (proof, digest) /\
    H proof = bH F5_batch2 /\
    Point proof = bPoint F5_batch2 /\
    ClaimedValue proof =
      fsum (fun i => (ClaimedValues F5_batch2 !!! i) ⊗ fpow (FO:=F5_ops) f5_2 i)
        (length [f5_4; f5_1]) /\
    digest = msm (G:=G1) [f5_4; f5_1]
               (map (fpow (FO:=F5_ops) f5_2) (seq 0 (length [f5_4; f5_1]))).
Proof.
  split; [discriminate|]. split; [reflexivity|]. split; [reflexivity|].
  apply (FoldProof_value (FO:=F5_ops) (CO:=F5_curve) (TO:=F5_transcript) [f5_4; f5_1] F5_batch2 SoundHash f5_2);
    [discriminate | reflexivity | reflexivity].
Defined.

Lemma BatchVerifySinglePoint_single_witness :
  deriveGamma (FO:=F5_ops) f5_2 [f5_4] SoundHash = Ok f5_1 /\
  FoldProof (FO:=F5_ops) [f5_4] {| bH := f5_1; bPoint := f5_2; ClaimedValues := [f5_3] |}
    SoundHash
    = Ok ({| H := f5_1; Point := f5_2; ClaimedValue := f5_3 |}, f5_4) /\
  BatchVerifySinglePoint (FO:=F5_ops) [f5_4]
    {| bH := f5_1; bPoint := f5_2; ClaimedValues := [f5_3] |} SoundHash F5_srs
    = Verify f5_4 {| H := f5_1; Point := f5_2; ClaimedValue := f5_3 |} F5_srs.
Proof.
  split; [reflexivity|].
  apply (BatchVerifySinglePoint_single (FO:=F5_ops) (CO:=F5_curve) (TO:=F5_transcript) f5_4 f5_1 f5_2 f5_3 f5_1 SoundHash F5_srs).
  reflexivity.
Defined.


Lemma BatchVerifyMultiPoints_complete_witness :
  ([f5_4; f5_1] : list F5) <> [] /\
  Forall2 (fun c proof => Verify (FO:=F5_ops) c proof F5_srs = Ok tt)
    [f5_4; f5_1] [F5_proof_poly; F5_proof_tail] /\
  BatchVerifyMultiPoints (FO:=F5_ops) (fun _ => f5_3) [f5_4; f5_1]
    [F5_proof_poly; F5_proof_tail] F5_srs = Ok tt.
Proof.
  assert (Hall : Forall2 (fun c proof => Verify (FO:=F5_ops) (CO:=F5_curve) c proof F5_srs = Ok tt)
                   [f5_4; f5_1] [F5_proof_poly; F5_proof_tail]).
  { repeat constructor. }
  split; [discriminate|]. split; [exact Hall|].
  apply (BatchVerifyMultiPoints_complete (FO:=F5_ops) (CO:=F5_curve) (fun _ => f5_3)
           [f5_4; f5_1] [F5_proof_poly; F5_proof_tail] F5_srs); [discriminate | exact Hall].
Defined.

Lemma BatchOpenSinglePoint_preserves_inputs_witness :
  Forall (fun p => s_arr p < length F5_heap) [F5_poly; F5_tail] /\
  take (length F5_heap)
    (snd (BatchOpenSinglePoint (FO:=F5_ops) 4 [F5_poly; F5_tail] [f5_4; f5_1] f5_2 SoundHash
            F5_domain4 F5_srs F5_heap)) = F5_heap /\
  Forall (fun p =>
            load (snd (BatchOpenSinglePoint (FO:=F5_ops) 4 [F5_poly; F5_tail] [f5_4; f5_1] f5_2
                         SoundHash F5_domain4 F5_srs F5_heap)) p
            = load F5_heap p) [F5_poly; F5_tail].
Proof.
  assert (Hps : Forall (fun p => s_arr p < length F5_heap) [F5_poly; F5_tail])
    by (repeat constructor).
  split; [exact Hps|].
  exact (BatchOpenSinglePoint_preserves_inputs (FO:=F5_ops) (CO:=F5_curve) (TO:=F5_transcript)
           4 [F5_poly; F5_tail] [f5_4; f5_1] f5_2 SoundHash F5_domain4 F5_srs F5_heap Hps).
Defined.

Lemma empty_batch_panics_witness :
  deriveGamma (FO:=F5_ops) f5_2 [] SoundHash = Ok f5_2 /\
  BatchOpenSinglePoint (FO:=F5_ops) 4 [] [] f5_2 SoundHash F5_domain4 F5_srs F5_heap
    = (Abort "index out of range", F5_heap) /\
  FoldProof (FO:=F5_ops) [] {| bH := f5_1; bPoint := f5_2; ClaimedValues := [] |} SoundHash
    = Abort "index out of range" /\
  BatchVerifySinglePoint (FO:=F5_ops) []
    {| bH := f5_1; bPoint := f5_2; ClaimedValues := [] |} SoundHash F5_srs
    = Abort "index out of range".
Proof.
  split; [reflexivity|].
  apply (empty_batch_panics (FO:=F5_ops) (CO:=F5_curve) (TO:=F5_transcript)
           4 f5_2 f5_2 f5_1 SoundHash F5_domain4 F5_srs F5_heap).
  reflexivity.
Defined.


Lemma F5_slice_ok_padded : slice_ok F5_heap_padded F5_poly.
Proof. split; cbn; lia. Qed.

Lemma dividePolyByXminusA_returns_iff_witness :
  slice_ok F5_heap_padded F5_poly /\
  ((exists q, fst (dividePolyByXminusA (FO:=F5_ops) F5_domain4 F5_poly f5_1 f5_2
                     F5_heap_padded) = Ok q) <->
     1 <= Cardinality F5_domain4 <= cap F5_heap_padded F5_poly /\ 1 <= s_len F5_poly) /\
  (forall q, fst (dividePolyByXminusA (FO:=F5_ops) F5_domain4 F5_poly f5_1 f5_2
                    F5_heap_padded) = Ok q ->
     s_arr q = s_arr F5_poly /\ s_off q = s_off F5_poly /\ s_len q = s_len F5_poly - 1) /\
  (cap F5_heap_padded F5_poly < Cardinality F5_domain4 ->
     fst (dividePolyByXminusA (FO:=F5_ops) F5_domain4 F5_poly f5_1 f5_2 F5_heap_padded)
     = Abort "slice bounds out of range").
Proof.
  split; [exact F5_slice_ok_padded|].
  exact (dividePolyByXminusA_returns_iff (FO:=F5_ops) F5_domain4 F5_poly f5_1 f5_2
           F5_heap_padded F5_slice_ok_padded).
Defined.

Lemma dividePolyByXminusA_quotient_witness :
  slice_ok F5_heap_padded F5_poly /\
  1 <= s_len F5_poly <= Cardinality F5_domain4 /\
  Cardinality F5_domain4 <= cap F5_heap_padded F5_poly /\
  (forall i, s_len F5_poly <= i < Cardinality F5_domain4 ->
     backing F5_heap_padded F5_poly !! (s_off F5_poly + i) = Some f5_0) /\
  exists q : slice,
    fst (dividePolyByXminusA (FO:=F5_ops) F5_domain4 F5_poly f5_1 f5_2 F5_heap_padded) = Ok q /\
    length (load (snd (dividePolyByXminusA (FO:=F5_ops) F5_domain4 F5_poly f5_1 f5_2
                         F5_heap_padded)) q) = s_len F5_poly - 1 /\
    forall x : F5,
      fsub (FieldOps:=F5_ops) (Eval (load F5_heap_padded F5_poly) x) f5_1 =
      Eval (load (snd (dividePolyByXminusA (FO:=F5_ops) F5_domain4 F5_poly f5_1 f5_2
                         F5_heap_padded)) q) x ⊗ (x ⊖ f5_2)
      ⊕ (Eval (load F5_heap_padded F5_poly) f5_2 ⊖ f5_1).
Proof.
  assert (Hz : forall i, s_len F5_poly <= i < Cardinality F5_domain4 ->
     backing F5_heap_padded F5_poly !! (s_off F5_poly + i) = Some f5_0).
  { intros i Hi. cbn in Hi. assert (i = 3) as -> by lia. reflexivity. }
  split; [exact F5_slice_ok_padded|]. split; [cbn; lia|]. split; [cbn; lia|].
  split; [exact Hz|].
  apply (dividePolyByXminusA_quotient (FO:=F5_ops) F5_domain4 F5_poly f5_1 f5_2 F5_heap_padded
           F5_slice_ok_padded); [cbn; lia | cbn; lia | exact Hz].
Defined.

Lemma iRev_of_involution_witness :
  2 <= 63 /\ 1 < 2 ^ 2 /\
  iRev_of (2 ^ 2) 1 < 2 ^ 2 /\ iRev_of (2 ^ 2) (iRev_of (2 ^ 2) 1) = 1.
Proof.
  split; [lia|]. split; [cbn; lia|].
  apply (iRev_of_involution 2 1); [lia | cbn; lia].
Defined.

Lemma putInExpectedFormFromLagrangeRegular_values_witness :
  Domain_ok F5_domain4 /\
  length (coefficients (F5_polynomial [f5_1; f5_3; f5_0; f5_2] (F5_form Lagrange Regular)))
    = Cardinality F5_domain4 /\
  form (putInExpectedFormFromLagrangeRegular
          (F5_polynomial [f5_1; f5_3; f5_0; f5_2] (F5_form Lagrange Regular))
          F5_domain4 (F5_form LagrangeCoset BitReverse)) = F5_form LagrangeCoset BitReverse /\
  length (coefficients (putInExpectedFormFromLagrangeRegular
          (F5_polynomial [f5_1; f5_3; f5_0; f5_2] (F5_form Lagrange Regular))
          F5_domain4 (F5_form LagrangeCoset BitReverse))) = Cardinality F5_domain4 /\
  values_on F5_domain4 (putInExpectedFormFromLagrangeRegular
          (F5_polynomial [f5_1; f5_3; f5_0; f5_2] (F5_form Lagrange Regular))
          F5_domain4 (F5_form LagrangeCoset BitReverse))
  = coefficients (F5_polynomial [f5_1; f5_3; f5_0; f5_2] (F5_form Lagrange Regular)).
Proof.
  split; [exact F5_domain4_ok|]. split; [reflexivity|].
  apply (putInExpectedFormFromLagrangeRegular_values (FO:=F5_ops) F5_domain4
           (F5_polynomial [f5_1; f5_3; f5_0; f5_2] (F5_form Lagrange Regular))
           (F5_form LagrangeCoset BitReverse) F5_domain4_ok).
  reflexivity.
Defined.

Lemma getSupportIdentityPermutation_values_witness :
  1 <= 2 /\
  2 <= Cardinality F5_domain4 /\
  Twiddles F5_domain4 !! 0 = Some [f5_1; f5_2] /\
  length [f5_1; f5_2] = Cardinality F5_domain4 / 2 /\
  (forall j, j < Cardinality F5_domain4 / 2 ->
     [f5_1; f5_2] !! j = Some (fpow (FO:=F5_ops) (Generator F5_domain4) j)) /\
  exists id : list F5,
    getSupportIdentityPermutation (FO:=F5_ops) 2 F5_domain4 = Ok id /\
    length id = 2 * Cardinality F5_domain4 /\
    (forall j, j < Cardinality F5_domain4 ->
       id !! j = Some (fpow (FO:=F5_ops) (Generator F5_domain4) j)) /\
    (forall i j, 1 <= i < 2 -> j < Cardinality F5_domain4 ->
       id !! (i * Cardinality F5_domain4 + j) =
       Some (fpow (FO:=F5_ops) (Generator F5_domain4) j ⊗
             (if i =? 1 then FrMultiplicativeGen F5_domain4
              else if i <? length (CosetTable F5_domain4) then CosetTable F5_domain4 !!! i
              else fpow (FrMultiplicativeGen F5_domain4) i))).
Proof.
  assert (Htw : forall j, j < Cardinality F5_domain4 / 2 ->
     [f5_1; f5_2] !! j = Some (fpow (FO:=F5_ops) (Generator F5_domain4) j)).
  { intros j Hj. cbn in Hj. destruct j as [|[|j]]; try lia; reflexivity. }
  split; [lia|]. split; [cbn; lia|]. split; [reflexivity|]. split; [reflexivity|].
  split; [exact Htw|].
  apply (getSupportIdentityPermutation_values (FO:=F5_ops) F5_domain4 2 [f5_1; f5_2]);
    [lia | cbn; lia | reflexivity | reflexivity | exact Htw].
Defined.

Lemma BuildRatioCopyConstraint_one_point_panics_witness :
  F5_store_one !! 0 = Some (F5_polynomial [f5_2] (F5_form Lagrange Regular)) /\
  length (coefficients (F5_polynomial [f5_2] (F5_form Lagrange Regular))) = 1 /\
  (forall ptr, ptr ∈ ([] : list nat) ->
     exists P, F5_store_one !! ptr = Some P /\ length (coefficients P) = 1) /\
  Cardinality (default ((fun _ => F5_domain1) 1) None) = 1 /\
  BuildRatioCopyConstraint (FO:=F5_ops) (fun _ => F5_domain1) [0] [0%Z] f5_1 f5_1
    (F5_form Lagrange Regular) None F5_store_one = Abort "index out of range".
Proof.
  assert (Hrest : forall ptr, ptr ∈ ([] : list nat) ->
            exists P, F5_store_one !! ptr = Some P /\ length (coefficients P) = 1).
  { intros ptr Hin. now apply elem_of_nil in Hin. }
  split; [reflexivity|]. split; [reflexivity|]. split; [exact Hrest|]. split; [reflexivity|].
  apply (BuildRatioCopyConstraint_one_point_panics (FO:=F5_ops) (fun _ => F5_domain1) 0 []
           (F5_polynomial [f5_2] (F5_form Lagrange Regular)) [0%Z] f5_1 f5_1
           (F5_form Lagrange Regular) None F5_store_one);
    [reflexivity | reflexivity | exact Hrest | reflexivity].
Defined.


Lemma BuildRatioCopyConstraint_recurrence_witness :
  2 <= Cardinality F5_domain2 /\
  getSupportIdentityPermutation (FO:=F5_ops) (length [0]) F5_domain2 = Ok [f5_1; f5_4] /\
  exists (Z : Polynomial) (st' : list Polynomial),
    BuildRatioCopyConstraint (FO:=F5_ops) (fun _ => F5_domain2) [0] [1; 0]%Z f5_1 f5_1
      (F5_form Canonical Regular) (Some F5_domain2) F5_store_nonzero = Ok (Z, st') /\
    length (values_on F5_domain2 Z) = Cardinality F5_domain2 /\
    values_on F5_domain2 Z !! 0 = Some f5_1 /\
    forall i, i + 1 < Cardinality F5_domain2 ->
      values_on F5_domain2 Z !!! (i + 1) =
      (values_on F5_domain2 Z !!! i)
      ⊗ prefix_prod
          (fun j => fmul (FieldOps:=F5_ops) f5_1
                      (([f5_1; f5_4] : list (@F F5_ops)) !!! (i + j * Cardinality F5_domain2)%nat)
                    ⊕ f5_1 ⊕ value_at F5_domain2 F5_store_nonzero ([0] !!! j) i)
          (length [0])
      ⊗ finv (prefix_prod
          (fun j => fmul (FieldOps:=F5_ops) f5_1
                      (([f5_1; f5_4] : list (@F F5_ops))
                         !!! Z.to_nat ([1; 0]%Z !!! (i + j * Cardinality F5_domain2)%nat))
                    ⊕ f5_1 ⊕ value_at F5_domain2 F5_store_nonzero ([0] !!! j) i)
          (length [0])).
Proof.
  split; [cbn; lia|]. split; [reflexivity|].
  apply (BuildRatioCopyConstraint_recurrence (FO:=F5_ops) F5_domain2 F5_domain2_ok
           (fun _ => F5_domain2) [0] [1; 0]%Z f5_1 f5_1 (F5_form Canonical Regular)
           (Some F5_domain2) F5_store_nonzero [f5_1; f5_4]).
  - reflexivity.
  - cbn. lia.
  - discriminate.
  - intros ptr Hin. elem_cases Hin. eexists. split; reflexivity.
  - reflexivity.
  - intros idx Hidx. cbn in Hidx.
    destruct idx as [|[|idx]]; try lia; eexists; (split; [reflexivity | cbn; lia]).
  - intros i j Hi Hj. cbn in Hi, Hj.
    assert (i = 0) as -> by lia. assert (j = 0) as -> by lia.
    vm_compute. discriminate.
Defined.

Lemma BuildRatioCopyConstraint_converts_in_place_witness :
  BuildRatioCopyConstraint (FO:=F5_ops) (fun _ => F5_domain2) [0] [1; 0]%Z f5_1 f5_1
    (F5_form Canonical Regular) (Some F5_domain2) F5_store_nonzero
    = Ok (F5_polynomial [f5_2; f5_4] (F5_form Canonical Regular),
          [F5_polynomial [f5_1; f5_0] (F5_form Lagrange Regular)]) /\
  exists dom : Domain,
    dom = default ((fun _ => F5_domain2) (Cardinality dom)) (Some F5_domain2) /\
    converted_at dom [0] F5_store_nonzero [F5_polynomial [f5_1; f5_0] (F5_form Lagrange Regular)].
Proof.
  split; [reflexivity|].
  apply (BuildRatioCopyConstraint_converts_in_place (FO:=F5_ops) (fun _ => F5_domain2) [0]
           [1; 0]%Z f5_1 f5_1 (F5_form Canonical Regular) (Some F5_domain2) F5_store_nonzero
           [F5_polynomial [f5_1; f5_0] (F5_form Lagrange Regular)]
           (F5_polynomial [f5_2; f5_4] (F5_form Canonical Regular))).
  reflexivity.
Defined.

Lemma BuildRatioShuffledVectors_converts_in_place_witness :
  BuildRatioShuffledVectors (FO:=F5_ops) (fun _ => F5_domain4) [0; 1] [2; 3] f5_4
    (F5_form Canonical Regular) (Some F5_domain4) F5_store4
    = Ok (F5_polynomial [f5_4; f5_4; f5_4; f5_4] (F5_form Canonical Regular),
          [F5_polynomial [f5_0; f5_1; f5_2; f5_3] (F5_form Lagrange Regular);
           F5_polynomial [f5_4; f5_2; f5_1; f5_2] (F5_form Lagrange BitReverse);
           F5_polynomial [f5_0; f5_2; f5_1; f5_3] (F5_form Lagrange BitReverse);
           F5_polynomial [f5_0; f5_2; f5_2; f5_1] (F5_form Lagrange BitReverse)]) /\
  exists dom : Domain,
    dom = default ((fun _ => F5_domain4) (Cardinality dom)) (Some F5_domain4) /\
    converted_at dom ([0; 1] ++ [2; 3]) F5_store4
      [F5_polynomial [f5_0; f5_1; f5_2; f5_3] (F5_form Lagrange Regular);
       F5_polynomial [f5_4; f5_2; f5_1; f5_2] (F5_form Lagrange BitReverse);
       F5_polynomial [f5_0; f5_2; f5_1; f5_3] (F5_form Lagrange BitReverse);
       F5_polynomial [f5_0; f5_2; f5_2; f5_1] (F5_form Lagrange BitReverse)].
Proof.
  split; [reflexivity|].
  apply (BuildRatioShuffledVectors_converts_in_place (FO:=F5_ops) (fun _ => F5_domain4)
           [0; 1] [2; 3] f5_4 (F5_form Canonical Regular) (Some F5_domain4) F5_store4
           _ (F5_polynomial [f5_4; f5_4; f5_4; f5_4] (F5_form Canonical Regular))).
  reflexivity.
Defined.

Lemma convert_fiber_witness :
  (0 <= 1 < 4)%Z /\ (4 < 2 ^ 63)%Z /\ (4 mod 2 = 0)%Z /\
  fpow (FO:=F5_ops) f5_2 (Z.to_nat 4) = f5_1 /\
  (0 <= fst (convert 1 4) < 4)%Z /\
  (0 <= snd (convert 1 4) < 4)%Z /\
  Z.abs (fst (convert 1 4) - snd (convert 1 4)) = (4 / 2)%Z /\
  fmul (FieldOps:=F5_ops) (fpow f5_2 (Z.to_nat (fst (convert 1 4))))
    (fpow f5_2 (Z.to_nat (fst (convert 1 4))))
  = fmul (FieldOps:=F5_ops) (fpow f5_2 (Z.to_nat (snd (convert 1 4))))
      (fpow f5_2 (Z.to_nat (snd (convert 1 4)))).
Proof.
  split; [lia|]. split; [lia|]. split; [reflexivity|]. split; [reflexivity|].
  apply (convert_fiber (FO:=F5_ops) 1 4 f5_2); [lia | lia | reflexivity | reflexivity].
Defined.
